(** * Wirtinger width of four-bridge knot diagrams: a shallow embedding

    The development follows [calc_ww_fourbridge.py]: a Gauss code is cut
    into strands, every strand records the crossings it passes over, a set
    of seed strands is coloured and the colouring is propagated through the
    crossings, and [calc] searches the seed triples for one whose
    one-strand extension colours the whole diagram. *)

From Stdlib Require Import String Ascii.
From Stdlib Require Import ZArith Lia Bool Arith List Permutation.
From Stdlib Require DecimalString DecimalPos.
Import ListNotations.
Local Open Scope string_scope.
Local Open Scope nat_scope.
Local Open Scope list_scope.

(** ** Outcomes of a Python call

    A call returns a value, raises one of the built-in exceptions the
    source can run into, or is still running when the iteration budget of
    the model is used up. *)

Inductive exn : Set :=
| ValueError
| IndexError
| KeyError
| UnboundLocalError.

Inductive outcome (A : Type) : Type :=
| Return (a : A)
| Raise (e : exn)
| OutOfFuel.

Arguments Return {A} a.
Arguments Raise {A} e.
Arguments OutOfFuel {A}.

Definition bind {A B : Type} (m : outcome A) (k : A -> outcome B) : outcome B :=
  match m with
  | Return a => k a
  | Raise e => Raise e
  | OutOfFuel => OutOfFuel
  end.

Notation "x <- m ;; k" := (bind m (fun x => k))
  (at level 61, m at next level, right associativity).
Notation "' p <- m ;; k" := (bind m (fun x => match x with p => k end))
  (at level 61, p pattern, m at next level, right associativity).

(** The call returns or raises within the budget. *)
Definition terminates {A : Type} (m : outcome A) : Prop := m <> OutOfFuel.

(** [stable m m']: whatever [m] has settled, [m'] settles the same way. *)
Definition stable {A : Type} (m m' : outcome A) : Prop :=
  m <> OutOfFuel -> m' = m.

(** ** Data model *)

Definition label := string.
Definition strand := list Z.
Definition crossing := (label * label)%type.

(** A Python [dict] keeps its keys in insertion order; an association list
    in that order is the model, with at most one entry per key. *)
Definition dict (V : Type) := list (label * V).

(** [knot_dict[s] = [gauss_subseq, crossings]]. *)
Definition knot_dict := dict (strand * list crossing).

(** [strand_colors_dict[seed] = [seed, ...]]. *)
Definition color_dict := dict (list label).

Definition strand_eq_dec : forall s t : strand, {s = t} + {s <> t} :=
  list_eq_dec Z.eq_dec.

Definition mem (x : label) (l : list label) : bool :=
  if in_dec string_dec x l then true else false.

Fixpoint lookup {V : Type} (k : label) (d : dict V) : option V :=
  match d with
  | [] => None
  | (k', v) :: d' => if string_dec k k' then Some v else lookup k d'
  end.

(** [d[k] = v]: an existing key keeps its place. *)
Fixpoint dict_set {V : Type} (k : label) (v : V) (d : dict V) : dict V :=
  match d with
  | [] => [(k, v)]
  | (k', v') :: d' =>
      if string_dec k k' then (k', v) :: d' else (k', v') :: dict_set k v d'
  end.

Definition keys {V : Type} (d : dict V) : list label := map fst d.

(** ** [process_gauss_code] *)

(** A token is a Python [str], held as its UTF-8 encoding; [int] works on
    its code points. *)

(** The payload of a continuation byte [10xxxxxx]. *)
Definition continuation (c : ascii) : option N :=
  let n := N_of_ascii c in
  if (128 <=? n)%N && (n <? 192)%N then Some (n - 128)%N else None.

(** The code points of a UTF-8 text. Bytes that are not the UTF-8 encoding
    of code points stand for no [str]: [None]. *)
Fixpoint decode_utf8 (s : list ascii) : option (list N) :=
  match s with
  | [] => Some []
  | c :: s1 =>
      let n := N_of_ascii c in
      if (n <? 128)%N then option_map (cons n) (decode_utf8 s1)
      else if (n <? 192)%N then None
      else if (n <? 224)%N then
        match s1 with
        | c1 :: s2 =>
            match continuation c1 with
            | Some a =>
                let v := ((n - 192) * 64 + a)%N in
                if (v <? 128)%N then None
                else option_map (cons v) (decode_utf8 s2)
            | None => None
            end
        | _ => None
        end
      else if (n <? 240)%N then
        match s1 with
        | c1 :: c2 :: s3 =>
            match continuation c1, continuation c2 with
            | Some a, Some b =>
                let v := ((n - 224) * 4096 + a * 64 + b)%N in
                if (v <? 2048)%N || ((55296 <=? v)%N && (v <? 57344)%N) then None
                else option_map (cons v) (decode_utf8 s3)
            | _, _ => None
            end
        | _ => None
        end
      else if (n <? 248)%N then
        match s1 with
        | c1 :: c2 :: c3 :: s4 =>
            match continuation c1, continuation c2, continuation c3 with
            | Some a, Some b, Some c =>
                let v := ((n - 240) * 262144 + a * 4096 + b * 64 + c)%N in
                if (v <? 65536)%N || (1114112 <=? v)%N then None
                else option_map (cons v) (decode_utf8 s4)
            | _, _, _ => None
            end
        | _ => None
        end
      else None
  end.

(** The code points from 128 on that [str.isspace] accepts. *)
Definition unicode_space (n : N) : bool :=
  ((n =? 133) || (n =? 160) || (n =? 5760) ||
   ((8192 <=? n) && (n <=? 8202)) || (n =? 8232) || (n =? 8233) ||
   (n =? 8239) || (n =? 8287) || (n =? 12288))%N.

(** The digit zero of every script with decimal digits, in the Unicode
    database of CPython 3.11; the nine code points after a zero are the
    digits one to nine of its script. *)
Definition decimal_zeros : list N :=
  [1632; 1776; 1984; 2406; 2534; 2662; 2790; 2918; 3046; 3174; 3302; 3430;
   3558; 3664; 3792; 3872; 4160; 4240; 6112; 6160; 6470; 6608; 6784; 6800;
   6992; 7088; 7232; 7248; 42528; 43216; 43264; 43472; 43504; 43600; 44016;
   65296; 66720; 68912; 69734; 69872; 69942; 70096; 70384; 70736; 70864;
   71248; 71360; 71472; 71904; 72016; 72784; 73040; 73120; 92768; 92864;
   93008; 120782; 120792; 120802; 120812; 120822; 123200; 123632; 125264;
   130032]%N.

Definition unicode_decimal (n : N) : option N :=
  match find (fun z => (z <=? n)%N && (n <? z + 10)%N) decimal_zeros with
  | Some z => Some (n - z)%N
  | None => None
  end.

(** What [int] makes of one code point before it reads the literal: a
    code point below 127 is kept, a blank becomes a space and a decimal
    digit its ASCII digit; any other code point spoils the literal. *)
Definition to_ascii (n : N) : option ascii :=
  if (n <? 127)%N then Some (ascii_of_N n)
  else if unicode_space n then Some " "%char
  else option_map (fun k => ascii_of_N (48 + k)) (unicode_decimal n).

Fixpoint transform (cps : list N) : option (list ascii) :=
  match cps with
  | [] => Some []
  | n :: rest =>
      match to_ascii n, transform rest with
      | Some c, Some l => Some (c :: l)
      | _, _ => None
      end
  end.

(** The blanks [int] skips before and after the literal: 9 to 13 and 32.
    The separators 28 to 31 are not among them. *)
Definition is_space (c : ascii) : bool :=
  let n := nat_of_ascii c in ((9 <=? n) && (n <=? 13)) || (n =? 32).

Definition is_digit (c : ascii) : bool :=
  let n := nat_of_ascii c in (48 <=? n) && (n <=? 57).

Definition digit_val (c : ascii) : Z := Z.of_nat (nat_of_ascii c - 48).

Fixpoint lstrip (s : list ascii) : list ascii :=
  match s with
  | c :: s' => if is_space c then lstrip s' else s
  | [] => []
  end.

Definition strip (s : list ascii) : list ascii := rev (lstrip (rev (lstrip s))).

(** Digits of a decimal literal; an underscore may only stand between two
    digits. [after_digit] tells whether the previous character was one. *)
Fixpoint int_digits (acc : Z) (after_digit : bool) (s : list ascii) : option Z :=
  match s with
  | [] => if after_digit then Some acc else None
  | c :: s' =>
      if is_digit c then int_digits (10 * acc + digit_val c) true s'
      else if Ascii.eqb c "_"
           then (if after_digit then int_digits acc false s' else None)
           else None
  end.

(** [sys.get_int_max_str_digits()], as the interpreter starts. *)
Definition max_str_digits : nat := 4300.

(** The literal after the sign: a literal with more digits than the limit
    is refused, leading zeros counted and underscores not. *)
Definition int_literal (ds : list ascii) : outcome Z :=
  match int_digits 0 false ds with
  | Some n =>
      if max_str_digits <? length (filter is_digit ds) then Raise ValueError
      else Return n
  | None => Raise ValueError
  end.

(** The literal [int] reads in ASCII text: blanks around, one optional
    sign, decimal digits. Anything else is a [ValueError]. *)
Definition parse_int (s : list ascii) : outcome Z :=
  match strip s with
  | "-"%char :: ds => n <- int_literal ds ;; Return (- n)%Z
  | "+"%char :: ds => int_literal ds
  | ds => int_literal ds
  end.

(** [int(s)] *)
Definition py_int (s : string) : outcome Z :=
  match decode_utf8 (list_ascii_of_string s) with
  | Some cps =>
      match transform cps with
      | Some text => parse_int text
      | None => Raise ValueError
      end
  | None => Raise ValueError
  end.

(** [s.replace(',', '')] *)
Fixpoint remove_commas (s : string) : string :=
  match s with
  | EmptyString => EmptyString
  | String c s' =>
      if Ascii.eqb c "," then remove_commas s' else String c (remove_commas s')
  end.

Fixpoint process_gauss_code (raw_gauss_code : list string) : outcome (list Z) :=
  match raw_gauss_code with
  | [] => Return []
  | s :: rest =>
      n <- py_int (remove_commas s) ;;
      ns <- process_gauss_code rest ;;
      Return (n :: ns)
  end.

(** ** [find_strands] *)

(** [i = (i + 1) % len(gauss_code)] *)
Definition advance (gauss_code : list Z) (i : nat) : nat :=
  (S i) mod (length gauss_code).

(** [while gauss_code[i] > 0: i = (i + 1) % len(gauss_code)] *)
Fixpoint skip_overs (fuel : nat) (gauss_code : list Z) (i : nat) : outcome nat :=
  match fuel with
  | 0 => OutOfFuel
  | S fuel' =>
      match nth_error gauss_code i with
      | None => Raise IndexError
      | Some v =>
          if (0 <? v)%Z then skip_overs fuel' gauss_code (advance gauss_code i)
          else Return i
      end
  end.

(** The entries from [beginning] to [i], through the end of the list and
    its first [i + 1] entries when [beginning > i]. *)
Definition new_strand (gauss_code : list Z) (beginning i : nat) : strand :=
  if i <? beginning
  then skipn beginning gauss_code ++ firstn (S i) gauss_code
  else firstn (S i - beginning) (skipn beginning gauss_code).

(** The [while True] loop. [strand_set] lists the set's members in the
    order they were added. *)
Fixpoint scan_strands (fuel : nat) (gauss_code : list Z) (i : nat)
  (strand_set : list strand) : outcome (list strand) :=
  match fuel with
  | 0 => OutOfFuel
  | S fuel' =>
      match nth_error gauss_code i with
      | None => Raise IndexError
      | Some v =>
          if (v <? 0)%Z then
            e <- skip_overs fuel' gauss_code (advance gauss_code i) ;;
            let s := new_strand gauss_code i e in
            if in_dec strand_eq_dec s strand_set then Return strand_set
            else scan_strands fuel' gauss_code e (strand_set ++ [s])
          else scan_strands fuel' gauss_code (advance gauss_code i) strand_set
      end
  end.

(** [list(map(chr, range(65, 91)))] *)
Definition letter_list : list label :=
  map (fun n => String (ascii_of_nat n) EmptyString) (seq 65 26).

(** [for i, strand in enumerate(strand_set): strands_dict[letter_list[i]] = [strand, []]] *)
Fixpoint label_strands (i : nat) (strands : list strand) (strands_dict : knot_dict)
  : outcome knot_dict :=
  match strands with
  | [] => Return strands_dict
  | s :: rest =>
      match nth_error letter_list i with
      | None => Raise IndexError
      | Some l => label_strands (S i) rest (dict_set l (s, []) strands_dict)
      end
  end.

Section Pipeline.

(** The order in which Python iterates over a [set] of tuples is fixed by
    the hashes of its members, not by the program. [set_iter] stands for
    it: it receives the members in insertion order and returns them in
    iteration order. *)
Variable set_iter : list strand -> list strand.

Definition find_strands (fuel : nat) (gauss_code : list Z) : outcome knot_dict :=
  strand_set <- scan_strands fuel gauss_code 0 [] ;;
  label_strands 0 (set_iter strand_set) [].

(** ** [find_crossings] *)

(** The locals of the search for the two under-strands. [under1] and
    [under2] are function-level names: unbound ([None]) until their first
    assignment and kept from one crossing to the next. *)
Record unders : Set := mk_unders {
  found1 : bool;
  found2 : bool;
  under1 : option label;
  under2 : option label
}.

Definition unbound : unders := mk_unders false false None None.

(** [for key_inner in knot_dict: ...] for one over-entry [under]. *)
Fixpoint find_unders (under : Z) (entries : knot_dict) (u : unders) : outcome unders :=
  match entries with
  | [] => Return u
  | (key_inner, (t, _)) :: rest =>
      if found1 u && found2 u then Return u
      else
        match t with
        | [] => Raise IndexError
        | first :: _ =>
            let u1 := if (first =? - under)%Z
                      then mk_unders true (found2 u) (Some key_inner) (under2 u)
                      else u in
            let u2 := if (last t 0%Z =? - under)%Z
                      then mk_unders (found1 u1) true (under1 u1) (Some key_inner)
                      else u1 in
            find_unders under rest u2
        end
  end.

(** [for under in knot_dict[key_outer][0]: ...], appending to the crossing
    list [cs] of [key_outer]. *)
Fixpoint over_crossings (knot : knot_dict) (t : strand) (cs : list crossing)
  (u : unders) : outcome (list crossing * unders) :=
  match t with
  | [] => Return (cs, u)
  | under :: t' =>
      if (0 <? under)%Z then
        u' <- find_unders under knot (mk_unders false false (under1 u) (under2 u)) ;;
        match under1 u', under2 u' with
        | Some a, Some b => over_crossings knot t' (cs ++ [(a, b)]) u'
        | _, _ => Raise UnboundLocalError
        end
      else over_crossings knot t' cs u
  end.

(** [for key_outer in knot_dict: ...]. Only crossing lists are written and
    only tuples are read, so the search runs on the dictionary [knot] as it
    was on entry. *)
Fixpoint find_crossings_from (knot : knot_dict) (todo : knot_dict) (u : unders)
  : outcome knot_dict :=
  match todo with
  | [] => Return []
  | (key_outer, (t, cs)) :: rest =>
      ' (cs', u') <- over_crossings knot t cs u ;;
      done <- find_crossings_from knot rest u' ;;
      Return ((key_outer, (t, cs')) :: done)
  end.

Definition find_crossings (knot : knot_dict) : outcome knot_dict :=
  find_crossings_from knot knot unbound.

Definition create_knot_dictionary (fuel : nat) (gauss_code : list Z)
  : outcome knot_dict :=
  strands_dict <- find_strands fuel gauss_code ;;
  find_crossings strands_dict.

End Pipeline.

(** ** [get_seeds] *)

(** [itertools.combinations]: the sublists of length [k], in the order of
    the positions of their members. *)
Fixpoint combinations {A : Type} (l : list A) (k : nat) : list (list A) :=
  match k with
  | 0 => [[]]
  | S k' =>
      match l with
      | [] => []
      | x :: l' => map (cons x) (combinations l' k') ++ combinations l' k
      end
  end.

Definition get_seeds (strands : list label) (length : nat) : list (list label) :=
  combinations strands length.

(** ** [find_color] and [is_colored] *)

Fixpoint find_color (strand : label) (strand_colors_dict : color_dict) : label :=
  match strand_colors_dict with
  | [] => ""
  | (color, part) :: rest =>
      if mem strand part then color else find_color strand rest
  end.

Fixpoint is_colored (strand : label) (strand_colors_dict : color_dict) : bool :=
  match strand_colors_dict with
  | [] => false
  | (_, part) :: rest =>
      if mem strand part then true else is_colored strand rest
  end.

(** ** [maximally_extend] *)

(** The three locals the loop works on. *)
Record coloring : Type := mk_coloring {
  strand_colors_dict : color_dict;
  colored_strands : list label;
  new_coloring : bool
}.

(** [strand_colors_dict[color].append(strand)]; [None] is a [KeyError]. *)
Fixpoint dict_append (color strand : label) (d : color_dict) : option color_dict :=
  match d with
  | [] => None
  | (k, part) :: d' =>
      if string_dec color k then Some ((k, part ++ [strand]) :: d')
      else option_map (cons (k, part)) (dict_append color strand d')
  end.

(** The state before the [while] loop: every seed alone in its own part. *)
Definition seed_coloring (seeds : list label) : coloring :=
  let empty := fold_left (fun d strand => dict_set strand [] d) seeds [] in
  mk_coloring (map (fun e => (fst e, snd e ++ [fst e])) empty) seeds true.

(** [strand] joins the part of [source]. *)
Definition assign (source strand : label) (st : coloring) : outcome coloring :=
  let color := find_color source (strand_colors_dict st) in
  match dict_append color strand (strand_colors_dict st) with
  | None => Raise KeyError
  | Some d => Return (mk_coloring d (colored_strands st ++ [strand]) true)
  end.

(** The body of [for crossing in knot_dict[strand][1]]. *)
Definition color_crossing (c : crossing) (st : coloring) : outcome coloring :=
  let (c0, c1) := c in
  if mem c0 (colored_strands st) && negb (mem c1 (colored_strands st))
  then assign c0 c1 st
  else if negb (mem c0 (colored_strands st)) && mem c1 (colored_strands st)
  then assign c1 c0 st
  else Return st.

Fixpoint visit_crossings (cs : list crossing) (st : coloring) : outcome coloring :=
  match cs with
  | [] => Return st
  | c :: cs' => st' <- color_crossing c st ;; visit_crossings cs' st'
  end.

(** [for strand in strand_colors_dict[seed]]: the list may grow while it is
    walked; [j] is the position of the iterator in it. *)
Fixpoint visit_strands (fuel : nat) (knot : knot_dict) (seed : label) (j : nat)
  (st : coloring) : outcome coloring :=
  match fuel with
  | 0 => OutOfFuel
  | S fuel' =>
      match lookup seed (strand_colors_dict st) with
      | None => Raise KeyError
      | Some part =>
          match nth_error part j with
          | None => Return st
          | Some strand =>
              match lookup strand knot with
              | None => Raise KeyError
              | Some (_, cs) =>
                  st' <- visit_crossings cs st ;;
                  visit_strands fuel' knot seed (S j) st'
              end
          end
      end
  end.

(** [for seed in strand_colors_dict]: the keys do not change. *)
Fixpoint visit_seeds (fuel : nat) (knot : knot_dict) (seeds : list label)
  (st : coloring) : outcome coloring :=
  match seeds with
  | [] => Return st
  | seed :: rest =>
      st' <- visit_strands fuel knot seed 0 st ;;
      visit_seeds fuel knot rest st'
  end.

Definition one_pass (fuel : nat) (knot : knot_dict) (st : coloring) : outcome coloring :=
  visit_seeds fuel knot (keys (strand_colors_dict st))
    (mk_coloring (strand_colors_dict st) (colored_strands st) false).

(** [while new_coloring: ...] *)
Fixpoint extend (fuel : nat) (knot : knot_dict) (st : coloring) : outcome coloring :=
  match fuel with
  | 0 => OutOfFuel
  | S fuel' =>
      if new_coloring st then
        st' <- one_pass fuel' knot st ;;
        extend fuel' knot st'
      else Return st
  end.

Definition maximally_extend (fuel : nat) (seeds : list label) (knot : knot_dict)
  : outcome color_dict :=
  st <- extend fuel knot (seed_coloring seeds) ;;
  Return (strand_colors_dict st).

(** *** The states a trial goes through

    The same loops, keeping the state after every visit of a crossing. *)

Fixpoint trace_crossings (cs : list crossing) (st : coloring) : list coloring :=
  match cs with
  | [] => []
  | c :: cs' =>
      match color_crossing c st with
      | Return st' => st' :: trace_crossings cs' st'
      | _ => []
      end
  end.

Fixpoint trace_strands (fuel : nat) (knot : knot_dict) (seed : label) (j : nat)
  (st : coloring) : list coloring :=
  match fuel with
  | 0 => []
  | S fuel' =>
      match lookup seed (strand_colors_dict st) with
      | None => []
      | Some part =>
          match nth_error part j with
          | None => []
          | Some strand =>
              match lookup strand knot with
              | None => []
              | Some (_, cs) =>
                  trace_crossings cs st ++
                  match visit_crossings cs st with
                  | Return st' => trace_strands fuel' knot seed (S j) st'
                  | _ => []
                  end
              end
          end
      end
  end.

Fixpoint trace_seeds (fuel : nat) (knot : knot_dict) (seeds : list label)
  (st : coloring) : list coloring :=
  match seeds with
  | [] => []
  | seed :: rest =>
      trace_strands fuel knot seed 0 st ++
      match visit_strands fuel knot seed 0 st with
      | Return st' => trace_seeds fuel knot rest st'
      | _ => []
      end
  end.

Definition trace_pass (fuel : nat) (knot : knot_dict) (st : coloring) : list coloring :=
  trace_seeds fuel knot (keys (strand_colors_dict st))
    (mk_coloring (strand_colors_dict st) (colored_strands st) false).

Fixpoint trace_extend (fuel : nat) (knot : knot_dict) (st : coloring) : list coloring :=
  match fuel with
  | 0 => []
  | S fuel' =>
      if new_coloring st then
        trace_pass fuel' knot st ++
        match one_pass fuel' knot st with
        | Return st' => trace_extend fuel' knot st'
        | _ => []
        end
      else []
  end.

(** The partition before the loop and after every visit of a crossing. *)
Definition maximally_extend_trace (fuel : nat) (seeds : list label) (knot : knot_dict)
  : list color_dict :=
  map strand_colors_dict
    (seed_coloring seeds :: trace_extend fuel knot (seed_coloring seeds)).

(** ** [count_multicolored_crossings] *)

(** The test of the two nested [if]s on one crossing. *)
Definition multicolored (d : color_dict) (c : crossing) : outcome bool :=
  if is_colored (fst c) d && is_colored (snd c) d then
    match lookup (find_color (fst c) d) d with
    | None => Raise KeyError
    | Some part => Return (negb (mem (snd c) part))
    end
  else Return false.

Fixpoint count_crossings (d : color_dict) (cs : list crossing) (n : nat) : outcome nat :=
  match cs with
  | [] => Return n
  | c :: cs' =>
      b <- multicolored d c ;;
      count_crossings d cs' (if b then S n else n)
  end.

Fixpoint count_strands (d : color_dict) (knot : knot_dict) (part : list label)
  (n : nat) : outcome nat :=
  match part with
  | [] => Return n
  | strand :: rest =>
      match lookup strand knot with
      | None => Raise KeyError
      | Some (_, cs) =>
          n' <- count_crossings d cs n ;;
          count_strands d knot rest n'
      end
  end.

Fixpoint count_colors (d : color_dict) (knot : knot_dict) (parts : color_dict)
  (n : nat) : outcome nat :=
  match parts with
  | [] => Return n
  | (_, part) :: rest =>
      n' <- count_strands d knot part n ;;
      count_colors d knot rest n'
  end.

Definition count_multicolored_crossings (d : color_dict) (knot : knot_dict)
  : outcome nat :=
  count_colors d knot d 0.

(** ** [calc] *)

(** The list [colored_set] built by the two nested loops. *)
Definition colored_set (d : color_dict) : list label := concat (map snd d).

(** [set(a) == set(b)] *)
Definition set_eqb (a b : list label) : bool :=
  forallb (fun x => mem x b) a && forallb (fun x => mem x a) b.

(** [for potential_seed in strands: ...]; [true] stands for [return '28']. *)
Fixpoint try_extensions (fuel : nat) (knot : knot_dict) (strands seeds colored : list label)
  (candidates : list label) : outcome bool :=
  match candidates with
  | [] => Return false
  | potential_seed :: rest =>
      if mem potential_seed colored
      then try_extensions fuel knot strands seeds colored rest
      else
        d <- maximally_extend fuel (seeds ++ [potential_seed]) knot ;;
        if set_eqb (colored_set d) strands then Return true
        else try_extensions fuel knot strands seeds colored rest
  end.

(** [for seeds in seeds_set: ...] *)
Fixpoint search (fuel : nat) (knot : knot_dict) (strands : list label)
  (seeds_set : list (list label)) : outcome string :=
  match seeds_set with
  | [] => Return "32"
  | seeds :: rest =>
      d <- maximally_extend fuel seeds knot ;;
      n <- count_multicolored_crossings d knot ;;
      if 0 <? n then
        found <- try_extensions fuel knot strands seeds (colored_set d) strands ;;
        if found then Return "28" else search fuel knot strands rest
      else search fuel knot strands rest
  end.

Section Calc.

Variable set_iter : list strand -> list strand.

Definition calc (fuel : nat) (raw_gauss_code : list string) : outcome string :=
  gauss_code <- process_gauss_code raw_gauss_code ;;
  knot_dict <- create_knot_dictionary set_iter fuel gauss_code ;;
  let strands := keys knot_dict in
  search fuel knot_dict strands (get_seeds strands 3).

End Calc.

(** The set order of CPython left aside: members come out as they went in. *)
Definition insertion_order (l : list strand) : list strand := l.

(** ** Vocabulary of the statements *)

Definition tuple_of (e : label * (strand * list crossing)) : strand := fst (snd e).

Definition crossings_of (e : label * (strand * list crossing)) : list crossing :=
  snd (snd e).

(** The first over-entry [find_crossings] meets: tuples in dictionary
    order, entries in tuple order. *)
Definition first_over (knot : knot_dict) : option Z :=
  find (fun v => (0 <? v)%Z) (concat (map tuple_of knot)).

(** The Gauss code [-1, 1, -2, 2, ..., -n, n]. *)
Definition kinks (n : nat) : list Z :=
  flat_map (fun k => [- Z.of_nat k; Z.of_nat k]%Z) (seq 1 n).

(** All the orders a set of the given members can be iterated in. *)
Fixpoint insert_all {A : Type} (x : A) (l : list A) : list (list A) :=
  match l with
  | [] => [[x]]
  | y :: l' => (x :: l) :: map (cons y) (insert_all x l')
  end.

Fixpoint perms {A : Type} (l : list A) : list (list A) :=
  match l with
  | [] => [[]]
  | x :: l' => flat_map (insert_all x) (perms l')
  end.

(** The trefoil of the scenario, as integers and as tokens. *)
Definition trefoil : list Z := [-1; 2; -3; 1; -2; 3]%Z.

Definition trefoil_tokens : list string := ["-1"; "2"; "-3"; "1"; "-2"; "3"].

(** A crossing whose two under-strands are coloured and lie in different
    parts. *)
Definition conflict (d : color_dict) (c : crossing) : bool :=
  is_colored (fst c) d && is_colored (snd c) d &&
  negb (String.eqb (find_color (fst c) d) (find_color (snd c) d)).

Definition all_crossings (knot : knot_dict) : list crossing :=
  concat (map crossings_of knot).

(** The count as the specification words it: over every crossing of the
    diagram, whether or not its over-strand is coloured. *)
Definition conflicts_in_diagram (d : color_dict) (knot : knot_dict) : nat :=
  length (filter (conflict d) (all_crossings knot)).

(** The crossings [strand] passes over. *)
Definition crossings_under (knot : knot_dict) (strand : label) : list crossing :=
  match lookup strand knot with
  | Some (_, cs) => cs
  | None => []
  end.

(** The count over the crossings of the coloured strands only. *)
Definition conflicts_under_colored (d : color_dict) (knot : knot_dict) : nat :=
  length (filter (conflict d) (flat_map (crossings_under knot) (colored_set d))).

(** A code whose fourth strand passes over all four crossings. *)
Definition four_overs : list Z := [-1; -2; -3; -4; 1; 2; 3; 4]%Z.

Definition four_overs_knot : knot_dict :=
  [("A", ([-1; -2]%Z, []));
   ("B", ([-2; -3]%Z, []));
   ("C", ([-3; -4]%Z, []));
   ("D", ([-4; 1; 2; 3; 4; -1]%Z, [("A", "D"); ("B", "A"); ("C", "B"); ("D", "C")]))].

Definition three_seeds : color_dict := [("A", ["A"]); ("B", ["B"]); ("C", ["C"])].

(** ** Vocabulary of the propagation *)

(** Every strand named in a crossing is a strand of the diagram. *)
Definition closed (knot : knot_dict) : Prop :=
  forall c, In c (all_crossings knot) ->
    In (fst c) (keys knot) /\ In (snd c) (keys knot).

(** The strands the propagation rule can colour from the seeds, in any
    order of visits: a crossing under a coloured over-strand passes the
    colouring from one of its under-strands to the other. *)
Inductive reach (knot : knot_dict) (seeds : list label) : label -> Prop :=
| reach_seed (s : label) : In s seeds -> reach knot seeds s
| reach_snd (s : label) (c : crossing) :
    reach knot seeds s -> In c (crossings_under knot s) ->
    reach knot seeds (fst c) -> reach knot seeds (snd c)
| reach_fst (s : label) (c : crossing) :
    reach knot seeds s -> In c (crossings_under knot s) ->
    reach knot seeds (snd c) -> reach knot seeds (fst c).

(** [d'] has the keys of [d], each part possibly longer at its end. *)
Definition grows (d d' : color_dict) : Prop :=
  Forall2 (fun e e' => fst e' = fst e /\ exists more, snd e' = snd e ++ more) d d'.

Definition size (st : coloring) : nat :=
  length (colored_set (strand_colors_dict st)).

Definition part_of (seed : label) (d : color_dict) : list label :=
  match lookup seed d with
  | Some part => part
  | None => []
  end.

(** What the loop keeps true of its locals. *)
Record consistent (knot : knot_dict) (seeds : list label) (st : coloring) : Prop :=
  mk_consistent {
  unique_keys : NoDup (keys (strand_colors_dict st));
  disjoint_parts : NoDup (colored_set (strand_colors_dict st));
  same_colored : forall x,
    In x (colored_strands st) <-> In x (colored_set (strand_colors_dict st));
  colored_strands_known : incl (colored_set (strand_colors_dict st)) (keys knot);
  colored_reached : forall x,
    In x (colored_set (strand_colors_dict st)) -> reach knot seeds x
}.

(** From [st] to [st']: nothing at all has changed, or a strand was
    coloured and the flag raised. *)
Definition progress (st st' : coloring) : Prop :=
  grows (strand_colors_dict st) (strand_colors_dict st') /\
  (st' = st \/ (new_coloring st' = true /\ size st < size st')).

(** Both under-strands of [c] coloured, or neither. *)
Definition quiet (d : color_dict) (c : crossing) : Prop :=
  In (fst c) (colored_set d) <-> In (snd c) (colored_set d).

(** A fixed point of the propagation rule. *)
Definition fixed (knot : knot_dict) (d : color_dict) : Prop :=
  forall s c, In s (colored_set d) -> In c (crossings_under knot s) -> quiet d c.

(** The same diagram with the crossings of every strand listed in
    another order. *)
Definition reordered (knot knot' : knot_dict) : Prop :=
  Forall2 (fun e e' => fst e' = fst e /\ tuple_of e' = tuple_of e /\
                       Permutation (crossings_of e) (crossings_of e'))
    knot knot'.

Definition reverse_crossings (knot : knot_dict) : knot_dict :=
  map (fun e => (fst e, (tuple_of e, rev (crossings_of e)))) knot.

(** A code with two strands that pass over two crossings each. *)
Definition two_over_two : list Z := [-1; 2; 3; -2; -3; 4; 1; -4]%Z.

Definition two_over_two_knot : knot_dict :=
  [("A", ([-1; 2; 3; -2]%Z, [("B", "A"); ("C", "B")]));
   ("B", ([-2; -3]%Z, []));
   ("C", ([-3; 4; 1; -4]%Z, [("D", "C"); ("A", "D")]));
   ("D", ([-4; -1]%Z, []))].

(** A stretch of a trial from the partition [d] to the partition [d']:
    every state in it is consistent, lies between [d] and [d'], and later
    states grow out of earlier ones; the last one holds [d']. *)
Definition ordered_trace (knot : knot_dict) (seeds : list label)
  (d d' : color_dict) (tr : list coloring) : Prop :=
  grows d d' /\
  Forall (fun x => consistent knot seeds x /\
                   grows d (strand_colors_dict x) /\
                   grows (strand_colors_dict x) d') tr /\
  ForallOrdPairs (fun a b => grows (strand_colors_dict a) (strand_colors_dict b)) tr /\
  last (map strand_colors_dict tr) d = d'.

(** ** Vocabulary of the strand scan *)

(** The code has an under-pass. *)
Definition has_under (g : list Z) : Prop := exists v, In v g /\ (v < 0)%Z.

(** The strand the scan cuts when it stands on position [b]. *)
Definition strand_at (g : list Z) (b : nat) : strand :=
  match skip_overs (S (length g)) g (advance g b) with
  | Return e => new_strand g b e
  | _ => []
  end.

(** The positions whose strand is not in the set yet. *)
Definition remaining (g : list Z) (strand_set : list strand) : nat :=
  length (filter (fun b => if in_dec strand_eq_dec (strand_at g b) strand_set
                           then false else true)
            (seq 0 (length g))).

(** A Gauss code in which every crossing has one under-pass and one
    over-pass: no entry is zero, no entry occurs twice, and the negation
    of every entry occurs. *)
Definition valid (g : list Z) : Prop :=
  NoDup g /\ forall v, In v g -> v <> 0%Z /\ In (- v)%Z g.

Definition under_passes (g : list Z) : list Z := filter (fun v => (v <? 0)%Z) g.

(** An under-pass and the over-passes that follow it. *)
Abbreviation block := (Z * list Z)%type (only parsing).

Definition flat (bl : list block) : list Z :=
  flat_map (fun b => fst b :: snd b) bl.

(** The over-passes before the first under-pass, and the blocks. *)
Fixpoint split_blocks (g : list Z) : list Z * list block :=
  match g with
  | [] => ([], [])
  | v :: g' =>
      let (head, bl) := split_blocks g' in
      if (v <? 0)%Z then ([], (v, head) :: bl) else (v :: head, bl)
  end.

(** The strands of a run of blocks: each block with the under-pass of the
    next one, the last block with [closing]. *)
Fixpoint strands_from (bl : list block) (closing : list Z) : list strand :=
  match bl with
  | [] => []
  | (x, m) :: rest =>
      match rest with
      | [] => [x :: m ++ closing]
      | (x', _) :: _ => (x :: m ++ [x']) :: strands_from rest closing
      end
  end.

(** The strands of a code in the order the scan finds them. *)
Definition cut_strands (g : list Z) : list strand :=
  let (head, bl) := split_blocks g in
  strands_from bl (head ++ [hd 0%Z (map fst bl)]).

Definition well_formed_blocks (bl : list block) : Prop :=
  Forall (fun b => (fst b < 0)%Z /\
                   forallb (fun v => (0 <? v)%Z) (snd b) = true) bl.

(** The labels of the strands whose tuple starts, or ends, with an
    under-pass. *)
Definition under_starting (d : knot_dict) : list label :=
  map fst (filter (fun e => (hd 0 (tuple_of e) <? 0)%Z) d).

Definition under_ending (d : knot_dict) : list label :=
  map fst (filter (fun e => (last (tuple_of e) 0 <? 0)%Z) d).

(** [valid], as a test. *)
Fixpoint nodupb (l : list Z) : bool :=
  match l with
  | [] => true
  | x :: l' => negb (existsb (Z.eqb x) l') && nodupb l'
  end.

Definition validb (g : list Z) : bool :=
  nodupb g &&
  forallb (fun v => negb (v =? 0)%Z && existsb (Z.eqb (- v)) g) g.

(** The dictionary [find_strands] builds from the strands in iteration
    order. *)
Definition labelled (strands : list strand) : knot_dict :=
  map (fun p => (fst p, (snd p, []))) (combine letter_list strands).

(** The code of one kink: a single crossing. *)
Definition one_kink : list Z := [-1; 1]%Z.

(** ** Vocabulary of the search *)

(** Every over-entry of every strand has a strand that starts with its
    negation and a strand that ends with it. *)
Definition resolvable (knot : knot_dict) : Prop :=
  forall e v, In e knot -> In v (tuple_of e) -> (0 < v)%Z ->
    (exists e1, In e1 knot /\ hd 0%Z (tuple_of e1) = (- v)%Z) /\
    (exists e2, In e2 knot /\ last (tuple_of e2) 0%Z = (- v)%Z).

(** The crossings in [cs] name strands among [K]. *)
Definition names_in (K : list label) (cs : list crossing) : Prop :=
  forall c, In c cs -> In (fst c) K /\ In (snd c) K.

(** What the search has found when a flag is up. *)
Definition bound1 (K : list label) (u : unders) : Prop :=
  found1 u = true -> exists k, under1 u = Some k /\ In k K.

Definition bound2 (K : list label) (u : unders) : Prop :=
  found2 u = true -> exists k, under2 u = Some k /\ In k K.

(** Whatever [under1] and [under2] are bound to is a strand among [K]. *)
Definition known (K : list label) (u : unders) : Prop :=
  (forall k, under1 u = Some k -> In k K) /\
  (forall k, under2 u = Some k -> In k K).

(** The test [calc] makes on one seed triple: the propagation ends with a
    multicoloured crossing, and one more seed outside the coloured strands
    colours every strand of the diagram. *)
Definition extends_to_all (fuel : nat) (knot : knot_dict) (seeds : list label) : Prop :=
  exists d n,
    maximally_extend fuel seeds knot = Return d /\
    count_multicolored_crossings d knot = Return n /\ 0 < n /\
    exists p d',
      In p (keys knot) /\ ~ In p (colored_set d) /\
      maximally_extend fuel (seeds ++ [p]) knot = Return d' /\
      forall x, In x (colored_set d') <-> In x (keys knot).

(** Tokens of the code [kinks n], for numbers below 100. *)
Definition decimal (k : nat) : string :=
  if k <? 10 then String (ascii_of_nat (48 + k)) EmptyString
  else String (ascii_of_nat (48 + k / 10))
         (String (ascii_of_nat (48 + k mod 10)) EmptyString).

Definition kinks_tokens (n : nat) : list string :=
  flat_map (fun k => [String "-" (decimal k); decimal k]) (seq 1 n).

(** A code of five crossings on which the search succeeds. *)
Definition five_crossings : list Z := [-1; 3; -2; 1; -3; 5; -4; 2; -5; 4]%Z.

Definition five_crossings_tokens : list string :=
  ["-1"; "3"; "-2"; "1"; "-3"; "5"; "-4"; "2"; "-5"; "4"].

(** ** Vocabulary of the seed tuples *)

(** [c] keeps some of the members of [l], in their order. *)
Inductive sublist {A : Type} : list A -> list A -> Prop :=
| sublist_nil : sublist [] []
| sublist_skip (x : A) (c l : list A) : sublist c l -> sublist c (x :: l)
| sublist_take (x : A) (c l : list A) : sublist c l -> sublist (x :: c) (x :: l).

(** ** Vocabulary of a trial on any diagram *)

(** What the loop of [maximally_extend] keeps true of its locals on any
    diagram, closed or not. *)
Record coherent (knot : knot_dict) (seeds : list label) (st : coloring) : Prop :=
  mk_coherent {
  coherent_keys : NoDup (keys (strand_colors_dict st));
  coherent_parts : NoDup (colored_set (strand_colors_dict st));
  coherent_colored : forall x,
    In x (colored_strands st) <-> In x (colored_set (strand_colors_dict st));
  coherent_reached : forall x,
    In x (colored_set (strand_colors_dict st)) -> reach knot seeds x
}.

(** From [st] to [st'] with the flag never lowered: nothing has changed,
    or the flag is up. *)
Definition step (st st' : coloring) : Prop :=
  grows (strand_colors_dict st) (strand_colors_dict st') /\
  (new_coloring st = true -> new_coloring st' = true) /\
  (st' = st \/ new_coloring st' = true).

(** ** Vocabulary of the strands of any code *)

(** The shape of a strand tuple: an under-pass, then over-passes up to an
    entry that is not an over-pass; or the under-pass alone, when the walk
    came back to it. *)
Definition strand_shaped (s : strand) : Prop :=
  exists x mid,
    (x < 0)%Z /\ forallb (fun v => (0 <? v)%Z) mid = true /\
    (s = [x] \/ exists y, (y <= 0)%Z /\ s = x :: mid ++ [y]).

(** The positions of the under-passes of a code. *)
Definition under_positions (g : list Z) : list nat :=
  filter (fun b => (nth b g 0 <? 0)%Z) (seq 0 (length g)).

(** ** Vocabulary of the crossings *)

Definition over_passes (t : list Z) : list Z := filter (fun v => (0 <? v)%Z) t.

(** The first strand of the diagram whose tuple starts, or ends, with the
    under-pass of crossing [v]. *)
Definition under_start (knot : knot_dict) (v : Z) : label :=
  match find (fun e => (hd 0 (tuple_of e) =? - v)%Z) knot with
  | Some e => fst e
  | None => ""
  end.

Definition under_end (knot : knot_dict) (v : Z) : label :=
  match find (fun e => (last (tuple_of e) 0 =? - v)%Z) knot with
  | Some e => fst e
  | None => ""
  end.

(** The crossings a strand passes over, read off its tuple. *)
Definition crossings_along (knot : knot_dict) (t : strand) : list crossing :=
  map (fun v => (under_start knot v, under_end knot v)) (over_passes t).

(** [knot] with the crossings of every strand appended to its list. *)
Definition with_crossings (knot : knot_dict) : knot_dict :=
  map (fun e => (fst e, (tuple_of e, crossings_of e ++ crossings_along knot (tuple_of e))))
      knot.

(** No two strands start with the same entry, and no two end with the
    same entry. *)
Definition distinct_ends (knot : knot_dict) : Prop :=
  NoDup (map (fun e => hd 0%Z (tuple_of e)) knot) /\
  NoDup (map (fun e => last (tuple_of e) 0%Z) knot).

(** What [find_crossings] does to one strand of the diagram. *)
Definition gains_crossings (K : list label)
  (e e' : label * (strand * list crossing)) : Prop :=
  fst e' = fst e /\ tuple_of e' = tuple_of e /\
  exists new,
    crossings_of e' = crossings_of e ++ new /\
    length new = length (over_passes (tuple_of e)) /\
    names_in K new.

(** ** Vocabulary of the tokens *)

(** The decimal spelling of an integer: a minus sign for a negative
    number, then its digits without leading zeros. *)
Definition token_of (z : Z) : string :=
  DecimalString.NilZero.string_of_int (Z.to_int z).

Definition digits_of (d : Decimal.uint) : list ascii :=
  list_ascii_of_string (DecimalString.NilEmpty.string_of_uint d).

(** ** Vocabulary of the strand chain *)

(** A tuple that runs from an under-pass over over-passes to an
    under-pass. *)
Definition under_to_under (s : strand) : Prop :=
  exists x mid y,
    s = x :: mid ++ [y] /\ (x < 0)%Z /\ (y < 0)%Z /\
    forallb (fun v => (0 <? v)%Z) mid = true.

(** The entries of [l] from its second on, then its first: what follows
    each entry on the circle. *)
Definition next_around (l : list Z) : list Z := tl l ++ [hd 0%Z l].

(** ** Vocabulary of the first success *)

(** One more seed [p] colours every strand of the diagram. *)
Definition completes (fuel : nat) (knot : knot_dict) (seeds : list label)
  (p : label) : Prop :=
  exists d',
    maximally_extend fuel (seeds ++ [p]) knot = Return d' /\
    forall x, In x (colored_set d') <-> In x (keys knot).

(** The test on one seed triple as the specification words it, with the
    conflicts counted over every crossing of the diagram. *)
Definition extends_to_all_as_specified (fuel : nat) (knot : knot_dict)
  (seeds : list label) : Prop :=
  exists d,
    maximally_extend fuel seeds knot = Return d /\
    0 < conflicts_in_diagram d knot /\
    exists p, In p (keys knot) /\ ~ In p (colored_set d) /\ completes fuel knot seeds p.

Definition four_overs_tokens : list string :=
  ["-1"; "-2"; "-3"; "-4"; "1"; "2"; "3"; "4"].

(** * Properties *)

(** [lia] compares terms up to syntax: the type abbreviations are unfolded
    before it is called on lengths of lists of labels or crossings. *)
Ltac plain_types := unfold crossing, label, strand in *.

(** ** Outcomes *)

Lemma bind_Return {A B : Type} (m : outcome A) (k : A -> outcome B) (b : B) :
  bind m k = Return b -> exists a, m = Return a /\ k a = Return b.
Proof.
  destruct m as [a| |]; simpl; intros H; try discriminate.
  exists a. split; [reflexivity | exact H].
Qed.

Lemma stable_refl {A : Type} (m : outcome A) : stable m m.
Proof. intros _. reflexivity. Qed.

Lemma stable_bind {A B : Type} (m m' : outcome A) (k k' : A -> outcome B) :
  stable m m' -> (forall a, stable (k a) (k' a)) ->
  stable (bind m k) (bind m' k').
Proof.
  intros Hm Hk H. destruct m as [a| |]; simpl in *.
  - rewrite (Hm ltac:(discriminate)). simpl. apply Hk. exact H.
  - rewrite (Hm ltac:(discriminate)). reflexivity.
  - contradiction.
Qed.

Lemma stable_Return {A : Type} (m m' : outcome A) (a : A) :
  stable m m' -> m = Return a -> m' = Return a.
Proof. intros H E. rewrite <- E. apply H. rewrite E. discriminate. Qed.

(** ** More fuel never changes a settled outcome *)

Lemma skip_overs_stable (g : list Z) (fuel fuel' : nat) :
  fuel <= fuel' -> forall i, stable (skip_overs fuel g i) (skip_overs fuel' g i).
Proof.
  revert fuel'. induction fuel as [|fuel IH]; intros fuel' Hle i.
  - intros H. contradiction H. reflexivity.
  - destruct fuel' as [|fuel']; [lia|]. simpl.
    destruct (nth_error g i) as [v|]; [|apply stable_refl].
    destruct (0 <? v)%Z; [|apply stable_refl].
    apply IH. lia.
Qed.

Lemma scan_strands_stable (g : list Z) (fuel fuel' : nat) :
  fuel <= fuel' ->
  forall i set, stable (scan_strands fuel g i set) (scan_strands fuel' g i set).
Proof.
  revert fuel'. induction fuel as [|fuel IH]; intros fuel' Hle i set.
  - intros H. contradiction H. reflexivity.
  - destruct fuel' as [|fuel']; [lia|]. simpl.
    destruct (nth_error g i) as [v|]; [|apply stable_refl].
    destruct (v <? 0)%Z.
    + apply stable_bind.
      * apply skip_overs_stable. lia.
      * intros e. destruct (in_dec strand_eq_dec _ set); [apply stable_refl|].
        apply IH. lia.
    + apply IH. lia.
Qed.

Lemma find_strands_stable set_iter (g : list Z) (fuel fuel' : nat) :
  fuel <= fuel' ->
  stable (find_strands set_iter fuel g) (find_strands set_iter fuel' g).
Proof.
  intros Hle. unfold find_strands. apply stable_bind.
  - apply scan_strands_stable. exact Hle.
  - intros a. apply stable_refl.
Qed.

Lemma create_knot_dictionary_stable set_iter (g : list Z) (fuel fuel' : nat) :
  fuel <= fuel' ->
  stable (create_knot_dictionary set_iter fuel g)
         (create_knot_dictionary set_iter fuel' g).
Proof.
  intros Hle. unfold create_knot_dictionary. apply stable_bind.
  - apply find_strands_stable. exact Hle.
  - intros a. apply stable_refl.
Qed.

Lemma visit_strands_stable (knot : knot_dict) (seed : label) (fuel fuel' : nat) :
  fuel <= fuel' ->
  forall j st, stable (visit_strands fuel knot seed j st)
                      (visit_strands fuel' knot seed j st).
Proof.
  revert fuel'. induction fuel as [|fuel IH]; intros fuel' Hle j st.
  - intros H. contradiction H. reflexivity.
  - destruct fuel' as [|fuel']; [lia|]. simpl.
    destruct (lookup seed (strand_colors_dict st)) as [part|]; [|apply stable_refl].
    destruct (nth_error part j) as [strand|]; [|apply stable_refl].
    destruct (lookup strand knot) as [[t cs]|]; [|apply stable_refl].
    apply stable_bind; [apply stable_refl|].
    intros st'. apply IH. lia.
Qed.

Lemma visit_seeds_stable (knot : knot_dict) (fuel fuel' : nat) :
  fuel <= fuel' ->
  forall seeds st, stable (visit_seeds fuel knot seeds st)
                          (visit_seeds fuel' knot seeds st).
Proof.
  intros Hle seeds. induction seeds as [|seed rest IH]; intros st; simpl.
  - apply stable_refl.
  - apply stable_bind; [apply visit_strands_stable; exact Hle | exact IH].
Qed.

Lemma extend_stable (knot : knot_dict) (fuel fuel' : nat) :
  fuel <= fuel' ->
  forall st, stable (extend fuel knot st) (extend fuel' knot st).
Proof.
  revert fuel'. induction fuel as [|fuel IH]; intros fuel' Hle st.
  - intros H. contradiction H. reflexivity.
  - destruct fuel' as [|fuel']; [lia|]. simpl.
    destruct (new_coloring st); [|apply stable_refl].
    apply stable_bind.
    + apply visit_seeds_stable. lia.
    + intros st'. apply IH. lia.
Qed.

Lemma maximally_extend_stable (knot : knot_dict) (seeds : list label)
  (fuel fuel' : nat) :
  fuel <= fuel' ->
  stable (maximally_extend fuel seeds knot) (maximally_extend fuel' seeds knot).
Proof.
  intros Hle. unfold maximally_extend. apply stable_bind.
  - apply extend_stable. exact Hle.
  - intros st. apply stable_refl.
Qed.

Lemma try_extensions_stable (knot : knot_dict) (strands seeds colored : list label)
  (fuel fuel' : nat) :
  fuel <= fuel' ->
  forall candidates,
    stable (try_extensions fuel knot strands seeds colored candidates)
           (try_extensions fuel' knot strands seeds colored candidates).
Proof.
  intros Hle candidates. induction candidates as [|p rest IH]; simpl.
  - apply stable_refl.
  - destruct (mem p colored); [exact IH|].
    apply stable_bind; [apply maximally_extend_stable; exact Hle|].
    intros d. destruct (set_eqb (colored_set d) strands); [apply stable_refl | exact IH].
Qed.

Lemma search_stable (knot : knot_dict) (strands : list label) (fuel fuel' : nat) :
  fuel <= fuel' ->
  forall seeds_set,
    stable (search fuel knot strands seeds_set) (search fuel' knot strands seeds_set).
Proof.
  intros Hle seeds_set. induction seeds_set as [|seeds rest IH]; simpl.
  - apply stable_refl.
  - apply stable_bind; [apply maximally_extend_stable; exact Hle|].
    intros d. apply stable_bind; [apply stable_refl|].
    intros n. destruct (0 <? n); [|exact IH].
    apply stable_bind; [apply try_extensions_stable; exact Hle|].
    intros found. destruct found; [apply stable_refl | exact IH].
Qed.

Lemma calc_stable set_iter (raw : list string) (fuel fuel' : nat) :
  fuel <= fuel' -> stable (calc set_iter fuel raw) (calc set_iter fuel' raw).
Proof.
  intros Hle. unfold calc. apply stable_bind; [apply stable_refl|].
  intros g. apply stable_bind; [apply create_knot_dictionary_stable; exact Hle|].
  intros knot. apply search_stable. exact Hle.
Qed.

(** ** Iteration orders of a set *)

Lemma insert_all_In {A : Type} (x : A) (l1 l2 : list A) :
  In (l1 ++ x :: l2) (insert_all x (l1 ++ l2)).
Proof.
  induction l1 as [|y l1 IH]; simpl.
  - destruct l2; simpl; left; reflexivity.
  - right. apply in_map. exact IH.
Qed.

Lemma perms_complete {A : Type} (l : list A) :
  forall l', Permutation l l' -> In l' (perms l).
Proof.
  induction l as [|x l IH]; intros l' Hp.
  - apply Permutation_nil in Hp. subst. left. reflexivity.
  - assert (Hin : In x l') by (apply (Permutation_in _ Hp); left; reflexivity).
    apply in_split in Hin. destruct Hin as [l1 [l2 ->]].
    apply Permutation_cons_app_inv in Hp.
    simpl. apply in_flat_map. exists (l1 ++ l2). split.
    + apply IH. exact Hp.
    + apply insert_all_In.
Qed.

(** ** Seed triples of a small diagram *)

Lemma combinations_short {A : Type} (l : list A) :
  forall k, length l < k -> combinations l k = [].
Proof.
  induction l as [|x l IH]; intros k Hk; destruct k as [|k]; simpl in *; try lia.
  - reflexivity.
  - rewrite (IH k) by lia. rewrite (IH (S k)) by lia. reflexivity.
Qed.

(** C4, as the code has it: with fewer than three strands there is no seed
    triple, the search loop runs zero times and [calc] returns ["32"]. *)
Theorem calc_few_strands (set_iter : list strand -> list strand) (fuel : nat)
  (raw : list string) (g : list Z) (knot : knot_dict) :
  process_gauss_code raw = Return g ->
  create_knot_dictionary set_iter fuel g = Return knot ->
  length knot < 3 ->
  calc set_iter fuel raw = Return "32".
Proof.
  intros Hraw Hknot Hlen. unfold calc. rewrite Hraw. simpl. rewrite Hknot. simpl.
  unfold get_seeds. rewrite combinations_short.
  - reflexivity.
  - unfold keys. rewrite length_map. exact Hlen.
Qed.

Lemma calc_few_strands_witness :
  calc insertion_order 10 ["-1"; "2"; "-2"; "1"] = Return "32".
Proof.
  apply (calc_few_strands insertion_order 10 ["-1"; "2"; "-2"; "1"]
           [-1; 2; -2; 1]%Z
           [("A", ([-1; 2; -2]%Z, [("B", "A")]));
            ("B", ([-2; 1; -1]%Z, [("A", "B")]))]).
  - reflexivity.
  - reflexivity.
  - simpl. lia.
Defined.

(** C4 as stated fails: the two-strand diagram of [-1, 2, -2, 1] is built
    without an error and [calc] returns a bound for it. *)
Lemma calc_two_strands_returns :
  exists knot,
    create_knot_dictionary insertion_order 10 [-1; 2; -2; 1]%Z = Return knot /\
    length knot = 2 /\
    calc insertion_order 10 ["-1"; "2"; "-2"; "1"] = Return "32".
Proof.
  eexists. split; [reflexivity|]. split; reflexivity.
Qed.

(** ** Crossing resolution without a match *)

Lemma find_app_split {A : Type} (f : A -> bool) (l1 l2 : list A) :
  find f (l1 ++ l2) =
  match find f l1 with Some x => Some x | None => find f l2 end.
Proof.
  induction l1 as [|x l1 IH]; simpl; [reflexivity|].
  destruct (f x); [reflexivity | exact IH].
Qed.

(** The search over the strands raises nothing on non-empty tuples, keeps
    [under1] when no tuple starts with [-under] and keeps [under2] when no
    tuple ends with it. *)
Lemma find_unders_keeps (under : Z) (entries : knot_dict) :
  Forall (fun e => tuple_of e <> []) entries ->
  forall u, exists u',
    find_unders under entries u = Return u' /\
    ((forall e, In e entries -> hd 0%Z (tuple_of e) <> (- under)%Z) ->
     under1 u' = under1 u) /\
    ((forall e, In e entries -> last (tuple_of e) 0%Z <> (- under)%Z) ->
     under2 u' = under2 u).
Proof.
  induction 1 as [|[k [t cs]] entries Ht _ IH]; intros u; simpl.
  - exists u. repeat split; reflexivity.
  - destruct (found1 u && found2 u).
    + exists u. repeat split; reflexivity.
    + unfold tuple_of in Ht. simpl in Ht.
      destruct t as [|first t']; [contradiction Ht; reflexivity|].
      match goal with |- context [find_unders under entries ?x] =>
        destruct (IH x) as [u' [Hu' [H1 H2]]] end.
      exists u'. split; [exact Hu'|]. split.
      * intros Hno. rewrite H1 by (intros e He; apply Hno; right; exact He).
        specialize (Hno (k, (first :: t', cs)) (or_introl eq_refl)).
        unfold tuple_of in Hno. simpl in Hno.
        apply Z.eqb_neq in Hno. rewrite Hno.
        destruct (_ =? _)%Z; reflexivity.
      * intros Hno. rewrite H2 by (intros e He; apply Hno; right; exact He).
        specialize (Hno (k, (first :: t', cs)) (or_introl eq_refl)).
        unfold tuple_of in Hno. cbn [fst snd] in Hno.
        apply Z.eqb_neq in Hno. rewrite Hno.
        destruct (first =? - under)%Z; reflexivity.
Qed.

Lemma over_crossings_no_over (knot : knot_dict) (t : strand) :
  find (fun v => (0 <? v)%Z) t = None ->
  forall cs u, over_crossings knot t cs u = Return (cs, u).
Proof.
  induction t as [|v t IH]; simpl; intros Hfind cs u; [reflexivity|].
  destruct (0 <? v)%Z; [discriminate|]. apply IH. exact Hfind.
Qed.

Lemma over_crossings_unbound (knot : knot_dict) (v : Z) :
  Forall (fun e => tuple_of e <> []) knot ->
  (forall e, In e knot -> hd 0%Z (tuple_of e) <> (- v)%Z) \/
  (forall e, In e knot -> last (tuple_of e) 0%Z <> (- v)%Z) ->
  forall t cs u,
    find (fun x => (0 <? x)%Z) t = Some v ->
    under1 u = None -> under2 u = None ->
    over_crossings knot t cs u = Raise UnboundLocalError.
Proof.
  intros Hne Hno. induction t as [|x t IH]; simpl; intros cs u Hfind Hu1 Hu2.
  - discriminate.
  - destruct (0 <? x)%Z.
    + injection Hfind as ->.
      destruct (find_unders_keeps v knot Hne
                  (mk_unders false false (under1 u) (under2 u)))
        as [u' [Hu' [H1 H2]]].
      rewrite Hu'. simpl. destruct Hno as [Hno|Hno].
      * rewrite (H1 Hno). simpl. rewrite Hu1. reflexivity.
      * rewrite (H2 Hno). simpl. rewrite Hu2.
        destruct (under1 u'); reflexivity.
    + apply IH; assumption.
Qed.

Lemma find_crossings_from_unbound (knot : knot_dict) (v : Z) :
  Forall (fun e => tuple_of e <> []) knot ->
  (forall e, In e knot -> hd 0%Z (tuple_of e) <> (- v)%Z) \/
  (forall e, In e knot -> last (tuple_of e) 0%Z <> (- v)%Z) ->
  forall todo u,
    first_over todo = Some v ->
    under1 u = None -> under2 u = None ->
    find_crossings_from knot todo u = Raise UnboundLocalError.
Proof.
  intros Hne Hno. induction todo as [|[k [t cs]] todo IH]; intros u Hfirst Hu1 Hu2.
  - discriminate.
  - unfold first_over in Hfirst. simpl in Hfirst.
    unfold tuple_of at 1 in Hfirst. simpl in Hfirst.
    rewrite find_app_split in Hfirst. simpl.
    destruct (find (fun x => (0 <? x)%Z) t) as [w|] eqn:Ht.
    + injection Hfirst as ->.
      rewrite (over_crossings_unbound knot v Hne Hno t cs u Ht Hu1 Hu2).
      reflexivity.
    + rewrite (over_crossings_no_over knot t Ht). simpl.
      rewrite (IH u Hfirst Hu1 Hu2). reflexivity.
Qed.

Lemma length_letter_list : length letter_list = 26.
Proof. reflexivity. Qed.

Lemma label_strands_exhausted (strands : list strand) :
  forall i d, i <= 26 -> 26 < i + length strands ->
  label_strands i strands d = Raise IndexError.
Proof.
  induction strands as [|s rest IH]; intros i d Hi Hlen; simpl in *.
  - lia.
  - destruct (nth_error letter_list i) as [l|] eqn:Hl; [|reflexivity].
    assert (Hlt : i < length letter_list)
      by (apply nth_error_Some; rewrite Hl; discriminate).
    rewrite length_letter_list in Hlt. apply IH; lia.
Qed.

(** C5, as the code has it: there is no DiagramError. When the first
    over-entry has no strand that starts with its negation, or none that
    ends with it, [find_crossings] stops on the unbound local
    ([UnboundLocalError]); when more than 26 strands were found,
    [find_strands] stops on the index into the letter list
    ([IndexError]). *)
Theorem unreported_diagram_faults :
  (forall (knot : knot_dict) (v : Z),
      Forall (fun e => tuple_of e <> []) knot ->
      first_over knot = Some v ->
      (forall e, In e knot -> hd 0%Z (tuple_of e) <> (- v)%Z) \/
      (forall e, In e knot -> last (tuple_of e) 0%Z <> (- v)%Z) ->
      find_crossings knot = Raise UnboundLocalError) /\
  (forall (set_iter : list strand -> list strand) (fuel : nat) (g : list Z)
          (strand_set : list strand),
      scan_strands fuel g 0 [] = Return strand_set ->
      26 < length (set_iter strand_set) ->
      find_strands set_iter fuel g = Raise IndexError).
Proof.
  split.
  - intros knot v Hne Hfirst Hno. unfold find_crossings.
    apply (find_crossings_from_unbound knot v Hne Hno knot unbound Hfirst);
      reflexivity.
  - intros set_iter fuel g strand_set Hscan Hlen. unfold find_strands.
    rewrite Hscan. simpl. apply label_strands_exhausted; [lia | exact Hlen].
Qed.

Lemma unreported_diagram_faults_witness :
  find_crossings [("A", ([-1; 2; -3]%Z, [])); ("B", ([-3; -1]%Z, []))]
    = Raise UnboundLocalError /\
  find_strands insertion_order 100 (kinks 27) = Raise IndexError.
Proof.
  split.
  - apply (proj1 unreported_diagram_faults
             [("A", ([-1; 2; -3]%Z, [])); ("B", ([-3; -1]%Z, []))] 2%Z).
    + repeat constructor; discriminate.
    + reflexivity.
    + left. intros e [<-|[<-|[]]]; simpl; discriminate.
  - refine (proj2 unreported_diagram_faults insertion_order 100 (kinks 27)
              _ eq_refl _).
    vm_compute. lia.
Defined.

(** C5 as stated fails. In the code of [-1, 2, 5, -2] no strand starts or
    ends with [-5], yet the diagram is returned, the pair found for the
    over-entry 2 standing in for the missing one; the code [-1, 2, -3]
    ends in an [UnboundLocalError] and a code of 27 strands in an
    [IndexError]. *)
Lemma unmatched_crossing_goes_unreported :
  (find_strands insertion_order 10 [-1; 2; 5; -2]%Z
     = Return [("A", ([-1; 2; 5; -2]%Z, [])); ("B", ([-2; -1]%Z, []))] /\
   find_crossings [("A", ([-1; 2; 5; -2]%Z, [])); ("B", ([-2; -1]%Z, []))]
     = Return [("A", ([-1; 2; 5; -2]%Z, [("B", "A"); ("B", "A")]));
               ("B", ([-2; -1]%Z, []))]) /\
  create_knot_dictionary insertion_order 10 [-1; 2; -3]%Z
    = Raise UnboundLocalError /\
  find_strands insertion_order 100 (kinks 27) = Raise IndexError.
Proof.
  repeat split; vm_compute; reflexivity.
Qed.

(** The same in either order of the two strands: the diagram of
    [-1, 2, 5, -2] is returned although no strand matches the over-entry
    5. *)
Lemma unmatched_crossing_any_order (set_iter : list strand -> list strand) :
  (forall l, Permutation l (set_iter l)) ->
  exists knot,
    create_knot_dictionary set_iter 10 [-1; 2; 5; -2]%Z = Return knot /\
    forall e, In e knot ->
      hd 0%Z (tuple_of e) <> (-5)%Z /\ last (tuple_of e) 0%Z <> (-5)%Z.
Proof.
  intros Hperm.
  pose proof (perms_complete _ _ (Hperm [[-1; 2; 5; -2]; [-2; -1]]%Z)) as Hin.
  unfold create_knot_dictionary, find_strands.
  change (scan_strands 10 [-1; 2; 5; -2]%Z 0 [])
    with (Return [[-1; 2; 5; -2]; [-2; -1]]%Z).
  cbn [bind]. simpl in Hin.
  destruct Hin as [Hin|[Hin|[]]]; rewrite <- Hin;
    (eexists; split; [reflexivity|]);
    intros e [<-|[<-|[]]]; split; discriminate.
Qed.

(** ** The trefoil scenario *)

Lemma trefoil_scan (fuel : nat) :
  10 <= fuel ->
  scan_strands fuel trefoil 0 []
    = Return [[-1; 2; -3]; [-3; 1; -2]; [-2; 3; -1]]%Z.
Proof.
  intros Hfuel.
  apply (stable_Return _ _ _ (scan_strands_stable trefoil 10 fuel Hfuel 0 [])).
  reflexivity.
Qed.

Lemma trefoil_search (fuel : nat) (knot : knot_dict) :
  10 <= fuel ->
  search 10 knot (keys knot) (get_seeds (keys knot) 3) = Return "32" ->
  search fuel knot (keys knot) (get_seeds (keys knot) 3) = Return "32".
Proof.
  intros Hfuel H.
  exact (stable_Return _ _ _ (search_stable knot (keys knot) 10 fuel Hfuel _) H).
Qed.

(** C3, as the code has it: whatever order the strand set is iterated in,
    the trefoil code [-1, 2, -3, 1, -2, 3] is cut into 3 strands, one per
    under-pass, each a tuple of 3 entries (both closing under-passes
    included); the pipeline raises nothing and returns ["32"], the same on
    every run. *)
Theorem trefoil_pipeline (set_iter : list strand -> list strand) (fuel : nat) :
  (forall l, Permutation l (set_iter l)) ->
  10 <= fuel ->
  exists strands_dict,
    find_strands set_iter fuel trefoil = Return strands_dict /\
    length strands_dict = 3 /\
    Forall (fun e => length (tuple_of e) = 3) strands_dict /\
    calc set_iter fuel trefoil_tokens = Return "32".
Proof.
  intros Hperm Hfuel.
  pose proof (trefoil_scan fuel Hfuel) as Hscan.
  pose proof (perms_complete _ _ (Hperm [[-1; 2; -3]; [-3; 1; -2]; [-2; 3; -1]]%Z))
    as Hin.
  unfold calc, create_knot_dictionary, find_strands.
  change (process_gauss_code trefoil_tokens) with (Return trefoil).
  cbn [bind]. rewrite Hscan. cbn [bind].
  simpl in Hin.
  repeat (destruct Hin as [Hin|Hin]; [rewrite <- Hin; clear Hin|]);
    try contradiction;
    (eexists; split; [reflexivity|]; split; [reflexivity|];
     split; [repeat constructor|];
     apply (trefoil_search fuel _ Hfuel); vm_compute; reflexivity).
Qed.

Lemma trefoil_pipeline_witness :
  exists strands_dict,
    find_strands insertion_order 10 trefoil = Return strands_dict /\
    length strands_dict = 3 /\
    Forall (fun e => length (tuple_of e) = 3) strands_dict /\
    calc insertion_order 10 trefoil_tokens = Return "32".
Proof.
  apply (trefoil_pipeline insertion_order 10).
  - intros l. apply Permutation_refl.
  - lia.
Defined.

(** C3 as stated fails in one respect: the strand tuples of the trefoil
    have three entries, not two. *)
Lemma trefoil_strands_not_pairs :
  find_strands insertion_order 10 trefoil
    = Return [("A", ([-1; 2; -3]%Z, []));
              ("B", ([-3; 1; -2]%Z, []));
              ("C", ([-2; 3; -1]%Z, []))] /\
  ~ Forall (fun e => length (tuple_of e) = 2)
      [("A", ([-1; 2; -3]%Z, []));
       ("B", ([-3; 1; -2]%Z, []));
       ("C", ([-2; 3; -1]%Z, ([] : list crossing)))].
Proof.
  split; [reflexivity|].
  intros H. inversion H as [|e l Hlen _]. discriminate Hlen.
Qed.

(** ** Membership and lookup *)

Lemma mem_true (x : label) (l : list label) : mem x l = true <-> In x l.
Proof.
  unfold mem. destruct (in_dec string_dec x l); split; intros H;
    try reflexivity; try assumption; try discriminate; contradiction.
Qed.

Lemma mem_false (x : label) (l : list label) : mem x l = false <-> ~ In x l.
Proof.
  unfold mem. destruct (in_dec string_dec x l); split; intros H;
    try reflexivity; try assumption; try discriminate; contradiction.
Qed.

Lemma lookup_In_keys {V : Type} (k : label) (d : dict V) (v : V) :
  lookup k d = Some v -> In k (keys d).
Proof.
  induction d as [|[k' v'] d IH]; simpl; intros H; [discriminate|].
  destruct (string_dec k k') as [->|Hne]; [left; reflexivity|].
  right. apply IH. exact H.
Qed.

Lemma In_keys_lookup {V : Type} (k : label) (d : dict V) :
  In k (keys d) -> exists v, lookup k d = Some v.
Proof.
  induction d as [|[k' v'] d IH]; simpl; intros H; [contradiction|].
  destruct (string_dec k k') as [->|Hne]; [eexists; reflexivity|].
  destruct H as [H|H]; [congruence|]. apply IH. exact H.
Qed.

Lemma lookup_In_colored_set (k : label) (d : color_dict) (part : list label) (x : label) :
  lookup k d = Some part -> In x part -> In x (colored_set d).
Proof.
  unfold colored_set.
  induction d as [|[k' p] d IH]; simpl; intros H Hx; [discriminate|].
  apply in_or_app. destruct (string_dec k k') as [->|Hne].
  - left. congruence.
  - right. apply IH; assumption.
Qed.

Lemma is_colored_In (x : label) (d : color_dict) :
  is_colored x d = true <-> In x (colored_set d).
Proof.
  unfold colored_set. induction d as [|[k p] d IH]; simpl.
  - split; [discriminate | contradiction].
  - rewrite in_app_iff. destruct (mem x p) eqn:Hm.
    + apply mem_true in Hm. tauto.
    + apply mem_false in Hm. tauto.
Qed.

Lemma find_color_lookup (x : label) (d : color_dict) :
  NoDup (keys d) -> is_colored x d = true ->
  exists part, lookup (find_color x d) d = Some part /\ In x part.
Proof.
  induction d as [|[k p] d IH]; simpl; intros Hnd Hc; [discriminate|].
  inversion Hnd as [|k' l Hk Hnd']; subst.
  destruct (mem x p) eqn:Hm.
  - exists p. destruct (string_dec k k); [|congruence].
    split; [reflexivity | apply mem_true; exact Hm].
  - destruct (IH Hnd' Hc) as [part [Hl Hx]]. exists part.
    destruct (string_dec (find_color x d) k) as [E|_].
    + contradiction Hk. rewrite <- E. eapply lookup_In_keys. exact Hl.
    + split; assumption.
Qed.

Lemma part_find_color (x k : label) (d : color_dict) (part : list label) :
  NoDup (colored_set d) -> lookup k d = Some part -> In x part ->
  find_color x d = k.
Proof.
  unfold colored_set.
  induction d as [|[k' p] d IH]; simpl; intros Hnd Hl Hx; [discriminate|].
  destruct (string_dec k k') as [->|Hne].
  - injection Hl as ->. apply mem_true in Hx. rewrite Hx. reflexivity.
  - destruct (mem x p) eqn:Hm.
    + apply mem_true in Hm. exfalso.
      apply NoDup_app_remove_l in Hnd as Hnd'.
      pose proof (lookup_In_colored_set k d part x Hl Hx) as Hin.
      clear - Hnd Hm Hin. unfold colored_set in Hin.
      induction p as [|y p IHp]; [contradiction|].
      simpl in Hnd. inversion Hnd as [|? ? Hy Hnd'']; subst.
      destruct Hm as [->|Hm].
      * apply Hy. apply in_or_app. right. exact Hin.
      * apply IHp; assumption.
    + apply IH; try assumption. eapply NoDup_app_remove_l. exact Hnd.
Qed.

(** ** Counting multicoloured crossings *)

Lemma multicolored_conflict (d : color_dict) (c : crossing) :
  NoDup (keys d) -> NoDup (colored_set d) ->
  multicolored d c = Return (conflict d c).
Proof.
  intros Hk Hnd. unfold multicolored, conflict.
  destruct (is_colored (fst c) d) eqn:Ha; [|reflexivity].
  destruct (is_colored (snd c) d) eqn:Hb; [|reflexivity].
  simpl. destruct (find_color_lookup _ d Hk Ha) as [part [Hl Hx]].
  rewrite Hl. f_equal. f_equal.
  destruct (mem (snd c) part) eqn:Hm.
  - apply mem_true in Hm.
    rewrite (part_find_color _ _ d part Hnd Hl Hm). symmetry. apply String.eqb_refl.
  - symmetry. apply String.eqb_neq. intros E.
    destruct (find_color_lookup _ d Hk Hb) as [part' [Hl' Hx']].
    rewrite <- E in Hl'. rewrite Hl in Hl'. injection Hl' as <-.
    apply mem_false in Hm. contradiction.
Qed.

Lemma count_crossings_filter (d : color_dict) (cs : list crossing) :
  NoDup (keys d) -> NoDup (colored_set d) ->
  forall n, count_crossings d cs n = Return (n + length (filter (conflict d) cs)).
Proof.
  intros Hk Hnd. induction cs as [|c cs IH]; intros n; simpl.
  - f_equal. lia.
  - rewrite (multicolored_conflict d c Hk Hnd). simpl. rewrite IH.
    destruct (conflict d c); simpl; f_equal; lia.
Qed.

Lemma count_strands_filter (d : color_dict) (knot : knot_dict) (part : list label) :
  NoDup (keys d) -> NoDup (colored_set d) -> incl part (keys knot) ->
  forall n, count_strands d knot part n
    = Return (n + length (filter (conflict d) (flat_map (crossings_under knot) part))).
Proof.
  intros Hk Hnd. induction part as [|s part IH]; intros Hincl n; simpl.
  - f_equal. lia.
  - destruct (In_keys_lookup s knot (Hincl s (or_introl eq_refl))) as [[t cs] Hl].
    unfold crossings_under at 1. rewrite Hl.
    rewrite (count_crossings_filter d cs Hk Hnd). simpl.
    rewrite IH by (intros x Hx; apply Hincl; right; exact Hx).
    rewrite filter_app, length_app. f_equal. lia.
Qed.

Lemma count_colors_filter (d : color_dict) (knot : knot_dict) (parts : color_dict) :
  NoDup (keys d) -> NoDup (colored_set d) -> incl (colored_set parts) (keys knot) ->
  forall n, count_colors d knot parts n
    = Return (n + length (filter (conflict d)
                            (flat_map (crossings_under knot) (colored_set parts)))).
Proof.
  intros Hk Hnd. unfold colored_set.
  induction parts as [|[k p] parts IH]; intros Hincl n; simpl.
  - f_equal. lia.
  - simpl in Hincl.
    rewrite (count_strands_filter d knot p Hk Hnd)
      by (intros x Hx; apply Hincl; apply in_or_app; left; exact Hx).
    simpl. rewrite IH by (intros x Hx; apply Hincl; apply in_or_app; right; exact Hx).
    rewrite flat_map_app, filter_app, length_app. f_equal. lia.
Qed.

Lemma flat_map_agree {A B : Type} (f g : A -> list B) (l : list A) :
  (forall x, In x l -> f x = g x) -> flat_map f l = flat_map g l.
Proof.
  induction l as [|x l IH]; simpl; intros H; [reflexivity|].
  rewrite (H x (or_introl eq_refl)). rewrite IH; [reflexivity|].
  intros y Hy. apply H. right. exact Hy.
Qed.

Lemma crossings_under_bound (knot : knot_dict) :
  forall l, NoDup l ->
  length (flat_map (crossings_under knot) l) <= length (all_crossings knot).
Proof.
  unfold all_crossings.
  induction knot as [|[k [t cs]] knot IH]; intros l Hnd.
  - rewrite (flat_map_agree _ (fun _ => []) l) by reflexivity.
    clear Hnd. induction l; simpl; [lia | assumption].
  - assert (Hother : forall x, x <> k ->
              crossings_under ((k, (t, cs)) :: knot) x = crossings_under knot x).
    { intros x Hx. unfold crossings_under. simpl.
      destruct (string_dec x k); [contradiction | reflexivity]. }
    simpl. unfold crossings_of at 1. simpl. rewrite length_app.
    destruct (in_dec string_dec k l) as [Hin|Hout].
    + apply in_split in Hin. destruct Hin as [l1 [l2 ->]].
      pose proof (NoDup_remove_1 _ _ _ Hnd) as Hnd'.
      pose proof (NoDup_remove_2 _ _ _ Hnd) as Hk.
      specialize (IH (l1 ++ l2) Hnd').
      rewrite flat_map_app in *. simpl. rewrite !length_app in *.
      rewrite (flat_map_agree _ (crossings_under knot) l1)
        by (intros x Hx; apply Hother; intros ->; apply Hk; apply in_or_app;
            left; exact Hx).
      rewrite (flat_map_agree _ (crossings_under knot) l2)
        by (intros x Hx; apply Hother; intros ->; apply Hk; apply in_or_app;
            right; exact Hx).
      unfold crossings_under at 2. simpl.
      destruct (string_dec k k); [|congruence].
      plain_types. lia.
    + rewrite (flat_map_agree _ (crossings_under knot) l)
        by (intros x Hx; apply Hother; intros ->; contradiction).
      specialize (IH l Hnd). lia.
Qed.

Lemma count_conflicts (d : color_dict) (knot : knot_dict) :
  NoDup (keys d) -> NoDup (colored_set d) -> incl (colored_set d) (keys knot) ->
  count_multicolored_crossings d knot = Return (conflicts_under_colored d knot).
Proof.
  intros Hk Hnd Hincl. unfold count_multicolored_crossings, conflicts_under_colored.
  rewrite (count_colors_filter d knot d Hk Hnd Hincl). reflexivity.
Qed.

(** C2, as the code has it: on a partition with disjoint parts whose
    members are strands of the diagram, [count_multicolored_crossings]
    returns the number of crossings under a coloured over-strand whose two
    under-strands are coloured and lie in different parts; the result is
    at most the number of crossings of the diagram. The function is pure in
    the model as in the source: it returns a number and writes nothing. *)
Theorem count_multicolored_crossings_spec (d : color_dict) (knot : knot_dict) :
  NoDup (keys d) ->
  NoDup (colored_set d) ->
  incl (colored_set d) (keys knot) ->
  count_multicolored_crossings d knot = Return (conflicts_under_colored d knot) /\
  conflicts_under_colored d knot <= length (all_crossings knot).
Proof.
  intros Hk Hnd Hincl. split.
  - apply count_conflicts; assumption.
  - unfold conflicts_under_colored.
    eapply Nat.le_trans; [apply filter_length_le|].
    apply crossings_under_bound. exact Hnd.
Qed.

Lemma count_multicolored_crossings_spec_witness :
  let d := [("A", ["A"]); ("B", ["B"; "C"]); ("D", ["D"])] in
  maximally_extend 10 ["A"; "B"; "D"] four_overs_knot = Return d /\
  conflicts_under_colored d four_overs_knot = 3 /\
  count_multicolored_crossings d four_overs_knot
    = Return (conflicts_under_colored d four_overs_knot) /\
  conflicts_under_colored d four_overs_knot
    <= length (all_crossings four_overs_knot).
Proof.
  split; [reflexivity|]. split; [reflexivity|].
  apply (count_multicolored_crossings_spec
           [("A", ["A"]); ("B", ["B"; "C"]); ("D", ["D"])] four_overs_knot).
  - repeat constructor; simpl; intuition discriminate.
  - repeat constructor; simpl; intuition discriminate.
  - intros x Hx. simpl in *. intuition.
Defined.

(** C2 as stated fails: in the diagram of [-1, -2, -3, -4, 1, 2, 3, 4] with
    seeds A, B, C the only over-strand D stays uncoloured, so the code
    counts nothing, while two crossings of the diagram have their two
    under-strands in different parts. *)
Lemma uncolored_over_strand_not_counted :
  create_knot_dictionary insertion_order 10 four_overs = Return four_overs_knot /\
  maximally_extend 10 ["A"; "B"; "C"] four_overs_knot = Return three_seeds /\
  count_multicolored_crossings three_seeds four_overs_knot = Return 0 /\
  conflicts_in_diagram three_seeds four_overs_knot = 2.
Proof.
  repeat split; reflexivity.
Qed.

(** ** Growth of a colour dictionary *)

Lemma grows_refl (d : color_dict) : grows d d.
Proof.
  induction d as [|e d IH]; constructor; [|exact IH].
  split; [reflexivity|]. exists []. symmetry. apply app_nil_r.
Qed.

Lemma grows_trans (d1 d2 d3 : color_dict) :
  grows d1 d2 -> grows d2 d3 -> grows d1 d3.
Proof.
  intros H12. revert d3. induction H12 as [|e1 e2 d1 d2 [Hk [m Hm]] _ IH];
    intros d3 H23; inversion H23 as [|? e3 ? d3' [Hk' [m' Hm']] Hrest]; subst.
  - constructor.
  - constructor; [|apply IH; exact Hrest].
    split; [congruence|]. exists (m ++ m'). rewrite Hm', Hm. symmetry. apply app_assoc.
Qed.

Lemma grows_keys (d d' : color_dict) : grows d d' -> keys d' = keys d.
Proof.
  induction 1 as [|e e' d d' [Hk _] _ IH]; simpl; [reflexivity|].
  rewrite Hk, IH. reflexivity.
Qed.

Lemma grows_lookup (d d' : color_dict) (k : label) (part : list label) :
  grows d d' -> lookup k d = Some part ->
  exists more, lookup k d' = Some (part ++ more).
Proof.
  induction 1 as [|[k1 p1] [k2 p2] d d' [Hk [m Hm]] _ IH]; simpl;
    intros Hl; [discriminate|].
  simpl in Hk, Hm. subst k2.
  destruct (string_dec k k1) as [_|_].
  - injection Hl as <-. exists m. rewrite Hm. reflexivity.
  - apply IH. exact Hl.
Qed.

Lemma grows_In (d d' : color_dict) (x : label) :
  grows d d' -> In x (colored_set d) -> In x (colored_set d').
Proof.
  unfold colored_set.
  induction 1 as [|[k1 p1] [k2 p2] d d' [Hk [m Hm]] _ IH]; simpl;
    intros Hx; [contradiction|].
  simpl in Hm. subst p2. rewrite !in_app_iff in *. tauto.
Qed.

(** A part grows by no more than the whole dictionary does. *)
Lemma grows_part_length (d d' : color_dict) (k : label) (p p' : list label) :
  grows d d' -> lookup k d = Some p -> lookup k d' = Some p' ->
  length p' + length (colored_set d) <= length p + length (colored_set d').
Proof.
  unfold colored_set.
  induction 1 as [|[k1 p1] [k2 p2] d d' [Hk [m Hm]] Hrest IH]; simpl;
    intros Hl Hl'; [discriminate|].
  simpl in Hk, Hm. subst k2 p2.
  assert (Hle : length (concat (map snd d)) <= length (concat (map snd d'))).
  { clear - Hrest. induction Hrest as [|[a pa] [b pb] d d' [_ [m Hm]] _ IH];
      simpl; [lia|]. simpl in Hm. subst pb. rewrite !length_app. lia. }
  rewrite !length_app.
  destruct (string_dec k k1) as [_|_].
  - injection Hl as <-. injection Hl' as <-. rewrite length_app. lia.
  - specialize (IH Hl Hl'). lia.
Qed.

Lemma grows_length (d d' : color_dict) :
  grows d d' -> length (colored_set d) <= length (colored_set d').
Proof.
  unfold colored_set.
  induction 1 as [|[a pa] [b pb] d d' [_ [m Hm]] _ IH]; simpl; [lia|].
  simpl in Hm. subst pb. rewrite !length_app. lia.
Qed.

Lemma lookup_length (k : label) (d : color_dict) (p : list label) :
  lookup k d = Some p -> length p <= length (colored_set d).
Proof.
  unfold colored_set.
  induction d as [|[k' p'] d IH]; simpl; intros Hl; [discriminate|].
  rewrite length_app. destruct (string_dec k k').
  - injection Hl as ->. lia.
  - specialize (IH Hl). lia.
Qed.

Lemma dict_append_grows (k x : label) (d : color_dict) (p : list label) :
  lookup k d = Some p ->
  exists d',
    dict_append k x d = Some d' /\ grows d d' /\
    lookup k d' = Some (p ++ [x]) /\
    Permutation (x :: colored_set d) (colored_set d').
Proof.
  unfold colored_set.
  induction d as [|[k' p'] d IH]; simpl; intros Hl; [discriminate|].
  destruct (string_dec k k') as [->|Hne].
  - injection Hl as ->. eexists. split; [reflexivity|]. split; [|split].
    + constructor; [|apply grows_refl]. split; [reflexivity|]. exists [x]. reflexivity.
    + simpl. destruct (string_dec k' k'); [reflexivity | congruence].
    + simpl. rewrite <- app_assoc. simpl.
      apply Permutation_middle.
  - destruct (IH Hl) as [d' [Ha [Hg [Hl' Hp]]]]. rewrite Ha. simpl.
    eexists. split; [reflexivity|]. split; [|split].
    + constructor; [|exact Hg]. split; [reflexivity|]. exists [].
      symmetry. apply app_nil_r.
    + simpl. destruct (string_dec k k'); [contradiction | exact Hl'].
    + simpl. eapply Permutation_trans; [apply Permutation_middle|].
      apply Permutation_app_head. exact Hp.
Qed.

Lemma In_colored_set_lookup (x : label) (d : color_dict) :
  NoDup (keys d) -> In x (colored_set d) ->
  exists k p, lookup k d = Some p /\ In x p.
Proof.
  intros Hk Hx. apply is_colored_In in Hx.
  destruct (find_color_lookup x d Hk Hx) as [p [Hl Hp]].
  exists (find_color x d), p. split; assumption.
Qed.

Lemma crossings_under_all (knot : knot_dict) (s : label) (c : crossing) :
  In c (crossings_under knot s) -> In c (all_crossings knot).
Proof.
  unfold crossings_under, all_crossings.
  induction knot as [|[k [t cs]] knot IH]; simpl; intros Hc; [contradiction|].
  unfold crossings_of at 1. simpl. apply in_or_app.
  destruct (string_dec s k); [left; exact Hc | right; apply IH; exact Hc].
Qed.

(** ** One propagation trial *)

Section Propagation.

Variable knot : knot_dict.
Variable seeds : list label.
Hypothesis knot_closed : closed knot.

Lemma consistent_size (st : coloring) :
  consistent knot seeds st -> size st <= length knot.
Proof.
  intros [_ Hnd _ Hincl _]. unfold size.
  pose proof (NoDup_incl_length Hnd Hincl) as H.
  unfold keys in H. rewrite length_map in H. exact H.
Qed.

Lemma progress_refl (st : coloring) : progress st st.
Proof. split; [apply grows_refl | left; reflexivity]. Qed.

Lemma progress_size (st st' : coloring) : progress st st' -> size st <= size st'.
Proof. intros [Hg _]. apply grows_length. exact Hg. Qed.

Lemma progress_trans (st1 st2 st3 : coloring) :
  progress st1 st2 -> progress st2 st3 -> progress st1 st3.
Proof.
  intros H12 H23. pose proof (progress_size _ _ H12) as Hs12.
  destruct H12 as [Hg12 H12], H23 as [Hg23 H23].
  split; [eapply grows_trans; eassumption|].
  destruct H23 as [->|[Hflag Hs]].
  - exact H12.
  - right. split; [exact Hflag | lia].
Qed.

(** If the state after two stretches is the state before them, the state
    in between is that state too. *)
Lemma progress_back (st st1 st2 : coloring) :
  progress st st1 -> progress st1 st2 -> st2 = st -> st1 = st.
Proof.
  intros H1 H2 ->. pose proof (progress_size _ _ H2) as Hs2.
  destruct H1 as [_ [E|[_ Hs]]]; [exact E | lia].
Qed.

Lemma mem_colored (st : coloring) (x : label) :
  consistent knot seeds st ->
  mem x (colored_strands st) = true <-> In x (colored_set (strand_colors_dict st)).
Proof. intros Hc. rewrite mem_true. apply (same_colored _ _ _ Hc). Qed.

Lemma assign_spec (st : coloring) (source x : label) :
  consistent knot seeds st ->
  In source (colored_set (strand_colors_dict st)) ->
  ~ In x (colored_set (strand_colors_dict st)) ->
  In x (keys knot) -> reach knot seeds x ->
  exists st',
    assign source x st = Return st' /\ consistent knot seeds st' /\
    grows (strand_colors_dict st) (strand_colors_dict st') /\
    new_coloring st' = true /\ size st' = S (size st) /\
    find_color x (strand_colors_dict st') = find_color source (strand_colors_dict st).
Proof.
  intros Hc Hsrc Hx Hkey Hreach.
  destruct Hc as [Hk Hnd Hsame Hknown Hreached].
  destruct (find_color_lookup source _ Hk (proj2 (is_colored_In _ _) Hsrc))
    as [p [Hl Hp]].
  destruct (dict_append_grows _ x _ p Hl) as [d' [Ha [Hg [Hl' Hperm]]]].
  unfold assign. rewrite Ha. eexists. split; [reflexivity|].
  assert (Hnd' : NoDup (colored_set d')).
  { eapply Permutation_NoDup; [exact Hperm|]. constructor; assumption. }
  split; [|split; [exact Hg|split; [reflexivity|split]]].
  - constructor; simpl.
    + rewrite (grows_keys _ _ Hg). exact Hk.
    + exact Hnd'.
    + intros y. rewrite in_app_iff. simpl. split.
      * intros [Hy|[<-|[]]]; apply (Permutation_in _ Hperm).
        -- right. apply Hsame. exact Hy.
        -- left. reflexivity.
      * intros Hy. apply (Permutation_in _ (Permutation_sym Hperm)) in Hy.
        destruct Hy as [<-|Hy]; [right; left; reflexivity|].
        left. apply Hsame. exact Hy.
    + intros y Hy. apply (Permutation_in _ (Permutation_sym Hperm)) in Hy.
      destruct Hy as [<-|Hy]; [exact Hkey | apply Hknown; exact Hy].
    + intros y Hy. apply (Permutation_in _ (Permutation_sym Hperm)) in Hy.
      destruct Hy as [<-|Hy]; [exact Hreach | apply Hreached; exact Hy].
  - unfold size. simpl. rewrite <- (Permutation_length Hperm). reflexivity.
  - simpl. apply (part_find_color x _ d' (p ++ [x]) Hnd' Hl').
    apply in_or_app. right. left. reflexivity.
Qed.

Lemma color_crossing_spec (st : coloring) (c : crossing) (s : label) :
  consistent knot seeds st ->
  In s (colored_set (strand_colors_dict st)) ->
  In c (crossings_under knot s) ->
  exists st',
    color_crossing c st = Return st' /\ consistent knot seeds st' /\
    progress st st' /\ (st' = st -> quiet (strand_colors_dict st) c).
Proof.
  intros Hc Hs Hin.
  destruct (knot_closed c (crossings_under_all knot s c Hin)) as [Hk0 Hk1].
  pose proof (colored_reached _ _ _ Hc) as Hreached.
  unfold color_crossing, quiet. destruct c as [c0 c1]. simpl in *.
  destruct (mem c0 (colored_strands st)) eqn:H0;
    destruct (mem c1 (colored_strands st)) eqn:H1; simpl.
  - exists st. split; [reflexivity|]. split; [exact Hc|].
    split; [apply progress_refl|]. intros _.
    apply (mem_colored st _ Hc) in H0. apply (mem_colored st _ Hc) in H1. tauto.
  - apply (mem_colored st _ Hc) in H0.
    assert (Hn1 : ~ In c1 (colored_set (strand_colors_dict st))).
    { intros Hin1. apply (mem_colored st _ Hc) in Hin1. congruence. }
    destruct (assign_spec st c0 c1 Hc H0 Hn1 Hk1) as [st' [Ha [Hc' [Hg [Hf [Hsz _]]]]]].
    { apply (reach_snd knot seeds s (c0, c1)); auto. }
    exists st'. split; [exact Ha|]. split; [exact Hc'|]. split.
    + split; [exact Hg|]. right. split; [exact Hf | lia].
    + intros ->. lia.
  - apply (mem_colored st _ Hc) in H1.
    assert (Hn0 : ~ In c0 (colored_set (strand_colors_dict st))).
    { intros Hin0. apply (mem_colored st _ Hc) in Hin0. congruence. }
    destruct (assign_spec st c1 c0 Hc H1 Hn0 Hk0) as [st' [Ha [Hc' [Hg [Hf [Hsz _]]]]]].
    { apply (reach_fst knot seeds s (c0, c1)); auto. }
    exists st'. split; [exact Ha|]. split; [exact Hc'|]. split.
    + split; [exact Hg|]. right. split; [exact Hf | lia].
    + intros ->. lia.
  - exists st. split; [reflexivity|]. split; [exact Hc|].
    split; [apply progress_refl|]. intros _.
    split; intros Hin'; apply (mem_colored st _ Hc) in Hin'; congruence.
Qed.

Lemma visit_crossings_spec (s : label) (cs : list crossing) :
  incl cs (crossings_under knot s) ->
  forall st,
    consistent knot seeds st ->
    In s (colored_set (strand_colors_dict st)) ->
    exists st',
      visit_crossings cs st = Return st' /\ consistent knot seeds st' /\
      progress st st' /\
      (st' = st -> forall c, In c cs -> quiet (strand_colors_dict st) c).
Proof.
  induction cs as [|c cs IH]; intros Hincl st Hc Hs; simpl.
  - exists st. split; [reflexivity|]. split; [exact Hc|].
    split; [apply progress_refl|]. intros _ c [].
  - destruct (color_crossing_spec st c s Hc Hs (Hincl c (or_introl eq_refl)))
      as [st1 [H1 [Hc1 [Hp1 Hq1]]]].
    rewrite H1. simpl.
    destruct (IH (fun x Hx => Hincl x (or_intror Hx)) st1 Hc1
                 (grows_In _ _ s (proj1 Hp1) Hs))
      as [st2 [H2 [Hc2 [Hp2 Hq2]]]].
    exists st2. split; [exact H2|]. split; [exact Hc2|].
    split; [eapply progress_trans; eassumption|].
    intros E. pose proof (progress_back st st1 st2 Hp1 Hp2 E) as E1. subst st1 st2.
    intros c' [<-|Hc']; [apply Hq1; reflexivity | apply Hq2; [reflexivity | exact Hc']].
Qed.

Lemma skipn_nth_error {A : Type} (l : list A) (j : nat) (x : A) :
  nth_error l j = Some x -> skipn j l = x :: skipn (S j) l.
Proof.
  revert j. induction l as [|y l IH]; intros [|j] H; simpl in *; try discriminate.
  - injection H as ->. reflexivity.
  - apply IH. exact H.
Qed.

Lemma visit_strands_spec (seed : label) (fuel : nat) :
  forall j st,
    consistent knot seeds st ->
    In seed (keys (strand_colors_dict st)) ->
    (length knot - size st)
      + (length (part_of seed (strand_colors_dict st)) - j) < fuel ->
    exists st',
      visit_strands fuel knot seed j st = Return st' /\
      consistent knot seeds st' /\ progress st st' /\
      (st' = st ->
       forall s c, In s (skipn j (part_of seed (strand_colors_dict st))) ->
                   In c (crossings_under knot s) ->
                   quiet (strand_colors_dict st) c).
Proof.
  induction fuel as [|fuel IH]; intros j st Hc Hseed Hfuel; [lia|].
  simpl. destruct (In_keys_lookup seed _ Hseed) as [part Hl].
  unfold part_of in *. rewrite Hl in *.
  destruct (nth_error part j) as [strand|] eqn:Hj.
  - assert (Hcol : In strand (colored_set (strand_colors_dict st))).
    { eapply lookup_In_colored_set; [exact Hl|]. eapply nth_error_In. exact Hj. }
    destruct (In_keys_lookup strand knot (colored_strands_known _ _ _ Hc _ Hcol))
      as [[t cs] Hk].
    rewrite Hk.
    assert (Hcs : crossings_under knot strand = cs)
      by (unfold crossings_under; rewrite Hk; reflexivity).
    destruct (visit_crossings_spec strand cs) with (st := st)
      as [st1 [H1 [Hc1 [Hp1 Hq1]]]]; try assumption.
    { rewrite Hcs. apply incl_refl. }
    rewrite H1. simpl.
    destruct (grows_lookup _ _ seed part (proj1 Hp1) Hl) as [more Hl1].
    pose proof (grows_part_length _ _ seed _ _ (proj1 Hp1) Hl Hl1) as Hlen.
    pose proof (consistent_size st1 Hc1) as Hsz1.
    assert (Hjlt : j < length part) by (apply nth_error_Some; congruence).
    destruct (IH (S j) st1 Hc1) as [st2 [H2 [Hc2 [Hp2 Hq2]]]].
    { rewrite (grows_keys _ _ (proj1 Hp1)). exact Hseed. }
    { rewrite Hl1. pose proof (progress_size _ _ Hp1) as Hmono.
      unfold size in *. plain_types. lia. }
    exists st2. split; [exact H2|]. split; [exact Hc2|].
    split; [eapply progress_trans; eassumption|].
    intros E. pose proof (progress_back st st1 st2 Hp1 Hp2 E) as E1. subst st1 st2.
    rewrite Hl in Hq2. intros s c Hs Hin.
    rewrite (skipn_nth_error _ _ _ Hj) in Hs. destruct Hs as [<-|Hs].
    + apply Hq1; [reflexivity|]. rewrite <- Hcs. exact Hin.
    + apply (Hq2 eq_refl s c Hs Hin).
  - exists st. split; [reflexivity|]. split; [exact Hc|].
    split; [apply progress_refl|]. intros _ s c Hs.
    apply nth_error_None in Hj. rewrite skipn_all2 in Hs by exact Hj.
    contradiction.
Qed.

Lemma visit_seeds_spec (fuel : nat) :
  length knot < fuel ->
  forall todo st,
    consistent knot seeds st ->
    incl todo (keys (strand_colors_dict st)) ->
    exists st',
      visit_seeds fuel knot todo st = Return st' /\
      consistent knot seeds st' /\ progress st st' /\
      (st' = st ->
       forall seed s c, In seed todo ->
                        In s (part_of seed (strand_colors_dict st)) ->
                        In c (crossings_under knot s) ->
                        quiet (strand_colors_dict st) c).
Proof.
  intros Hfuel. induction todo as [|seed todo IH]; intros st Hc Hincl; simpl.
  - exists st. split; [reflexivity|]. split; [exact Hc|].
    split; [apply progress_refl|]. intros _ seed s c [].
  - destruct (visit_strands_spec seed fuel 0 st Hc (Hincl seed (or_introl eq_refl)))
      as [st1 [H1 [Hc1 [Hp1 Hq1]]]].
    { pose proof (consistent_size st Hc) as Hsz.
      assert (Hlen : length (part_of seed (strand_colors_dict st)) <= size st).
      { unfold part_of.
        destruct (lookup seed (strand_colors_dict st)) as [p|] eqn:Hl.
        - apply (lookup_length _ _ _ Hl).
        - simpl. lia. }
      plain_types. lia. }
    rewrite H1. simpl.
    destruct (IH st1 Hc1) as [st2 [H2 [Hc2 [Hp2 Hq2]]]].
    { rewrite (grows_keys _ _ (proj1 Hp1)). intros x Hx. apply Hincl. right. exact Hx. }
    exists st2. split; [exact H2|]. split; [exact Hc2|].
    split; [eapply progress_trans; eassumption|].
    intros E. pose proof (progress_back st st1 st2 Hp1 Hp2 E) as E1. subst st1 st2.
    intros seed' s c [<-|Hin] Hs Hcin.
    + apply (Hq1 eq_refl s c); assumption.
    + apply (Hq2 eq_refl seed' s c); assumption.
Qed.

Lemma one_pass_spec (fuel : nat) (st : coloring) :
  length knot < fuel ->
  consistent knot seeds st ->
  exists st',
    one_pass fuel knot st = Return st' /\ consistent knot seeds st' /\
    grows (strand_colors_dict st) (strand_colors_dict st') /\
    ((st' = mk_coloring (strand_colors_dict st) (colored_strands st) false /\
      fixed knot (strand_colors_dict st)) \/
     (new_coloring st' = true /\ size st < size st')).
Proof.
  intros Hfuel Hc. unfold one_pass.
  set (st0 := mk_coloring (strand_colors_dict st) (colored_strands st) false).
  assert (Hc0 : consistent knot seeds st0) by (destruct Hc; constructor; assumption).
  destruct (visit_seeds_spec fuel Hfuel (keys (strand_colors_dict st)) st0 Hc0)
    as [st' [H' [Hc' [[Hg Hp] Hq]]]].
  { apply incl_refl. }
  exists st'. split; [exact H'|]. split; [exact Hc'|]. split; [exact Hg|].
  destruct Hp as [E|[Hflag Hsz]].
  - left. split; [exact E|]. intros s c Hs Hin.
    destruct (In_colored_set_lookup s _ (unique_keys _ _ _ Hc) Hs) as [k [p [Hl Hp]]].
    apply (Hq E k s c).
    + eapply lookup_In_keys. exact Hl.
    + unfold part_of. simpl. rewrite Hl. exact Hp.
    + exact Hin.
  - right. split; [exact Hflag | exact Hsz].
Qed.

Lemma one_pass_stable (fuel fuel' : nat) (st : coloring) :
  fuel <= fuel' -> stable (one_pass fuel knot st) (one_pass fuel' knot st).
Proof. intros Hle. apply visit_seeds_stable. exact Hle. Qed.

Lemma extend_spec (fuel : nat) :
  forall st,
    consistent knot seeds st ->
    new_coloring st = true ->
    length knot + (length knot - size st) + 2 <= fuel ->
    exists st',
      extend fuel knot st = Return st' /\ consistent knot seeds st' /\
      grows (strand_colors_dict st) (strand_colors_dict st') /\
      new_coloring st' = false /\ fixed knot (strand_colors_dict st') /\
      one_pass fuel knot st' = Return st'.
Proof.
  induction fuel as [|fuel IH]; intros st Hc Hflag Hfuel; [lia|].
  simpl. rewrite Hflag.
  destruct (one_pass_spec fuel st) as [st1 [H1 [Hc1 [Hg1 Hcase]]]];
    [lia | exact Hc |].
  rewrite H1. simpl. destruct Hcase as [[E Hfix]|[Hflag1 Hsz]].
  - subst st1. exists (mk_coloring (strand_colors_dict st) (colored_strands st) false).
    destruct fuel as [|fuel]; [lia|].
    split; [reflexivity|]. split; [exact Hc1|]. split; [exact Hg1|].
    split; [reflexivity|]. split; [exact Hfix|].
    apply (stable_Return _ _ _ (one_pass_stable (S fuel) (S (S fuel)) _ ltac:(lia))).
    exact H1.
  - pose proof (consistent_size st1 Hc1) as Hsz1.
    destruct (IH st1 Hc1 Hflag1) as [st2 [H2 [Hc2 [Hg2 [Hf2 [Hfix2 Hp2]]]]]];
      [lia|].
    exists st2. split; [exact H2|]. split; [exact Hc2|].
    split; [eapply grows_trans; eassumption|].
    split; [exact Hf2|]. split; [exact Hfix2|].
    apply (stable_Return _ _ _ (one_pass_stable fuel (S fuel) _ ltac:(lia))).
    exact Hp2.
Qed.

End Propagation.

(** ** The seeds before the loop *)

Lemma keys_dict_set {V : Type} (k k' : label) (v : V) (d : dict V) :
  In k' (keys (dict_set k v d)) <-> k' = k \/ In k' (keys d).
Proof.
  induction d as [|[k0 v0] d IH]; simpl.
  - intuition.
  - destruct (string_dec k k0) as [->|Hne]; simpl.
    + intuition.
    + rewrite IH. intuition.
Qed.

Lemma NoDup_keys_dict_set {V : Type} (k : label) (v : V) (d : dict V) :
  NoDup (keys d) -> NoDup (keys (dict_set k v d)).
Proof.
  induction d as [|[k0 v0] d IH]; simpl; intros Hnd.
  - constructor; [intros [] | constructor].
  - inversion Hnd as [|? ? Hk0 Hnd']; subst.
    destruct (string_dec k k0) as [->|Hne]; simpl.
    + constructor; assumption.
    + constructor; [|apply IH; exact Hnd'].
      rewrite keys_dict_set. intros [E|Hin]; [congruence | contradiction].
Qed.

Lemma empty_dict_set (k : label) (d : color_dict) :
  Forall (fun e => snd e = []) d -> Forall (fun e => snd e = []) (dict_set k [] d).
Proof.
  induction 1 as [|[k0 v0] d Hv Hd IH]; simpl.
  - constructor; [reflexivity | constructor].
  - destruct (string_dec k k0); constructor; auto.
Qed.

Lemma empty_parts_spec (seeds : list label) :
  forall d0 : color_dict,
    NoDup (keys d0) -> Forall (fun e => snd e = []) d0 ->
    let d := fold_left (fun d strand => dict_set strand [] d) seeds d0 in
    NoDup (keys d) /\ Forall (fun e => snd e = []) d /\
    forall k, In k (keys d) <-> In k seeds \/ In k (keys d0).
Proof.
  induction seeds as [|s seeds IH]; intros d0 Hnd Hv; simpl.
  - repeat split; try assumption; intuition.
  - destruct (IH (dict_set s [] d0) (NoDup_keys_dict_set s [] d0 Hnd)
                 (empty_dict_set s d0 Hv)) as [H1 [H2 H3]].
    repeat split; try assumption.
    + intros Hk. apply H3 in Hk. rewrite keys_dict_set in Hk. intuition.
    + intros Hk. apply H3. rewrite keys_dict_set. intuition.
Qed.

Lemma singleton_parts (d : color_dict) :
  Forall (fun e => snd e = []) d ->
  let d' := map (fun e => (fst e, snd e ++ [fst e])) d in
  keys d' = keys d /\ colored_set d' = keys d /\
  forall s, In s (keys d) -> lookup s d' = Some [s].
Proof.
  unfold colored_set. induction 1 as [|[k v] d Hv _ IH]; simpl.
  - repeat split. intros s [].
  - simpl in Hv. subst v. destruct IH as [H1 [H2 H3]].
    rewrite H1, H2. repeat split.
    intros s [<-|Hs].
    + destruct (string_dec k k); [reflexivity | congruence].
    + destruct (string_dec s k) as [->|_]; [reflexivity | apply H3; exact Hs].
Qed.

Lemma seed_coloring_spec (knot : knot_dict) (seeds : list label) :
  incl seeds (keys knot) ->
  consistent knot seeds (seed_coloring seeds) /\
  (forall k, In k (keys (strand_colors_dict (seed_coloring seeds))) <-> In k seeds) /\
  (forall s, In s seeds ->
     lookup s (strand_colors_dict (seed_coloring seeds)) = Some [s]).
Proof.
  intros Hincl.
  destruct (empty_parts_spec seeds [] (NoDup_nil _) (Forall_nil _)) as [Hnd [Hv Hk]].
  destruct (singleton_parts _ Hv) as [Hkeys [Hset Hl]].
  assert (Hk' : forall k, In k (keys (strand_colors_dict (seed_coloring seeds)))
                          <-> In k seeds).
  { intros k. simpl. rewrite Hkeys, Hk. simpl. tauto. }
  split; [|split; [exact Hk'|]].
  - constructor; simpl.
    + rewrite Hkeys. exact Hnd.
    + rewrite Hset. exact Hnd.
    + intros x. rewrite Hset, Hk. simpl. tauto.
    + rewrite Hset. intros x Hx. apply Hincl. apply Hk in Hx. simpl in Hx. tauto.
    + rewrite Hset. intros x Hx. apply reach_seed. apply Hk in Hx. simpl in Hx. tauto.
  - intros s Hs. simpl. apply Hl. apply Hk. left. exact Hs.
Qed.

(** ** The rule at one crossing *)

(** A strand that is coloured keeps its colour while the dictionary grows
    with disjoint parts. *)
Lemma grows_find_color (d d' : color_dict) (x : label) :
  NoDup (keys d) -> NoDup (colored_set d') -> grows d d' ->
  In x (colored_set d) -> find_color x d' = find_color x d.
Proof.
  intros Hk Hnd Hg Hx.
  destruct (find_color_lookup x d Hk (proj2 (is_colored_In _ _) Hx)) as [p [Hl Hp]].
  destruct (grows_lookup _ _ _ _ Hg Hl) as [more Hl'].
  apply (part_find_color x _ d' _ Hnd Hl'). apply in_or_app. left. exact Hp.
Qed.

Lemma assign_result (st : coloring) (source x : label) :
  NoDup (keys (strand_colors_dict st)) ->
  NoDup (colored_set (strand_colors_dict st)) ->
  In source (colored_set (strand_colors_dict st)) ->
  ~ In x (colored_set (strand_colors_dict st)) ->
  exists d',
    assign source x st = Return (mk_coloring d' (colored_strands st ++ [x]) true) /\
    grows (strand_colors_dict st) d' /\
    Permutation (x :: colored_set (strand_colors_dict st)) (colored_set d') /\
    find_color x d' = find_color source (strand_colors_dict st).
Proof.
  intros Hk Hnd Hsrc Hx.
  destruct (find_color_lookup source _ Hk (proj2 (is_colored_In _ _) Hsrc))
    as [p [Hl Hp]].
  destruct (dict_append_grows _ x _ p Hl) as [d' [Ha [Hg [Hl' Hperm]]]].
  unfold assign. rewrite Ha. exists d'. split; [reflexivity|].
  split; [exact Hg|]. split; [exact Hperm|].
  apply (part_find_color x _ d' (p ++ [x])); [|exact Hl'|].
  - eapply Permutation_NoDup; [exact Hperm|]. constructor; assumption.
  - apply in_or_app. right. left. reflexivity.
Qed.

(** What one visit of a crossing does, by the colours of its two
    under-strands. *)
Lemma color_crossing_rule (knot : knot_dict) (seeds : list label)
  (st : coloring) (c : crossing) :
  consistent knot seeds st ->
  let d := strand_colors_dict st in
  (quiet d c -> color_crossing c st = Return st) /\
  (In (fst c) (colored_set d) -> ~ In (snd c) (colored_set d) ->
   exists d',
     color_crossing c st
       = Return (mk_coloring d' (colored_strands st ++ [snd c]) true) /\
     grows d d' /\
     Permutation (snd c :: colored_set d) (colored_set d') /\
     find_color (snd c) d' = find_color (fst c) d) /\
  (~ In (fst c) (colored_set d) -> In (snd c) (colored_set d) ->
   exists d',
     color_crossing c st
       = Return (mk_coloring d' (colored_strands st ++ [fst c]) true) /\
     grows d d' /\
     Permutation (fst c :: colored_set d) (colored_set d') /\
     find_color (fst c) d' = find_color (snd c) d).
Proof.
  intros Hc d. subst d. destruct c as [c0 c1]. unfold quiet, color_crossing. simpl.
  pose proof (mem_colored knot seeds st c0 Hc) as M0.
  pose proof (mem_colored knot seeds st c1 Hc) as M1.
  destruct Hc as [Hk Hnd _ _ _].
  split; [|split].
  - intros Hq.
    destruct (mem c0 (colored_strands st)); destruct (mem c1 (colored_strands st));
      simpl; try reflexivity; exfalso.
    + assert (true = true) as E by reflexivity. apply M0, Hq, M1 in E. discriminate.
    + assert (true = true) as E by reflexivity. apply M1, Hq, M0 in E. discriminate.
  - intros H0 H1. apply M0 in H0. rewrite H0.
    destruct (mem c1 (colored_strands st)) eqn:E1.
    + contradiction H1. apply M1. reflexivity.
    + simpl. apply assign_result; try assumption. apply M0. exact H0.
  - intros H0 H1. apply M1 in H1. rewrite H1.
    destruct (mem c0 (colored_strands st)) eqn:E0.
    + contradiction H0. apply M0. reflexivity.
    + simpl. apply assign_result; try assumption. apply M1. exact H1.
Qed.

(** ** The result of [maximally_extend] *)

Lemma maximally_extend_spec (knot : knot_dict) (seeds : list label) (fuel : nat) :
  closed knot -> incl seeds (keys knot) -> 2 * length knot + 2 <= fuel ->
  exists st,
    extend fuel knot (seed_coloring seeds) = Return st /\
    maximally_extend fuel seeds knot = Return (strand_colors_dict st) /\
    consistent knot seeds st /\
    grows (strand_colors_dict (seed_coloring seeds)) (strand_colors_dict st) /\
    fixed knot (strand_colors_dict st) /\
    one_pass fuel knot st = Return st.
Proof.
  intros Hclosed Hincl Hfuel.
  destruct (seed_coloring_spec knot seeds Hincl) as [Hc _].
  destruct (extend_spec knot seeds Hclosed fuel (seed_coloring seeds) Hc eq_refl)
    as [st [He [Hc' [Hg [_ [Hfix Hpass]]]]]]; [lia|].
  exists st. unfold maximally_extend. rewrite He. simpl. auto 10.
Qed.

Lemma seeds_colored (knot : knot_dict) (seeds : list label) (d : color_dict) :
  incl seeds (keys knot) ->
  grows (strand_colors_dict (seed_coloring seeds)) d ->
  incl seeds (colored_set d).
Proof.
  intros Hincl Hg s Hs.
  destruct (seed_coloring_spec knot seeds Hincl) as [_ [_ Hl]].
  apply (grows_In _ _ s Hg).
  apply (lookup_In_colored_set s _ [s] s (Hl s Hs)). left. reflexivity.
Qed.

Lemma fixed_reach (knot : knot_dict) (seeds : list label) (d : color_dict) :
  fixed knot d -> incl seeds (colored_set d) ->
  forall x, reach knot seeds x -> In x (colored_set d).
Proof.
  intros Hfix Hincl x Hr.
  induction Hr as [s Hs | s c _ IHs Hc _ IHc | s c _ IHs Hc _ IHc].
  - apply Hincl. exact Hs.
  - apply (Hfix s c IHs Hc). exact IHc.
  - apply (Hfix s c IHs Hc). exact IHc.
Qed.

(** The coloured strands of the result are the strands the rule can reach
    from the seeds. *)
Lemma maximally_extend_reach (knot : knot_dict) (seeds : list label) (fuel : nat) :
  closed knot -> incl seeds (keys knot) -> 2 * length knot + 2 <= fuel ->
  exists d,
    maximally_extend fuel seeds knot = Return d /\
    NoDup (keys d) /\ NoDup (colored_set d) /\
    incl (colored_set d) (keys knot) /\
    forall x, In x (colored_set d) <-> reach knot seeds x.
Proof.
  intros Hclosed Hincl Hfuel.
  destruct (maximally_extend_spec knot seeds fuel Hclosed Hincl Hfuel)
    as [st [_ [Hm [Hc [Hg [Hfix _]]]]]].
  exists (strand_colors_dict st). split; [exact Hm|].
  destruct Hc as [Hk Hnd _ Hknown Hreached].
  repeat split; try assumption.
  - apply Hreached.
  - apply (fixed_reach knot seeds _ Hfix).
    apply (seeds_colored knot seeds _ Hincl Hg).
Qed.

Ltac solve_closed :=
  let c := fresh "c" in
  let Hc := fresh "Hc" in
  intros c Hc; unfold all_crossings in Hc; simpl in Hc;
  repeat (destruct Hc as [<-|Hc]; [simpl; intuition|]); contradiction.

Lemma two_over_two_closed : closed two_over_two_knot.
Proof. solve_closed. Qed.

(** C6: on a diagram whose crossings name strands of the diagram and for
    seeds among its strands, [maximally_extend] returns. The partition
    starts with every seed alone in the part of its own name and only
    grows at the end of parts; a visit of a crossing under a coloured
    strand leaves the state as it is when both under-strands are coloured
    or neither is, and otherwise puts the uncoloured one into the part of
    the coloured one; the returned partition is a fixed point of that rule
    and one more full pass over it assigns nothing. *)
Theorem maximally_extend_fixed_point (knot : knot_dict) (seeds : list label)
  (fuel : nat) :
  closed knot -> incl seeds (keys knot) -> 2 * length knot + 2 <= fuel ->
  let start := strand_colors_dict (seed_coloring seeds) in
  (forall s, In s seeds -> lookup s start = Some [s]) /\
  (forall k, In k (keys start) -> In k seeds) /\
  (forall st c,
      consistent knot seeds st ->
      let d := strand_colors_dict st in
      (quiet d c -> color_crossing c st = Return st) /\
      (In (fst c) (colored_set d) -> ~ In (snd c) (colored_set d) ->
       exists d',
         color_crossing c st
           = Return (mk_coloring d' (colored_strands st ++ [snd c]) true) /\
         grows d d' /\
         Permutation (snd c :: colored_set d) (colored_set d') /\
         find_color (snd c) d' = find_color (fst c) d) /\
      (~ In (fst c) (colored_set d) -> In (snd c) (colored_set d) ->
       exists d',
         color_crossing c st
           = Return (mk_coloring d' (colored_strands st ++ [fst c]) true) /\
         grows d d' /\
         Permutation (fst c :: colored_set d) (colored_set d') /\
         find_color (fst c) d' = find_color (snd c) d)) /\
  exists st,
    extend fuel knot (seed_coloring seeds) = Return st /\
    maximally_extend fuel seeds knot = Return (strand_colors_dict st) /\
    consistent knot seeds st /\
    grows start (strand_colors_dict st) /\
    fixed knot (strand_colors_dict st) /\
    one_pass fuel knot st = Return st.
Proof.
  intros Hclosed Hincl Hfuel start.
  destruct (seed_coloring_spec knot seeds Hincl) as [_ [Hk Hl]].
  split; [exact Hl|]. split; [intros k; apply Hk|]. split.
  - intros st c Hc. apply (color_crossing_rule knot seeds st c Hc).
  - apply maximally_extend_spec; assumption.
Qed.

Lemma maximally_extend_fixed_point_witness :
  exists st,
    extend 10 two_over_two_knot (seed_coloring ["A"; "B"; "C"]) = Return st /\
    maximally_extend 10 ["A"; "B"; "C"] two_over_two_knot
      = Return (strand_colors_dict st) /\
    fixed two_over_two_knot (strand_colors_dict st) /\
    one_pass 10 two_over_two_knot st = Return st.
Proof.
  destruct (maximally_extend_fixed_point two_over_two_knot ["A"; "B"; "C"] 10)
    as [_ [_ [_ [st [He [Hm [_ [_ [Hfix Hpass]]]]]]]]].
  - exact two_over_two_closed.
  - intros x Hx. simpl in *. intuition.
  - simpl. lia.
  - exists st. auto.
Defined.

(** ** Visit order *)

Lemma reordered_keys (knot knot' : knot_dict) :
  reordered knot knot' -> keys knot' = keys knot.
Proof.
  induction 1 as [|e e' k k' [Hk _] _ IH]; simpl; [reflexivity|].
  rewrite Hk, IH. reflexivity.
Qed.

Lemma reordered_length (knot knot' : knot_dict) :
  reordered knot knot' -> length knot' = length knot.
Proof. intros H. symmetry. eapply Forall2_length. exact H. Qed.

Lemma reordered_crossings_under (knot knot' : knot_dict) (s : label) :
  reordered knot knot' ->
  Permutation (crossings_under knot s) (crossings_under knot' s).
Proof.
  unfold crossings_under.
  induction 1 as [|[k [t cs]] [k' [t' cs']] d d' [Hk [_ Hp]] _ IH]; simpl.
  - constructor.
  - simpl in Hk. subst k'. unfold crossings_of in Hp. simpl in Hp.
    destruct (string_dec s k); [exact Hp | exact IH].
Qed.

Lemma reordered_all_crossings (knot knot' : knot_dict) :
  reordered knot knot' ->
  Permutation (all_crossings knot) (all_crossings knot').
Proof.
  unfold all_crossings.
  induction 1 as [|e e' d d' [_ [_ Hp]] _ IH]; simpl; [constructor|].
  apply Permutation_app; assumption.
Qed.

Lemma reordered_closed (knot knot' : knot_dict) :
  reordered knot knot' -> closed knot -> closed knot'.
Proof.
  intros Hr Hc c Hin. rewrite (reordered_keys _ _ Hr). apply Hc.
  apply (Permutation_in _ (Permutation_sym (reordered_all_crossings _ _ Hr))).
  exact Hin.
Qed.

Lemma reach_transfer (knot knot' : knot_dict) (seeds seeds' : list label) :
  incl seeds seeds' ->
  (forall s c, In c (crossings_under knot s) -> In c (crossings_under knot' s)) ->
  forall x, reach knot seeds x -> reach knot' seeds' x.
Proof.
  intros Hs Hc x Hr.
  induction Hr as [s Hin | s c _ IHs Hin _ IHc | s c _ IHs Hin _ IHc].
  - apply reach_seed. apply Hs. exact Hin.
  - apply (reach_snd knot' seeds' s c); auto.
  - apply (reach_fst knot' seeds' s c); auto.
Qed.

(** C7, as the code has it: the set of coloured strands of the result does
    not depend on the order of the seeds or on the order of the crossings
    of a strand; it is the set of strands the rule reaches from the seeds.
    Which part a strand lands in is not promised. *)
Theorem colored_set_order_independent (knot knot' : knot_dict)
  (seeds seeds' : list label) (fuel : nat) :
  closed knot -> incl seeds (keys knot) ->
  Permutation seeds seeds' -> reordered knot knot' ->
  2 * length knot + 2 <= fuel ->
  exists d d',
    maximally_extend fuel seeds knot = Return d /\
    maximally_extend fuel seeds' knot' = Return d' /\
    (forall x, In x (colored_set d) <-> In x (colored_set d')) /\
    (forall x, In x (colored_set d) <-> reach knot seeds x).
Proof.
  intros Hclosed Hincl Hperm Hre Hfuel.
  destruct (maximally_extend_reach knot seeds fuel Hclosed Hincl Hfuel)
    as [d [Hd [_ [_ [_ Hr]]]]].
  destruct (maximally_extend_reach knot' seeds' fuel) as [d' [Hd' [_ [_ [_ Hr']]]]].
  - eapply reordered_closed; eassumption.
  - rewrite (reordered_keys _ _ Hre). intros x Hx. apply Hincl.
    apply (Permutation_in _ (Permutation_sym Hperm)). exact Hx.
  - rewrite (reordered_length _ _ Hre). exact Hfuel.
  - exists d, d'. split; [exact Hd|]. split; [exact Hd'|]. split; [|exact Hr].
    intros x. rewrite Hr, Hr'. split; apply reach_transfer.
    + intros s. apply Permutation_in. exact Hperm.
    + intros s c. apply Permutation_in. apply reordered_crossings_under. exact Hre.
    + intros s. apply Permutation_in. apply Permutation_sym. exact Hperm.
    + intros s c. apply Permutation_in. apply Permutation_sym.
      apply reordered_crossings_under. exact Hre.
Qed.

Lemma reverse_crossings_reordered (knot : knot_dict) :
  reordered knot (reverse_crossings knot).
Proof.
  induction knot as [|e knot IH]; constructor; [|exact IH].
  repeat split. apply Permutation_rev.
Qed.

Lemma colored_set_order_independent_witness :
  exists d d',
    maximally_extend 10 ["A"; "B"; "C"] two_over_two_knot = Return d /\
    maximally_extend 10 ["C"; "B"; "A"] (reverse_crossings two_over_two_knot)
      = Return d' /\
    (forall x, In x (colored_set d) <-> In x (colored_set d')) /\
    (forall x, In x (colored_set d) <-> reach two_over_two_knot ["A"; "B"; "C"] x).
Proof.
  apply (colored_set_order_independent two_over_two_knot
           (reverse_crossings two_over_two_knot) ["A"; "B"; "C"] ["C"; "B"; "A"] 10).
  - exact two_over_two_closed.
  - intros x Hx. simpl in *. intuition.
  - apply (Permutation_rev ["A"; "B"; "C"]).
  - apply reverse_crossings_reordered.
  - simpl. lia.
Defined.

(** C7 as stated fails. In the diagram of [-1, 2, 3, -2, -3, 4, 1, -4]
    with seeds A, B, C the strand D joins the part of C; with the two
    crossings of every strand visited in the other order it joins the part
    of A. *)
Lemma parts_depend_on_visit_order :
  create_knot_dictionary insertion_order 10 two_over_two = Return two_over_two_knot /\
  maximally_extend 10 ["A"; "B"; "C"] two_over_two_knot
    = Return [("A", ["A"]); ("B", ["B"]); ("C", ["C"; "D"])] /\
  maximally_extend 10 ["A"; "B"; "C"] (reverse_crossings two_over_two_knot)
    = Return [("A", ["A"; "D"]); ("B", ["B"]); ("C", ["C"])].
Proof.
  repeat split; reflexivity.
Qed.

(** ** Every step of a trial *)

Lemma ForallOrdPairs_app {A : Type} (R : A -> A -> Prop) (l1 l2 : list A) :
  ForallOrdPairs R l1 -> ForallOrdPairs R l2 ->
  (forall a b, In a l1 -> In b l2 -> R a b) ->
  ForallOrdPairs R (l1 ++ l2).
Proof.
  induction 1 as [|a l1 Ha _ IH]; intros H2 Hcross; simpl; [exact H2|].
  constructor.
  - apply Forall_app. split; [exact Ha|].
    apply Forall_forall. intros b Hb. apply Hcross; [left; reflexivity | exact Hb].
  - apply IH; [exact H2|]. intros x y Hx Hy. apply Hcross; [right; exact Hx | exact Hy].
Qed.

Lemma last_cons_default {A : Type} (x d : A) (l : list A) :
  last (x :: l) d = last l x.
Proof.
  revert x d. induction l as [|y l IH]; intros x d; [reflexivity|].
  change (last (x :: y :: l) d) with (last (y :: l) d).
  rewrite (IH y d), (IH y x). reflexivity.
Qed.

Lemma last_app_default {A : Type} (l1 l2 : list A) (d : A) :
  last (l1 ++ l2) d = last l2 (last l1 d).
Proof.
  revert d. induction l1 as [|x l1 IH]; intros d; [reflexivity|].
  simpl app. rewrite !last_cons_default. apply IH.
Qed.

Section Trace.

Variable knot : knot_dict.
Variable seeds : list label.
Hypothesis knot_closed : closed knot.

Lemma ordered_trace_nil (d : color_dict) : ordered_trace knot seeds d d [].
Proof.
  split; [apply grows_refl|]. split; [constructor|]. split; [constructor|reflexivity].
Qed.

Lemma ordered_trace_app (d d1 d2 : color_dict) (t1 t2 : list coloring) :
  ordered_trace knot seeds d d1 t1 -> ordered_trace knot seeds d1 d2 t2 ->
  ordered_trace knot seeds d d2 (t1 ++ t2).
Proof.
  intros [Hg1 [Hf1 [Ho1 Hl1]]] [Hg2 [Hf2 [Ho2 Hl2]]].
  rewrite Forall_forall in Hf1, Hf2.
  split; [eapply grows_trans; eassumption|]. split; [|split].
  - apply Forall_app. split; apply Forall_forall; intros x Hx.
    + destruct (Hf1 x Hx) as [Hc [Ha Hb]]. split; [exact Hc|]. split; [exact Ha|].
      eapply grows_trans; eassumption.
    + destruct (Hf2 x Hx) as [Hc [Ha Hb]]. split; [exact Hc|]. split; [|exact Hb].
      eapply grows_trans; eassumption.
  - apply ForallOrdPairs_app; try assumption.
    intros a b Ha Hb. eapply grows_trans.
    + apply (Hf1 a Ha).
    + apply (Hf2 b Hb).
  - rewrite map_app, last_app_default, Hl1. exact Hl2.
Qed.

Lemma ordered_trace_cons (d d' : color_dict) (st : coloring) (tr : list coloring) :
  consistent knot seeds st -> grows d (strand_colors_dict st) ->
  ordered_trace knot seeds (strand_colors_dict st) d' tr ->
  ordered_trace knot seeds d d' (st :: tr).
Proof.
  intros Hc Hg Htr.
  apply (ordered_trace_app d (strand_colors_dict st) d' [st] tr); [|exact Htr].
  split; [exact Hg|]. split; [|split].
  - constructor; [|constructor]. split; [exact Hc|]. split; [exact Hg | apply grows_refl].
  - constructor; constructor.
  - reflexivity.
Qed.

Lemma trace_crossings_ordered (s : label) (cs : list crossing) :
  incl cs (crossings_under knot s) ->
  forall st st',
    consistent knot seeds st ->
    In s (colored_set (strand_colors_dict st)) ->
    visit_crossings cs st = Return st' ->
    consistent knot seeds st' /\ progress st st' /\
    ordered_trace knot seeds (strand_colors_dict st) (strand_colors_dict st')
      (trace_crossings cs st).
Proof.
  induction cs as [|c cs IH]; intros Hincl st st' Hc Hs Hv; simpl in *.
  - injection Hv as <-. split; [exact Hc|]. split; [apply progress_refl|].
    apply ordered_trace_nil.
  - destruct (color_crossing_spec knot seeds knot_closed st c s Hc Hs
                (Hincl c (or_introl eq_refl))) as [st1 [H1 [Hc1 [Hp1 _]]]].
    rewrite H1 in *. simpl in Hv.
    destruct (IH (fun x Hx => Hincl x (or_intror Hx)) st1 st' Hc1
                 (grows_In _ _ s (proj1 Hp1) Hs) Hv) as [Hc' [Hp' Htr]].
    split; [exact Hc'|]. split; [eapply progress_trans; eassumption|].
    apply ordered_trace_cons; [exact Hc1 | exact (proj1 Hp1) | exact Htr].
Qed.

Lemma trace_strands_ordered (seed : label) (fuel : nat) :
  forall j st st',
    consistent knot seeds st ->
    visit_strands fuel knot seed j st = Return st' ->
    consistent knot seeds st' /\ progress st st' /\
    ordered_trace knot seeds (strand_colors_dict st) (strand_colors_dict st')
      (trace_strands fuel knot seed j st).
Proof.
  induction fuel as [|fuel IH]; intros j st st' Hc Hv; simpl in *; [discriminate|].
  destruct (lookup seed (strand_colors_dict st)) as [part|] eqn:Hl; [|discriminate].
  destruct (nth_error part j) as [strand|] eqn:Hj.
  - destruct (lookup strand knot) as [[t cs]|] eqn:Hk; [|discriminate].
    apply bind_Return in Hv. destruct Hv as [st1 [H1 H2]]. rewrite H1.
    assert (Hcs : crossings_under knot strand = cs)
      by (unfold crossings_under; rewrite Hk; reflexivity).
    destruct (trace_crossings_ordered strand cs) with (st := st) (st' := st1)
      as [Hc1 [Hp1 Ht1]]; try assumption.
    { rewrite Hcs. apply incl_refl. }
    { eapply lookup_In_colored_set; [exact Hl|]. eapply nth_error_In. exact Hj. }
    destruct (IH (S j) st1 st' Hc1 H2) as [Hc' [Hp' Ht2]].
    split; [exact Hc'|]. split; [eapply progress_trans; eassumption|].
    eapply ordered_trace_app; eassumption.
  - injection Hv as <-. split; [exact Hc|]. split; [apply progress_refl|].
    apply ordered_trace_nil.
Qed.

Lemma trace_seeds_ordered (fuel : nat) (todo : list label) :
  forall st st',
    consistent knot seeds st ->
    visit_seeds fuel knot todo st = Return st' ->
    consistent knot seeds st' /\ progress st st' /\
    ordered_trace knot seeds (strand_colors_dict st) (strand_colors_dict st')
      (trace_seeds fuel knot todo st).
Proof.
  induction todo as [|seed todo IH]; intros st st' Hc Hv; simpl in *.
  - injection Hv as <-. split; [exact Hc|]. split; [apply progress_refl|].
    apply ordered_trace_nil.
  - apply bind_Return in Hv. destruct Hv as [st1 [H1 H2]]. rewrite H1.
    destruct (trace_strands_ordered seed fuel 0 st st1 Hc H1) as [Hc1 [Hp1 Ht1]].
    destruct (IH st1 st' Hc1 H2) as [Hc' [Hp' Ht2]].
    split; [exact Hc'|]. split; [eapply progress_trans; eassumption|].
    eapply ordered_trace_app; eassumption.
Qed.

Lemma trace_pass_ordered (fuel : nat) (st st' : coloring) :
  consistent knot seeds st ->
  one_pass fuel knot st = Return st' ->
  consistent knot seeds st' /\
  ordered_trace knot seeds (strand_colors_dict st) (strand_colors_dict st')
    (trace_pass fuel knot st).
Proof.
  intros Hc Hv. unfold one_pass in Hv. unfold trace_pass.
  assert (Hc0 : consistent knot seeds
                  (mk_coloring (strand_colors_dict st) (colored_strands st) false))
    by (destruct Hc; constructor; assumption).
  destruct (trace_seeds_ordered fuel _ _ st' Hc0 Hv) as [Hc' [_ Ht]].
  split; [exact Hc' | exact Ht].
Qed.

Lemma trace_extend_ordered (fuel : nat) :
  forall st st',
    consistent knot seeds st ->
    extend fuel knot st = Return st' ->
    ordered_trace knot seeds (strand_colors_dict st) (strand_colors_dict st')
      (trace_extend fuel knot st).
Proof.
  induction fuel as [|fuel IH]; intros st st' Hc Hv; simpl in *; [discriminate|].
  destruct (new_coloring st).
  - apply bind_Return in Hv. destruct Hv as [st1 [H1 H2]]. rewrite H1.
    destruct (trace_pass_ordered fuel st st1 Hc H1) as [Hc1 Ht1].
    eapply ordered_trace_app; [exact Ht1|]. apply IH; assumption.
  - injection Hv as <-. apply ordered_trace_nil.
Qed.

End Trace.

Lemma disjoint_lookup (d : color_dict) (k k' : label) (p p' : list label) (x : label) :
  NoDup (colored_set d) ->
  lookup k d = Some p -> lookup k' d = Some p' -> In x p -> In x p' -> k = k'.
Proof.
  intros Hnd Hl Hl' Hx Hx'.
  rewrite <- (part_find_color x k d p Hnd Hl Hx).
  apply (part_find_color x k' d p' Hnd Hl' Hx').
Qed.

(** C8: in a trial on a diagram whose crossings name strands of the
    diagram, with seeds among its strands, the partition before the loop
    and after every visit of a crossing has pairwise disjoint parts, and a
    strand coloured at one step is still coloured, in the same part, at
    every later step. The last partition of the trace is the one
    [maximally_extend] returns. *)
Theorem parts_stay_disjoint (knot : knot_dict) (seeds : list label) (fuel : nat) :
  closed knot -> incl seeds (keys knot) -> 2 * length knot + 2 <= fuel ->
  let tr := maximally_extend_trace fuel seeds knot in
  maximally_extend fuel seeds knot
    = Return (last tr (strand_colors_dict (seed_coloring seeds))) /\
  Forall (fun d => forall k k' p p' x,
              lookup k d = Some p -> lookup k' d = Some p' ->
              In x p -> In x p' -> k = k') tr /\
  ForallOrdPairs (fun d d' => forall x,
              is_colored x d = true ->
              is_colored x d' = true /\ find_color x d' = find_color x d) tr.
Proof.
  intros Hclosed Hincl Hfuel tr.
  destruct (maximally_extend_spec knot seeds fuel Hclosed Hincl Hfuel)
    as [st [He [Hm _]]].
  destruct (seed_coloring_spec knot seeds Hincl) as [Hc0 _].
  pose proof (trace_extend_ordered knot seeds Hclosed fuel _ st Hc0 He) as Htr.
  pose proof (ordered_trace_cons knot seeds _ _ _ _ Hc0 (grows_refl _) Htr)
    as [_ [Hall [Hord Hlast]]].
  subst tr. unfold maximally_extend_trace. split; [|split].
  - rewrite Hlast. exact Hm.
  - apply Forall_map. eapply Forall_impl; [|exact Hall].
    intros x [Hc _] k k' p p' y. apply disjoint_lookup.
    apply (disjoint_parts _ _ _ Hc).
  - clear Hlast. revert Hall Hord.
    generalize (seed_coloring seeds :: trace_extend fuel knot (seed_coloring seeds)).
    intros l Hall Hord. induction Hord as [|a l Ha Hord IH]; simpl; [constructor|].
    inversion Hall as [|? ? [Hca _] Hall']; subst.
    constructor; [|apply IH; exact Hall'].
    apply Forall_map. rewrite Forall_forall in *. intros b Hb y Hy.
    destruct (Hall' b Hb) as [Hcb _]. apply is_colored_In in Hy. split.
    + apply is_colored_In. apply (grows_In _ _ y (Ha b Hb) Hy).
    + apply grows_find_color; try assumption.
      * apply (unique_keys _ _ _ Hca).
      * apply (disjoint_parts _ _ _ Hcb).
      * apply (Ha b Hb).
Qed.

Lemma parts_stay_disjoint_witness :
  let tr := maximally_extend_trace 10 ["A"; "B"; "C"] two_over_two_knot in
  maximally_extend 10 ["A"; "B"; "C"] two_over_two_knot
    = Return (last tr (strand_colors_dict (seed_coloring ["A"; "B"; "C"]))) /\
  Forall (fun d => forall k k' p p' x,
              lookup k d = Some p -> lookup k' d = Some p' ->
              In x p -> In x p' -> k = k') tr /\
  ForallOrdPairs (fun d d' => forall x,
              is_colored x d = true ->
              is_colored x d' = true /\ find_color x d' = find_color x d) tr.
Proof.
  apply (parts_stay_disjoint two_over_two_knot ["A"; "B"; "C"] 10).
  - exact two_over_two_closed.
  - intros x Hx. simpl in *. intuition.
  - simpl. lia.
Defined.

(** ** Walking the circular code *)

Lemma advance_lt (g : list Z) (i : nat) : g <> [] -> advance g i < length g.
Proof.
  intros Hg. unfold advance. apply Nat.mod_upper_bound.
  destruct g; [contradiction Hg; reflexivity | simpl; lia].
Qed.

Lemma advance_next (g : list Z) (i : nat) : S i < length g -> advance g i = S i.
Proof. intros H. unfold advance. apply Nat.mod_small. exact H. Qed.

Lemma advance_wrap (g : list Z) (i : nat) : S i = length g -> advance g i = 0.
Proof. intros H. unfold advance. rewrite H. apply Nat.Div0.mod_same. Qed.

(** A list is all [f], or has a first entry that is not. *)
Lemma first_failure {A : Type} (f : A -> bool) (l : list A) :
  forallb f l = true \/
  exists mid x post, l = mid ++ x :: post /\ forallb f mid = true /\ f x = false.
Proof.
  induction l as [|a l IH]; [left; reflexivity|].
  destruct (f a) eqn:Ha.
  - destruct IH as [IH|[mid [x [post [-> [Hmid Hx]]]]]].
    + left. simpl. rewrite Ha. exact IH.
    + right. exists (a :: mid), x, post. simpl. rewrite Ha. auto.
  - right. exists [], a, l. auto.
Qed.

Lemma nth_error_middle {A : Type} (pre post : list A) (x : A) :
  nth_error (pre ++ x :: post) (length pre) = Some x.
Proof.
  rewrite nth_error_app2 by lia. rewrite Nat.sub_diag. reflexivity.
Qed.

Lemma skip_overs_run (g : list Z) (mid : list Z) :
  forall pre x post fuel,
    g = pre ++ mid ++ x :: post ->
    forallb (fun v => (0 <? v)%Z) mid = true -> (0 <? x)%Z = false ->
    length mid < fuel ->
    skip_overs fuel g (length pre) = Return (length pre + length mid).
Proof.
  induction mid as [|m mid IH]; intros pre x post fuel Hg Hmid Hx Hfuel;
    (destruct fuel as [|fuel]; [simpl in Hfuel; lia|]); simpl in *.
  - rewrite Hg, nth_error_middle, Hx. f_equal. lia.
  - apply andb_prop in Hmid. destruct Hmid as [Hm Hmid].
    rewrite Hg at 1. rewrite nth_error_middle, Hm.
    rewrite advance_next by (rewrite Hg; repeat (rewrite length_app; simpl); lia).
    replace (S (length pre)) with (length (pre ++ [m])) by (rewrite length_app; simpl; lia).
    rewrite (IH (pre ++ [m]) x post fuel); try assumption.
    + f_equal. rewrite length_app. simpl. lia.
    + rewrite Hg, <- app_assoc. reflexivity.
    + lia.
Qed.

Lemma skip_overs_wrap (g : list Z) (mid : list Z) :
  forall pre head x tail fuel,
    g = pre ++ mid -> mid <> [] ->
    forallb (fun v => (0 <? v)%Z) mid = true ->
    g = head ++ x :: tail ->
    forallb (fun v => (0 <? v)%Z) head = true -> (0 <? x)%Z = false ->
    length mid + length head < fuel ->
    skip_overs fuel g (length pre) = Return (length head).
Proof.
  induction mid as [|m mid IH]; intros pre head x tail fuel Hg Hne Hmid Hh Hhead Hx Hfuel;
    [contradiction Hne; reflexivity|].
  destruct fuel as [|fuel]; [simpl in Hfuel; lia|]. simpl in *.
  apply andb_prop in Hmid. destruct Hmid as [Hm Hmid].
  rewrite Hg at 1. rewrite nth_error_middle, Hm.
  destruct mid as [|m' mid].
  - rewrite advance_wrap by (rewrite Hg, length_app; simpl; lia).
    apply (skip_overs_run g head [] x tail fuel); try assumption. simpl in *. lia.
  - rewrite advance_next by (rewrite Hg; repeat (rewrite length_app; simpl); lia).
    replace (S (length pre)) with (length (pre ++ [m])) by (rewrite length_app; simpl; lia).
    apply (IH (pre ++ [m]) head x tail fuel); try assumption.
    + rewrite Hg, <- app_assoc. reflexivity.
    + discriminate.
    + simpl in *. lia.
Qed.

(** From any position the inner loop stops within one turn, if the code
    has an entry that is not an over-pass. *)
Lemma skip_overs_total (g : list Z) (i : nat) :
  i < length g ->
  (exists v, In v g /\ (0 <? v)%Z = false) ->
  exists e, e < length g /\
    forall fuel, length g < fuel -> skip_overs fuel g i = Return e.
Proof.
  intros Hi [v [Hv Hneg]].
  pose proof (firstn_skipn i g) as Hsplit.
  assert (Hlen : length (firstn i g) = i) by (rewrite length_firstn; lia).
  destruct (first_failure (fun v => (0 <? v)%Z) (skipn i g))
    as [Hall|[mid [x [post [Hs [Hmid Hx]]]]]].
  - destruct (first_failure (fun v => (0 <? v)%Z) (firstn i g))
      as [Hall'|[head [x [tail [Hf [Hhead Hx]]]]]].
    + exfalso. rewrite <- Hsplit in Hv. apply in_app_or in Hv.
      rewrite forallb_forall in Hall, Hall'.
      destruct Hv as [Hv|Hv]; [apply Hall' in Hv | apply Hall in Hv]; congruence.
    + exists (length head).
      assert (Hhl : length head < i).
      { rewrite <- Hlen, Hf, length_app. simpl. lia. }
      split; [lia|]. intros fuel Hfuel.
      pose proof (skip_overs_wrap g (skipn i g) (firstn i g) head x
                    (tail ++ skipn i g) fuel) as Hw.
      rewrite Hlen in Hw. apply Hw; try assumption.
      * symmetry. exact Hsplit.
      * intros E. apply (f_equal (@length Z)) in E. rewrite length_skipn in E.
        simpl in E. lia.
      * rewrite <- Hsplit at 1. rewrite Hf, <- app_assoc. reflexivity.
      * rewrite length_skipn. lia.
  - exists (i + length mid).
    assert (Hml : i + length mid < length g).
    { rewrite <- Hsplit. rewrite length_app, Hs, Hlen, length_app. simpl. lia. }
    split; [exact Hml|]. intros fuel Hfuel.
    pose proof (skip_overs_run g mid (firstn i g) x post fuel) as Hw.
    rewrite Hlen in Hw. apply Hw; try assumption.
    + rewrite <- Hs. symmetry. exact Hsplit.
    + lia.
Qed.

Lemma scan_strands_run (g : list Z) (mid : list Z) :
  forall pre x post fuel set,
    g = pre ++ mid ++ x :: post ->
    forallb (fun v => negb (v <? 0)%Z) mid = true ->
    scan_strands (length mid + fuel) g (length pre) set
      = scan_strands fuel g (length pre + length mid) set.
Proof.
  induction mid as [|m mid IH]; intros pre x post fuel set Hg Hmid; simpl in *.
  - rewrite Nat.add_0_r. reflexivity.
  - apply andb_prop in Hmid. destruct Hmid as [Hm Hmid].
    apply negb_true_iff in Hm.
    rewrite Hg at 1. rewrite nth_error_middle, Hm.
    rewrite advance_next by (rewrite Hg; repeat (rewrite length_app; simpl); lia).
    replace (S (length pre)) with (length (pre ++ [m])) by (rewrite length_app; simpl; lia).
    rewrite (IH (pre ++ [m]) x post fuel set); try assumption.
    + f_equal. rewrite length_app. simpl. lia.
    + rewrite Hg, <- app_assoc. reflexivity.
Qed.

Lemma scan_strands_wrap (g : list Z) (mid : list Z) :
  forall pre head x tail fuel set,
    g = pre ++ mid -> mid <> [] ->
    forallb (fun v => negb (v <? 0)%Z) mid = true ->
    g = head ++ x :: tail ->
    forallb (fun v => negb (v <? 0)%Z) head = true ->
    scan_strands (length mid + (length head + fuel)) g (length pre) set
      = scan_strands fuel g (length head) set.
Proof.
  induction mid as [|m mid IH]; intros pre head x tail fuel set Hg Hne Hmid Hh Hhead;
    [contradiction Hne; reflexivity|].
  simpl in *. apply andb_prop in Hmid. destruct Hmid as [Hm Hmid].
  apply negb_true_iff in Hm.
  rewrite Hg at 1. rewrite nth_error_middle, Hm.
  destruct mid as [|m' mid].
  - rewrite advance_wrap by (rewrite Hg, length_app; simpl; lia).
    apply (scan_strands_run g head [] x tail fuel set); assumption.
  - rewrite advance_next by (rewrite Hg; repeat (rewrite length_app; simpl); lia).
    replace (S (length pre)) with (length (pre ++ [m])) by (rewrite length_app; simpl; lia).
    apply (IH (pre ++ [m]) head x tail fuel set); try assumption.
    + rewrite Hg, <- app_assoc. reflexivity.
    + discriminate.
Qed.

(** From any position the outer loop reaches an under-pass within one
    turn, the set untouched. *)
Lemma scan_strands_to_under (g : list Z) (i : nat) :
  i < length g -> has_under g ->
  exists b d v,
    b < length g /\ d <= length g /\ nth_error g b = Some v /\ (v < 0)%Z /\
    forall fuel set,
      scan_strands (d + fuel) g i set = scan_strands fuel g b set.
Proof.
  intros Hi [v [Hv Hneg]].
  pose proof (firstn_skipn i g) as Hsplit.
  assert (Hlen : length (firstn i g) = i) by (rewrite length_firstn; lia).
  destruct (first_failure (fun v => negb (v <? 0)%Z) (skipn i g))
    as [Hall|[mid [x [post [Hs [Hmid Hx]]]]]].
  - destruct (first_failure (fun v => negb (v <? 0)%Z) (firstn i g))
      as [Hall'|[head [x [tail [Hf [Hhead Hx]]]]]].
    + exfalso. rewrite <- Hsplit in Hv. apply in_app_or in Hv.
      rewrite forallb_forall in Hall, Hall'. apply Z.ltb_lt in Hneg.
      destruct Hv as [Hv|Hv]; [apply Hall' in Hv | apply Hall in Hv];
        rewrite Hneg in Hv; discriminate.
    + assert (Hhl : length head < i).
      { rewrite <- Hlen, Hf, length_app. simpl. lia. }
      assert (Hg : g = head ++ x :: (tail ++ skipn i g)).
      { rewrite <- Hsplit at 1. rewrite Hf, <- app_assoc. reflexivity. }
      exists (length head), (length (skipn i g) + length head), x.
      split; [lia|]. split; [rewrite length_skipn; lia|].
      split; [rewrite Hg at 1; apply nth_error_middle|].
      split; [apply negb_false_iff, Z.ltb_lt in Hx; exact Hx|].
      intros fuel set. rewrite <- Nat.add_assoc.
      pose proof (scan_strands_wrap g (skipn i g) (firstn i g) head x
                    (tail ++ skipn i g) fuel set) as Hw.
      rewrite Hlen in Hw. apply Hw; try assumption.
      * symmetry. exact Hsplit.
      * intros E. apply (f_equal (@length Z)) in E. rewrite length_skipn in E.
        simpl in E. lia.
  - assert (Hg : g = firstn i g ++ mid ++ x :: post).
    { rewrite <- Hs. symmetry. exact Hsplit. }
    assert (Hml : i + length mid < length g).
    { rewrite Hg. rewrite length_app, Hlen, length_app. simpl. lia. }
    exists (i + length mid), (length mid), x.
    split; [exact Hml|]. split; [lia|].
    split.
    { rewrite Hg at 1. rewrite app_assoc.
      replace (i + length mid) with (length (firstn i g ++ mid))
        by (rewrite length_app, Hlen; reflexivity).
      apply nth_error_middle. }
    split; [apply negb_false_iff, Z.ltb_lt in Hx; exact Hx|].
    intros fuel set.
    pose proof (scan_strands_run g mid (firstn i g) x post fuel set) as Hw.
    rewrite Hlen in Hw. apply Hw; assumption.
Qed.

(** One turn of the outer loop on an under-pass. *)
Lemma scan_strands_step (g : list Z) (b : nat) (v : Z) :
  b < length g -> nth_error g b = Some v -> (v < 0)%Z ->
  exists e, e < length g /\
    skip_overs (S (length g)) g (advance g b) = Return e /\
    forall fuel set, length g < fuel ->
      scan_strands (S fuel) g b set
        = if in_dec strand_eq_dec (strand_at g b) set then Return set
          else scan_strands fuel g e (set ++ [strand_at g b]).
Proof.
  intros Hb Hv Hneg.
  assert (Hne : g <> []) by (intros ->; simpl in Hb; lia).
  destruct (skip_overs_total g (advance g b) (advance_lt g b Hne)) as [e [He Hskip]].
  { exists v. split; [eapply nth_error_In; exact Hv|]. apply Z.ltb_ge. lia. }
  exists e. split; [exact He|]. split; [apply Hskip; lia|].
  intros fuel set Hfuel. simpl. rewrite Hv.
  apply Z.ltb_lt in Hneg. rewrite Hneg. rewrite (Hskip fuel Hfuel). simpl.
  unfold strand_at. rewrite (Hskip (S (length g))) by lia. reflexivity.
Qed.

Lemma filter_length_mono {A : Type} (p q : A -> bool) (l : list A) :
  (forall x, q x = true -> p x = true) ->
  length (filter q l) <= length (filter p l).
Proof.
  intros Himp. induction l as [|a l IH]; simpl; [lia|].
  destruct (q a) eqn:Hq.
  - rewrite (Himp a Hq). simpl. lia.
  - destruct (p a); simpl; lia.
Qed.

Lemma filter_length_shrinks {A : Type} (p q : A -> bool) (l : list A) (x0 : A) :
  (forall x, q x = true -> p x = true) ->
  In x0 l -> p x0 = true -> q x0 = false ->
  length (filter q l) < length (filter p l).
Proof.
  intros Himp Hin Hp Hq. induction l as [|a l IH]; simpl; [contradiction|].
  destruct Hin as [->|Hin].
  - rewrite Hp, Hq. simpl. pose proof (filter_length_mono p q l Himp). lia.
  - specialize (IH Hin). destruct (q a) eqn:Hqa.
    + rewrite (Himp a Hqa). simpl. lia.
    + destruct (p a); simpl; lia.
Qed.

Lemma remaining_shrinks (g : list Z) (b : nat) (set : list strand) :
  b < length g -> ~ In (strand_at g b) set ->
  remaining g (set ++ [strand_at g b]) < remaining g set.
Proof.
  intros Hb Hnot. unfold remaining.
  apply (filter_length_shrinks _ _ _ b).
  - intros x. destruct (in_dec strand_eq_dec (strand_at g x) (set ++ [strand_at g b]))
      as [|Hn]; [discriminate|].
    intros _. destruct (in_dec strand_eq_dec (strand_at g x) set) as [Hin|]; [|reflexivity].
    contradiction Hn. apply in_or_app. left. exact Hin.
  - apply in_seq. lia.
  - destruct (in_dec strand_eq_dec (strand_at g b) set); [contradiction | reflexivity].
  - destruct (in_dec strand_eq_dec (strand_at g b) (set ++ [strand_at g b])) as [|Hn];
      [reflexivity|].
    contradiction Hn. apply in_or_app. right. left. reflexivity.
Qed.

(** The scan returns: every new strand uses up a position, and between
    two strands the index makes at most one turn. *)
Lemma scan_strands_returns (g : list Z) :
  has_under g ->
  forall r i set fuel,
    i < length g -> remaining g set <= r ->
    (r + 2) * (length g + 1) <= fuel ->
    exists strand_set, scan_strands fuel g i set = Return strand_set.
Proof.
  intros Hu. induction r as [|r IH]; intros i set fuel Hi Hr Hfuel.
  - destruct (scan_strands_to_under g i Hi Hu) as [b [d [v [Hb [Hd [Hv [Hneg Hwalk]]]]]]].
    destruct (scan_strands_step g b v Hb Hv Hneg) as [e [He [_ Hstep]]].
    replace fuel with (d + S (fuel - d - 1)) by lia.
    rewrite Hwalk, Hstep by lia.
    destruct (in_dec strand_eq_dec (strand_at g b) set) as [|Hnot];
      [eexists; reflexivity|].
    pose proof (remaining_shrinks g b set Hb Hnot). lia.
  - destruct (scan_strands_to_under g i Hi Hu) as [b [d [v [Hb [Hd [Hv [Hneg Hwalk]]]]]]].
    destruct (scan_strands_step g b v Hb Hv Hneg) as [e [He [_ Hstep]]].
    replace fuel with (d + S (fuel - d - 1)) by lia.
    rewrite Hwalk, Hstep by lia.
    destruct (in_dec strand_eq_dec (strand_at g b) set) as [|Hnot];
      [eexists; reflexivity|].
    pose proof (remaining_shrinks g b set Hb Hnot).
    apply IH; [exact He | lia | lia].
Qed.

Lemma scan_strands_no_under (g : list Z) :
  Forall (fun v => (0 <= v)%Z) g ->
  forall fuel i set, i < length g -> scan_strands fuel g i set = OutOfFuel.
Proof.
  intros Hall. induction fuel as [|fuel IH]; intros i set Hi; simpl; [reflexivity|].
  destruct (nth_error g i) as [v|] eqn:Hv.
  - rewrite Forall_forall in Hall. pose proof (Hall v (nth_error_In _ _ Hv)) as Hpos.
    apply Z.ltb_ge in Hpos. rewrite Hpos. apply IH. apply advance_lt.
    intros ->. simpl in Hi. lia.
  - apply nth_error_None in Hv. lia.
Qed.

Lemma label_strands_settles (strands : list strand) :
  forall i d, label_strands i strands d <> OutOfFuel.
Proof.
  induction strands as [|s rest IH]; intros i d; simpl; [discriminate|].
  destruct (nth_error letter_list i); [apply IH | discriminate].
Qed.

(** C10, as the code has it: on a code that is not empty, [find_strands]
    terminates if and only if the code has a negative entry; with none the
    loop moves the index around the code for ever, and the call neither
    returns nor raises. *)
Theorem find_strands_terminates_iff (set_iter : list strand -> list strand)
  (g : list Z) :
  g <> [] ->
  ((exists fuel, terminates (find_strands set_iter fuel g)) <-> has_under g) /\
  (~ has_under g -> forall fuel, find_strands set_iter fuel g = OutOfFuel).
Proof.
  intros Hne.
  assert (Hlen : 0 < length g) by (destruct g; [contradiction Hne; reflexivity | simpl; lia]).
  assert (Hloop : ~ has_under g -> forall fuel, find_strands set_iter fuel g = OutOfFuel).
  { intros Hno fuel. unfold find_strands.
    rewrite scan_strands_no_under; [reflexivity | | exact Hlen].
    apply Forall_forall. intros v Hv.
    destruct (Z.lt_ge_cases v 0) as [Hlt|Hge]; [|exact Hge].
    contradiction Hno. exists v. split; assumption. }
  split; [split|exact Hloop].
  - intros [fuel Hterm].
    destruct (existsb (fun v => (v <? 0)%Z) g) eqn:Hex.
    + apply existsb_exists in Hex. destruct Hex as [v [Hv Hneg]].
      exists v. split; [exact Hv | apply Z.ltb_lt; exact Hneg].
    + contradiction Hterm. apply Hloop. intros [v [Hv Hneg]].
      assert (Ht : existsb (fun v => (v <? 0)%Z) g = true).
      { apply existsb_exists. exists v. split; [exact Hv | apply Z.ltb_lt; exact Hneg]. }
      congruence.
  - intros Hu. exists ((length g + 2) * (length g + 1)).
    destruct (scan_strands_returns g Hu (length g) 0 []
                ((length g + 2) * (length g + 1)) Hlen) as [ss Hss].
    + unfold remaining. eapply Nat.le_trans; [apply filter_length_le|].
      rewrite length_seq. lia.
    + lia.
    + unfold terminates, find_strands. rewrite Hss. simpl.
      apply label_strands_settles.
Qed.

Lemma find_strands_terminates_iff_witness :
  (exists fuel, terminates (find_strands insertion_order fuel trefoil))
  <-> has_under trefoil.
Proof.
  apply (find_strands_terminates_iff insertion_order trefoil).
  discriminate.
Defined.

(** C10 as stated fails on the empty code: it has no negative entry, and
    the first index into it raises. *)
Lemma find_strands_empty_code_raises :
  ~ has_under [] /\
  find_strands insertion_order 1 [] = Raise IndexError /\
  terminates (find_strands insertion_order 1 []).
Proof.
  split; [|split].
  - intros [v [[] _]].
  - reflexivity.
  - discriminate.
Qed.

(** ** The scan on a code cut into blocks *)

Lemma skipn_length_app {A : Type} (l1 l2 : list A) :
  skipn (length l1) (l1 ++ l2) = l2.
Proof. induction l1 as [|a l1 IH]; simpl; [reflexivity | exact IH]. Qed.

Lemma firstn_length_app {A : Type} (l1 l2 : list A) :
  firstn (length l1) (l1 ++ l2) = l1.
Proof. induction l1 as [|a l1 IH]; simpl; [reflexivity | rewrite IH; reflexivity]. Qed.

Lemma positive_not_negative (m : list Z) :
  forallb (fun v => (0 <? v)%Z) m = true ->
  forallb (fun v => negb (v <? 0)%Z) m = true.
Proof.
  intros H. rewrite forallb_forall in *. intros v Hv. specialize (H v Hv).
  apply Z.ltb_lt in H. apply negb_true_iff, Z.ltb_ge. lia.
Qed.

Lemma flat_app (a b : list block) : flat (a ++ b) = flat a ++ flat b.
Proof. unfold flat. apply flat_map_app. Qed.

Lemma flat_cons (x : Z) (m : list Z) (bl : list block) :
  flat ((x, m) :: bl) = x :: m ++ flat bl.
Proof. reflexivity. Qed.

Lemma flat_nil : flat [] = [].
Proof. reflexivity. Qed.

(** Both sides of an equation between codes, brought to one shape. *)
Ltac flat_norm :=
  change (flat []) with (@nil Z) in *;
  repeat first [ rewrite flat_app | rewrite flat_cons
               | rewrite <- app_assoc | rewrite <- app_comm_cons
               | rewrite app_nil_r | rewrite app_nil_l ];
  change (flat []) with (@nil Z) in *;
  rewrite ?app_nil_r.

Ltac flat_eq := flat_norm; reflexivity.

Ltac flat_length :=
  repeat first [ rewrite flat_app | rewrite flat_cons
               | rewrite length_app | rewrite length_cons ];
  change (flat []) with (@nil Z) in *;
  cbn [length]; lia.

(** One turn on a block that is followed by an entry that is not an
    over-pass. *)
Lemma scan_block_step (g pre m post : list Z) (x x' : Z) (fuel : nat)
  (set : list strand) :
  g = pre ++ x :: m ++ x' :: post ->
  (x < 0)%Z -> forallb (fun v => (0 <? v)%Z) m = true -> (0 <? x')%Z = false ->
  length g < fuel ->
  scan_strands (S fuel) g (length pre) set
    = if in_dec strand_eq_dec (x :: m ++ [x']) set then Return set
      else scan_strands fuel g (length pre + S (length m)) (set ++ [x :: m ++ [x']]).
Proof.
  intros Hg Hx Hm Hx' Hfuel. simpl.
  assert (Hlen : length g = length pre + S (length m + S (length post))).
  { rewrite Hg. repeat (rewrite length_app; simpl). reflexivity. }
  rewrite Hg at 1. rewrite nth_error_middle.
  apply Z.ltb_lt in Hx. rewrite Hx.
  rewrite advance_next by lia.
  pose proof (skip_overs_run g m (pre ++ [x]) x' post fuel) as Hskip.
  rewrite length_app in Hskip. simpl in Hskip.
  replace (length pre + 1) with (S (length pre)) in Hskip by lia.
  rewrite Hskip; try assumption; [|rewrite Hg, <- app_assoc; reflexivity | lia].
  cbn [bind].
  assert (Hs : new_strand g (length pre) (S (length pre) + length m) = x :: m ++ [x']).
  { unfold new_strand.
    destruct (S (length pre) + length m <? length pre) eqn:E;
      [apply Nat.ltb_lt in E; lia|].
    rewrite Hg, skipn_length_app.
    replace (S (S (length pre) + length m) - length pre)
      with (length (x :: m ++ [x']))
      by (cbn [length]; rewrite length_app; cbn [length]; lia).
    replace (x :: m ++ x' :: post) with ((x :: m ++ [x']) ++ post)
      by (simpl; rewrite <- app_assoc; reflexivity).
    apply firstn_length_app. }
  rewrite Hs. replace (S (length pre) + length m) with (length pre + S (length m)) by lia.
  reflexivity.
Qed.

(** One turn on the last block: the strand runs through the end of the
    code into its beginning. *)
Lemma scan_block_last (g pre m head tail : list Z) (x x0 : Z) (fuel : nat)
  (set : list strand) :
  g = pre ++ x :: m -> g = head ++ x0 :: tail -> length head < length pre ->
  (x < 0)%Z -> forallb (fun v => (0 <? v)%Z) m = true ->
  forallb (fun v => (0 <? v)%Z) head = true -> (0 <? x0)%Z = false ->
  length g < fuel ->
  scan_strands (S fuel) g (length pre) set
    = if in_dec strand_eq_dec (x :: m ++ head ++ [x0]) set then Return set
      else scan_strands fuel g (length head) (set ++ [x :: m ++ head ++ [x0]]).
Proof.
  intros Hg Hg' Hlt Hx Hm Hhead Hx0 Hfuel. simpl.
  rewrite Hg at 1. rewrite nth_error_middle.
  apply Z.ltb_lt in Hx. rewrite Hx.
  assert (Hskip : skip_overs fuel g (advance g (length pre)) = Return (length head)).
  { destruct m as [|m1 m].
    - rewrite advance_wrap by (rewrite Hg, length_app; simpl; lia).
      apply (skip_overs_run g head [] x0 tail fuel); try assumption.
      pose proof (f_equal (@length Z) Hg') as E. rewrite length_app in E. lia.
    - rewrite advance_next by (rewrite Hg; repeat (rewrite length_app; simpl); lia).
      pose proof (skip_overs_wrap g (m1 :: m) (pre ++ [x]) head x0 tail fuel) as Hw.
      rewrite length_app in Hw. simpl in Hw.
      replace (length pre + 1) with (S (length pre)) in Hw by lia.
      apply Hw; try assumption.
      + rewrite Hg, <- app_assoc. reflexivity.
      + discriminate.
      + pose proof (f_equal (@length Z) Hg) as E. rewrite length_app in E.
        simpl in E. lia. }
  rewrite Hskip. cbn [bind].
  assert (Hs : new_strand g (length pre) (length head) = x :: m ++ head ++ [x0]).
  { unfold new_strand. apply Nat.ltb_lt in Hlt. rewrite Hlt.
    rewrite Hg at 1. rewrite skipn_length_app. rewrite Hg'.
    replace (S (length head)) with (length (head ++ [x0]))
      by (rewrite length_app; simpl; lia).
    replace (head ++ x0 :: tail) with ((head ++ [x0]) ++ tail)
      by (rewrite <- app_assoc; reflexivity).
    rewrite firstn_length_app. reflexivity. }
  rewrite Hs. reflexivity.
Qed.

Lemma length_flat (bl : list block) : length bl <= length (flat bl).
Proof.
  unfold flat. induction bl as [|b bl IH]; simpl; [lia|].
  rewrite length_app. lia.
Qed.

Section Blocks.

Variable head : list Z.
Variable bl : list block.
Variable x0 : Z.

Hypothesis head_over : forallb (fun v => (0 <? v)%Z) head = true.
Hypothesis blocks_well_formed : well_formed_blocks bl.
Hypothesis unders_differ : NoDup (map fst bl).
Hypothesis first_under : hd 0%Z (map fst bl) = x0.

Lemma block_in (done rest : list block) (x : Z) (m : list Z) :
  bl = done ++ (x, m) :: rest ->
  (x < 0)%Z /\ forallb (fun v => (0 <? v)%Z) m = true /\ ~ In x (map fst done).
Proof.
  intros Hbl. unfold well_formed_blocks in blocks_well_formed.
  rewrite Forall_forall in blocks_well_formed.
  destruct (blocks_well_formed (x, m)) as [Hx Hm].
  { rewrite Hbl. apply in_or_app. right. left. reflexivity. }
  split; [exact Hx|]. split; [exact Hm|].
  rewrite Hbl, map_app in unders_differ. simpl in unders_differ.
  apply NoDup_remove_2 in unders_differ. intros Hin. apply unders_differ.
  apply in_or_app. left. exact Hin.
Qed.

Lemma scan_blocks (todo : list block) :
  forall done set fuel,
    bl = done ++ todo -> todo <> [] -> 2 <= length bl ->
    (forall s, In s set -> In (hd 0%Z s) (map fst done)) ->
    length (head ++ flat bl) < fuel ->
    scan_strands (length todo + fuel) (head ++ flat bl)
      (length (head ++ flat done)) set
    = scan_strands fuel (head ++ flat bl) (length head)
        (set ++ strands_from todo (head ++ [x0])).
Proof.
  induction todo as [|[x m] todo IH]; intros done set fuel Hbl Hne Htwo Hset Hfuel;
    [contradiction Hne; reflexivity|].
  destruct (block_in done todo x m Hbl) as [Hx [Hm Hfresh]].
  assert (Hnew : forall rest, ~ In (x :: rest) set).
  { intros rest Hin. apply Hfresh. apply (Hset _ Hin). }
  destruct todo as [|[x' m'] rest].
  - destruct done as [|[y0 m0] done'].
    { rewrite Hbl in Htwo. simpl in Htwo. lia. }
    assert (Ey : y0 = x0) by (rewrite <- first_under, Hbl; reflexivity).
    subst y0.
    destruct (block_in [] (done' ++ [(x, m)]) x0 m0 Hbl) as [Hx0 _].
    cbn [length Nat.add].
    etransitivity.
    { apply (scan_block_last (head ++ flat bl) (head ++ flat ((x0, m0) :: done'))
               m head (m0 ++ flat done' ++ x :: m) x x0 fuel set); try assumption.
      - rewrite Hbl. flat_eq.
      - rewrite Hbl. flat_eq.
      - flat_length.
      - apply Z.ltb_ge. lia. }
    destruct (in_dec strand_eq_dec (x :: m ++ head ++ [x0]) set) as [Hin|_];
      [contradiction (Hnew _ Hin) | reflexivity].
  - destruct (block_in (done ++ [(x, m)]) rest x' m') as [Hx' _].
    { rewrite Hbl, <- app_assoc. reflexivity. }
    change (length ((x, m) :: (x', m') :: rest) + fuel)
      with (S (length ((x', m') :: rest) + fuel)).
    etransitivity.
    { apply (scan_block_step (head ++ flat bl) (head ++ flat done) m
               (m' ++ flat rest) x x'); try assumption.
      - rewrite Hbl. flat_eq.
      - apply Z.ltb_ge. lia.
      - lia. }
    destruct (in_dec strand_eq_dec (x :: m ++ [x']) set) as [Hin|_];
      [contradiction (Hnew _ Hin)|].
    replace (length (head ++ flat done) + S (length m))
      with (length (head ++ flat (done ++ [(x, m)]))).
    + etransitivity.
      { apply (IH (done ++ [(x, m)]) (set ++ [x :: m ++ [x']]) fuel);
          try assumption.
        - rewrite Hbl, <- app_assoc. reflexivity.
        - discriminate.
        - intros s Hs. rewrite map_app. apply in_or_app.
          apply in_app_or in Hs. destruct Hs as [Hs|[<-|[]]].
          + left. apply Hset. exact Hs.
          + right. left. reflexivity. }
      f_equal. rewrite <- app_assoc. reflexivity.
    + flat_length.
Qed.

Lemma scan_strands_blocks (fuel : nat) :
  2 <= length bl ->
  2 * length (head ++ flat bl) + 2 <= fuel ->
  scan_strands fuel (head ++ flat bl) 0 []
    = Return (strands_from bl (head ++ [x0])).
Proof.
  intros Htwo Hfuel. set (g := head ++ flat bl) in *.
  set (fuel0 := length head + (length bl + S (S (length g)))).
  assert (Hle : fuel0 <= fuel).
  { subst fuel0 g. rewrite length_app in *. pose proof (length_flat bl). lia. }
  apply (stable_Return _ _ _ (scan_strands_stable g fuel0 fuel Hle 0 [])).
  assert (Hshape : exists y0 m0 x1 m1 rest, bl = (y0, m0) :: (x1, m1) :: rest).
  { clear - Htwo. destruct bl as [|[y0 m0] [|[x1 m1] rest]]; simpl in Htwo; try lia.
    eauto 6. }
  destruct Hshape as [y0 [m0 [x1 [m1 [rest Hbl]]]]].
  assert (Ey : y0 = x0) by (rewrite <- first_under, Hbl; reflexivity). subst y0.
  destruct (block_in [] ((x1, m1) :: rest) x0 m0 Hbl) as [Hx0 [Hm0 _]].
  destruct (block_in [(x0, m0)] rest x1 m1 Hbl) as [Hx1 _].
  assert (Hg : g = head ++ x0 :: m0 ++ x1 :: (m1 ++ flat rest)).
  { subst g. rewrite Hbl. flat_eq. }
  subst fuel0.
  pose proof (scan_strands_run g head [] x0 (m0 ++ x1 :: m1 ++ flat rest)
                (length bl + S (S (length g))) [] Hg
                (positive_not_negative head head_over)) as H1.
  assert (H2 : scan_strands (length bl + S (S (length g))) g (length head) []
               = scan_strands (S (S (length g))) g (length head)
                   (strands_from bl (head ++ [x0]))).
  { pose proof (scan_blocks bl [] [] (S (S (length g))) eq_refl) as Hscan.
    change (flat []) with (@nil Z) in Hscan. rewrite app_nil_r in Hscan.
    apply Hscan.
    - rewrite Hbl. discriminate.
    - exact Htwo.
    - intros s [].
    - subst g. lia. }
  pose proof (scan_block_step g head m0 (m1 ++ flat rest) x0 x1 (S (length g))
                (strands_from bl (head ++ [x0])) Hg Hx0 Hm0) as H3.
  etransitivity; [exact H1|]. etransitivity; [exact H2|].
  etransitivity; [apply H3; [apply Z.ltb_ge; lia | lia]|].
  destruct (in_dec strand_eq_dec (x0 :: m0 ++ [x1]) _) as [_|Hout]; [reflexivity|].
  contradiction Hout. rewrite Hbl. left. reflexivity.
Qed.

End Blocks.

(** ** The strands of a valid code *)

Lemma nodupb_NoDup (l : list Z) : nodupb l = true -> NoDup l.
Proof.
  induction l as [|x l IH]; simpl; intros H; [constructor|].
  apply andb_prop in H. destruct H as [Hx Hl]. constructor; [|apply IH; exact Hl].
  intros Hin. apply negb_true_iff in Hx.
  assert (Ht : existsb (Z.eqb x) l = true).
  { apply existsb_exists. exists x. split; [exact Hin | apply Z.eqb_refl]. }
  congruence.
Qed.

Lemma validb_valid (g : list Z) : validb g = true -> valid g.
Proof.
  unfold validb, valid. intros H. apply andb_prop in H. destruct H as [Hnd Hall].
  split; [apply nodupb_NoDup; exact Hnd|].
  intros v Hv. rewrite forallb_forall in Hall. specialize (Hall v Hv).
  apply andb_prop in Hall. destruct Hall as [Hz Hneg]. split.
  - apply negb_true_iff, Z.eqb_neq in Hz. exact Hz.
  - apply existsb_exists in Hneg. destruct Hneg as [w [Hw E]].
    apply Z.eqb_eq in E. subst w. exact Hw.
Qed.

Lemma split_blocks_spec (g : list Z) :
  (forall v, In v g -> v <> 0%Z) ->
  g = fst (split_blocks g) ++ flat (snd (split_blocks g)) /\
  forallb (fun v => (0 <? v)%Z) (fst (split_blocks g)) = true /\
  well_formed_blocks (snd (split_blocks g)) /\
  map fst (snd (split_blocks g)) = under_passes g.
Proof.
  induction g as [|v g IH]; intros Hnz; simpl.
  - repeat split. constructor.
  - destruct IH as [Hg [Hhead [Hwf Hmap]]].
    { intros w Hw. apply Hnz. right. exact Hw. }
    destruct (split_blocks g) as [head bl]. cbn [fst snd] in *.
    unfold under_passes in *. cbn [filter].
    destruct (v <? 0)%Z eqn:Hv; cbn [fst snd map forallb].
    + rewrite flat_cons, <- Hg. split; [reflexivity|]. split; [reflexivity|].
      split; [|rewrite Hmap; reflexivity].
      constructor; [|exact Hwf]. split; [apply Z.ltb_lt; exact Hv | exact Hhead].
    + rewrite <- app_comm_cons, <- Hg. split; [reflexivity|].
      split; [|split; assumption].
      rewrite Hhead, andb_true_r. apply Z.ltb_lt. apply Z.ltb_ge in Hv.
      specialize (Hnz v (or_introl eq_refl)). lia.
Qed.

Lemma scan_strands_valid (g : list Z) (fuel : nat) :
  valid g -> 2 <= length (under_passes g) -> 2 * length g + 2 <= fuel ->
  scan_strands fuel g 0 [] = Return (cut_strands g).
Proof.
  intros [Hnd Hv] Htwo Hfuel.
  destruct (split_blocks_spec g (fun v Hin => proj1 (Hv v Hin)))
    as [Hg [Hhead [Hwf Hmap]]].
  unfold cut_strands. destruct (split_blocks g) as [head bl]. simpl in *.
  pose proof (scan_strands_blocks head bl (hd 0%Z (map fst bl)) Hhead Hwf) as H.
  rewrite <- Hg in H. apply H.
  - rewrite Hmap. apply NoDup_filter. exact Hnd.
  - reflexivity.
  - pose proof (length_map (@fst Z (list Z)) bl) as E. rewrite Hmap in E.
    lia.
  - exact Hfuel.
Qed.

Lemma strands_from_spec (head : list Z) (x0 : Z) (bl : list block) :
  bl <> [] ->
  let L := strands_from bl (head ++ [x0]) in
  length L = length bl /\
  map (hd 0%Z) L = map fst bl /\
  concat (map (@removelast Z) L) = flat bl ++ head /\
  map (fun s => last s 0%Z) L = tl (map fst bl) ++ [x0] /\
  forall s v, In s L -> In v s -> In v (flat bl ++ head ++ [x0]).
Proof.
  induction bl as [|[x m] bl IH]; intros Hne; [contradiction Hne; reflexivity|].
  destruct bl as [|[x' m'] rest].
  - intros L. subst L.
    change (strands_from [(x, m)] (head ++ [x0])) with [x :: m ++ head ++ [x0]].
    replace (x :: m ++ head ++ [x0]) with ((x :: m ++ head) ++ [x0]) by flat_eq.
    cbn [length map concat tl]. rewrite removelast_last, last_last, app_nil_r.
    split; [reflexivity|]. split; [reflexivity|].
    split; [rewrite flat_cons; flat_eq|]. split; [reflexivity|].
    intros s v [<-|[]] Hv. revert Hv. flat_norm. auto.
  - intros L. subst L.
    destruct (IH ltac:(discriminate)) as [H1 [H2 [H3 [H4 H5]]]].
    change (strands_from ((x, m) :: (x', m') :: rest) (head ++ [x0]))
      with ((x :: m ++ [x']) :: strands_from ((x', m') :: rest) (head ++ [x0])).
    cbn [length map concat]. rewrite H1, H2, H3, H4.
    repeat split.
    + change (x :: m ++ [x']) with ((x :: m) ++ [x']).
      rewrite removelast_last. flat_eq.
    + change (x :: m ++ [x']) with ((x :: m) ++ [x']). rewrite last_last.
      reflexivity.
    + intros s v [<-|Hs] Hv.
      * rewrite (flat_cons x m), (flat_cons x' m').
        simpl in Hv. destruct Hv as [<-|Hv]; [left; reflexivity|]. right.
        apply in_app_or in Hv. rewrite !in_app_iff. simpl.
        destruct Hv as [Hv|[<-|[]]]; auto.
      * specialize (H5 s v Hs Hv). rewrite (flat_cons x m). right.
        rewrite <- app_assoc. apply in_or_app. right. exact H5.
Qed.

(** The strands of a valid code with at least two under-passes: one per
    under-pass, each from an under-pass to the next; without their last
    entries they are the code read from its first under-pass around. *)
Lemma cut_strands_spec (g : list Z) :
  valid g -> 2 <= length (under_passes g) ->
  let L := cut_strands g in
  length L = length (under_passes g) /\
  map (hd 0%Z) L = under_passes g /\
  Permutation (map (fun s => last s 0%Z) L) (under_passes g) /\
  (exists p, p < length g /\
     concat (map (@removelast Z) L) = skipn p g ++ firstn p g) /\
  forall s v, In s L -> In v s -> In v g.
Proof.
  intros [Hnd Hv] Htwo.
  destruct (split_blocks_spec g (fun v Hin => proj1 (Hv v Hin)))
    as [Hg [Hhead [Hwf Hmap]]].
  unfold cut_strands. destruct (split_blocks g) as [head bl]. simpl in *.
  assert (Hne : bl <> []).
  { intros ->. simpl in Hmap. rewrite <- Hmap in Htwo. simpl in Htwo. lia. }
  destruct (strands_from_spec head (hd 0%Z (map fst bl)) bl Hne)
    as [H1 [H2 [H3 [H4 H5]]]].
  rewrite <- Hmap. split; [rewrite H1; symmetry; apply length_map|].
  split; [exact H2|]. split; [|split].
  - rewrite H4. destruct bl as [|[x m] rest]; [contradiction Hne; reflexivity|].
    simpl. apply Permutation_sym. apply Permutation_cons_append.
  - exists (length head). split.
    + rewrite Hg, length_app. pose proof (length_flat bl).
      destruct bl; [contradiction Hne; reflexivity | simpl in *; lia].
    + rewrite H3. rewrite Hg at 1 2.
      rewrite skipn_length_app, firstn_length_app. reflexivity.
  - intros s v Hs Hin. specialize (H5 s v Hs Hin). rewrite Hg.
    rewrite !in_app_iff in *. simpl in H5.
    destruct H5 as [H5|[H5|[<-|[]]]]; auto.
    right. destruct bl as [|[x m] bl]; [contradiction Hne; reflexivity|].
    rewrite flat_cons. left. reflexivity.
Qed.

(** ** Naming the strands *)

Lemma NoDup_letter_list : NoDup letter_list.
Proof.
  unfold letter_list. apply Finite.Injective_map_NoDup_in; [|apply seq_NoDup].
  intros a b Ha Hb E. apply in_seq in Ha, Hb. injection E as E.
  apply (f_equal nat_of_ascii) in E.
  rewrite !nat_ascii_embedding in E by lia. exact E.
Qed.

Lemma dict_set_fresh {V : Type} (k : label) (v : V) (d : dict V) :
  ~ In k (keys d) -> dict_set k v d = d ++ [(k, v)].
Proof.
  induction d as [|[k' v'] d IH]; simpl; intros Hk; [reflexivity|].
  destruct (string_dec k k') as [->|_]; [contradiction Hk; left; reflexivity|].
  rewrite IH; [reflexivity|]. intros Hin. apply Hk. right. exact Hin.
Qed.

Lemma nth_error_not_before {A : Type} (l : list A) (i : nat) (x : A) :
  NoDup l -> nth_error l i = Some x -> ~ In x (firstn i l).
Proof.
  intros Hnd Hi Hin.
  pose proof (firstn_skipn i l) as Hsplit.
  rewrite (skipn_nth_error l i x Hi) in Hsplit. rewrite <- Hsplit in Hnd.
  apply NoDup_remove_2 in Hnd. apply Hnd. apply in_or_app. left. exact Hin.
Qed.

Lemma firstn_S_nth_error {A : Type} (l : list A) (i : nat) (x : A) :
  nth_error l i = Some x -> firstn (S i) l = firstn i l ++ [x].
Proof.
  revert i. induction l as [|a l IH]; intros [|i] H; simpl in *; try discriminate.
  - injection H as ->. reflexivity.
  - rewrite (IH i H). reflexivity.
Qed.

Lemma label_strands_fresh (strands : list strand) :
  forall i d,
    i + length strands <= 26 -> keys d = firstn i letter_list ->
    label_strands i strands d
      = Return (d ++ map (fun p => (fst p, (snd p, [])))
                      (combine (skipn i letter_list) strands)).
Proof.
  induction strands as [|s rest IH]; intros i d Hlen Hk;
    cbn [label_strands length] in *.
  - rewrite combine_nil. cbn [map]. rewrite app_nil_r. reflexivity.
  - destruct (nth_error letter_list i) as [l|] eqn:Hl.
    + rewrite dict_set_fresh
        by (rewrite Hk; apply nth_error_not_before;
            [apply NoDup_letter_list | exact Hl]).
      rewrite IH; [|lia|].
      * rewrite (skipn_nth_error _ _ _ Hl). cbn [combine map fst snd].
        rewrite <- app_assoc. reflexivity.
      * unfold keys in *. rewrite map_app, Hk. cbn [map fst].
        symmetry. apply firstn_S_nth_error. exact Hl.
    + apply nth_error_None in Hl. rewrite length_letter_list in Hl. lia.
Qed.

Lemma map_snd_combine {A B : Type} (l : list A) (l' : list B) :
  length l' <= length l -> map snd (combine l l') = l'.
Proof.
  revert l. induction l' as [|b l' IH]; intros [|a l] Hlen; simpl in *;
    try reflexivity; try lia.
  rewrite IH by lia. reflexivity.
Qed.

Lemma map_fst_combine {A B : Type} (l : list A) (l' : list B) :
  map fst (combine l l') = firstn (length l') l.
Proof.
  revert l. induction l' as [|b l' IH]; intros [|a l]; simpl; try reflexivity.
  rewrite IH. reflexivity.
Qed.

Lemma NoDup_firstn {A : Type} (l : list A) (n : nat) : NoDup l -> NoDup (firstn n l).
Proof.
  intros Hnd. rewrite <- (firstn_skipn n l) in Hnd.
  apply NoDup_app_remove_r in Hnd. exact Hnd.
Qed.

Lemma labelled_spec (strands : list strand) :
  length strands <= 26 ->
  label_strands 0 strands [] = Return (labelled strands) /\
  map tuple_of (labelled strands) = strands /\
  length (labelled strands) = length strands /\
  Forall (fun e => crossings_of e = []) (labelled strands) /\
  NoDup (keys (labelled strands)).
Proof.
  intros Hlen. split; [|split; [|split; [|split]]].
  - rewrite (label_strands_fresh strands 0 []); [reflexivity | lia | reflexivity].
  - unfold labelled. rewrite map_map.
    rewrite (map_ext _ snd) by (intros [l s]; reflexivity).
    apply map_snd_combine. rewrite length_letter_list. exact Hlen.
  - unfold labelled. rewrite length_map, length_combine, length_letter_list. lia.
  - unfold labelled. apply Forall_forall. intros e He.
    apply in_map_iff in He. destruct He as [p [<- _]]. reflexivity.
  - unfold labelled, keys. rewrite map_map.
    rewrite (map_ext _ fst) by (intros [l s]; reflexivity).
    rewrite map_fst_combine. apply NoDup_firstn. apply NoDup_letter_list.
Qed.

Lemma filter_all {A : Type} (f : A -> bool) (l : list A) :
  (forall x, In x l -> f x = true) -> filter f l = l.
Proof.
  induction l as [|a l IH]; simpl; intros H; [reflexivity|].
  rewrite (H a (or_introl eq_refl)). rewrite IH; [reflexivity|].
  intros x Hx. apply H. right. exact Hx.
Qed.

Lemma under_passes_negative (g : list Z) (v : Z) :
  In v (under_passes g) -> (v <? 0)%Z = true.
Proof. unfold under_passes. intros H. apply filter_In in H. apply H. Qed.

Lemma find_strands_valid (set_iter : list strand -> list strand) (g : list Z)
  (fuel : nat) :
  valid g -> 2 <= length (under_passes g) <= 26 ->
  (forall l, Permutation l (set_iter l)) ->
  2 * length g + 2 <= fuel ->
  find_strands set_iter fuel g = Return (labelled (set_iter (cut_strands g))) /\
  length (set_iter (cut_strands g)) = length (under_passes g).
Proof.
  intros Hv [Htwo Hcap] Hperm Hfuel.
  destruct (cut_strands_spec g Hv Htwo) as [Hlen _].
  assert (Hlen' : length (set_iter (cut_strands g)) = length (under_passes g)).
  { rewrite <- (Permutation_length (Hperm _)). exact Hlen. }
  split; [|exact Hlen'].
  unfold find_strands. rewrite (scan_strands_valid g fuel Hv Htwo Hfuel). simpl.
  apply labelled_spec. lia.
Qed.

(** ** The chain of the strands *)

Lemma strands_from_shape (head : list Z) (x0 : Z) (bl : list block) :
  well_formed_blocks bl ->
  forallb (fun v => (0 <? v)%Z) head = true -> (x0 < 0)%Z ->
  Forall under_to_under (strands_from bl (head ++ [x0])).
Proof.
  intros Hwf Hhead Hx0. induction bl as [|[x m] bl IH]; [constructor|].
  inversion Hwf as [|? ? [Hx Hm] Hwf']; subst. cbn [fst snd] in *.
  destruct bl as [|[x' m'] rest].
  - change (strands_from [(x, m)] (head ++ [x0])) with [x :: m ++ head ++ [x0]].
    constructor; [|constructor].
    exists x, (m ++ head), x0. rewrite <- app_assoc.
    split; [reflexivity|]. split; [exact Hx|]. split; [exact Hx0|].
    rewrite forallb_app, Hm, Hhead. reflexivity.
  - change (strands_from ((x, m) :: (x', m') :: rest) (head ++ [x0]))
      with ((x :: m ++ [x']) :: strands_from ((x', m') :: rest) (head ++ [x0])).
    constructor; [|apply IH; exact Hwf'].
    exists x, m, x'. split; [reflexivity|]. split; [exact Hx|]. split; [|exact Hm].
    inversion Hwf' as [|? ? [Hx' _] _]; subst. exact Hx'.
Qed.

Lemma Permutation_concat {A : Type} (l l' : list (list A)) :
  Permutation l l' -> Permutation (concat l) (concat l').
Proof.
  induction 1 as [|x l l' _ IH|x y l|l l' l'' _ IH1 _ IH2]; cbn [concat].
  - constructor.
  - apply Permutation_app_head. exact IH.
  - rewrite !app_assoc. apply Permutation_app_tail. apply Permutation_app_comm.
  - eapply Permutation_trans; eassumption.
Qed.

(** A family of tuples holds the entries of the tuples without their last
    entries, and the last entries. *)
Lemma concat_removelast (L : list strand) :
  Forall (fun s => s <> []) L ->
  Permutation (concat L)
    (concat (map (@removelast Z) L) ++ map (fun s => last s 0%Z) L).
Proof.
  induction 1 as [|s L Hs _ IH]; [constructor|].
  cbn [concat map]. rewrite (app_removelast_last 0%Z Hs) at 1.
  rewrite <- !app_assoc. apply Permutation_app_head.
  apply (Permutation_trans (Permutation_app_head _ IH)).
  change (last s 0%Z :: map (fun s0 => last s0 0%Z) L)
    with ([last s 0%Z] ++ map (fun s0 => last s0 0%Z) L).
  rewrite !app_assoc. apply Permutation_app_tail. apply Permutation_app_comm.
Qed.

Lemma count_occ_NoDup_In (l : list Z) (v : Z) :
  NoDup l -> In v l -> count_occ Z.eq_dec l v = 1.
Proof.
  intros Hnd Hin. apply (proj1 (NoDup_count_occ' Z.eq_dec l) Hnd v Hin).
Qed.

(** The strands of a valid code in scan order: each runs from an
    under-pass to the under-pass that opens the next strand, the last one
    to the under-pass that opens the first; an over-pass of the code lies
    in one strand and an under-pass in two. *)
Lemma cut_strands_chain (g : list Z) :
  valid g -> 2 <= length (under_passes g) ->
  let L := cut_strands g in
  map (fun s => last s 0%Z) L = next_around (under_passes g) /\
  Forall under_to_under L /\
  forall v, In v g ->
    count_occ Z.eq_dec (concat L) v = if (v <? 0)%Z then 2 else 1.
Proof.
  intros Hvalid Htwo L.
  destruct (cut_strands_spec g Hvalid Htwo) as [_ [_ [Hperm [[p [Hp Hcover]] _]]]].
  fold L in Hperm, Hcover.
  destruct Hvalid as [Hnd Hv].
  destruct (split_blocks_spec g (fun v Hin => proj1 (Hv v Hin)))
    as [Hg [Hhead [Hwf Hmap]]].
  assert (Hne : snd (split_blocks g) <> []).
  { intros E. rewrite E in Hmap. cbn in Hmap. rewrite <- Hmap in Htwo.
    cbn in Htwo. lia. }
  assert (HL : L = strands_from (snd (split_blocks g))
                     (fst (split_blocks g)
                      ++ [hd 0%Z (map fst (snd (split_blocks g)))])).
  { unfold L, cut_strands. destruct (split_blocks g). reflexivity. }
  assert (Hx0 : (hd 0%Z (under_passes g) < 0)%Z).
  { apply Z.ltb_lt. apply (under_passes_negative g).
    destruct (under_passes g); [cbn in Htwo; lia | now left]. }
  destruct (strands_from_spec (fst (split_blocks g))
              (hd 0%Z (map fst (snd (split_blocks g)))) _ Hne)
    as [_ [_ [_ [Hlast _]]]].
  rewrite <- HL, Hmap in Hlast.
  assert (Hshape : Forall under_to_under L).
  { rewrite HL. apply strands_from_shape; [exact Hwf | exact Hhead|].
    rewrite Hmap. exact Hx0. }
  split; [exact Hlast|]. split; [exact Hshape|].
  intros v Hin.
  assert (Hnonempty : Forall (fun s : strand => s <> []) L).
  { eapply Forall_impl; [|exact Hshape].
    intros s (x & mid & y & -> & _). discriminate. }
  rewrite (Permutation_count_occ Z.eq_dec) in Hperm.
  pose proof (concat_removelast L Hnonempty) as Hsplit.
  rewrite (Permutation_count_occ Z.eq_dec) in Hsplit.
  rewrite Hsplit, count_occ_app, Hcover, count_occ_app, Hperm.
  rewrite Nat.add_comm with (n := count_occ Z.eq_dec (skipn p g) v).
  rewrite <- count_occ_app, firstn_skipn.
  rewrite (count_occ_NoDup_In g v Hnd Hin).
  destruct (v <? 0)%Z eqn:Hneg.
  - rewrite (count_occ_NoDup_In (under_passes g) v); [reflexivity| |].
    + apply NoDup_filter. exact Hnd.
    + apply filter_In. split; assumption.
  - rewrite (proj1 (count_occ_not_In Z.eq_dec (under_passes g) v)); [reflexivity|].
    intros Hu. apply under_passes_negative in Hu. congruence.
Qed.

(** C9, as the code has it: for a valid code with 2 to 26 under-passes
    [find_strands] returns one strand per under-pass. Read in the order of
    the scan and without their last entries, the strands are the code
    itself read from its first under-pass around. Every strand runs from
    an under-pass over over-passes to the under-pass that opens the next
    strand of the scan, the last strand to the one that opens the first:
    every under-pass opens one strand and closes the strand before it.
    An over-pass of the code is an entry of one strand, an under-pass of
    two. Every tuple starts and ends with an under-pass, so the strands
    that start with one are the strands that end with one. *)
Theorem strands_cover_code (set_iter : list strand -> list strand) (g : list Z)
  (fuel : nat) :
  valid g -> 2 <= length (under_passes g) <= 26 ->
  (forall l, Permutation l (set_iter l)) ->
  2 * length g + 2 <= fuel ->
  exists d L p,
    find_strands set_iter fuel g = Return d /\
    Permutation L (map tuple_of d) /\
    length d = length (under_passes g) /\
    p < length g /\
    concat (map (@removelast Z) L) = skipn p g ++ firstn p g /\
    map (hd 0%Z) L = under_passes g /\
    map (fun s => last s 0%Z) L = next_around (under_passes g) /\
    Forall under_to_under L /\
    (forall v, In v g ->
       count_occ Z.eq_dec (concat (map tuple_of d)) v = if (v <? 0)%Z then 2 else 1) /\
    under_starting d = keys d /\
    under_ending d = keys d.
Proof.
  intros Hv Hk Hperm Hfuel.
  destruct (find_strands_valid set_iter g fuel Hv Hk Hperm Hfuel) as [Hfind Hlen].
  destruct (cut_strands_spec g Hv (proj1 Hk)) as [_ [Hhd [Hlast [[p [Hp Hcover]] _]]]].
  destruct (cut_strands_chain g Hv (proj1 Hk)) as [Hnext [Hshape Hcount]].
  destruct (labelled_spec (set_iter (cut_strands g))) as [_ [Htup [Hl _]]]; [lia|].
  exists (labelled (set_iter (cut_strands g))), (cut_strands g), p.
  split; [exact Hfind|]. rewrite Htup.
  split; [apply Hperm|]. split; [rewrite Hl; exact Hlen|].
  split; [exact Hp|]. split; [exact Hcover|]. split; [exact Hhd|].
  split; [exact Hnext|]. split; [exact Hshape|].
  split.
  { intros v Hin. rewrite <- (Hcount v Hin). symmetry.
    apply (proj1 (Permutation_count_occ Z.eq_dec _ _)
             (Permutation_concat _ _ (Hperm (cut_strands g)))). }
  assert (Hin : forall e, In e (labelled (set_iter (cut_strands g))) ->
                          In (tuple_of e) (cut_strands g)).
  { intros e He. apply (Permutation_in _ (Permutation_sym (Hperm _))).
    rewrite <- Htup. apply in_map. exact He. }
  split.
  - unfold under_starting, keys. rewrite filter_all; [reflexivity|].
    intros e He. apply (under_passes_negative g). rewrite <- Hhd.
    apply in_map. apply Hin. exact He.
  - unfold under_ending, keys. rewrite filter_all; [reflexivity|].
    intros e He. apply (under_passes_negative g).
    apply (Permutation_in _ Hlast).
    apply (in_map (fun s => last s 0%Z)). apply Hin. exact He.
Qed.

Lemma strands_cover_code_witness :
  exists d L p,
    find_strands insertion_order 14 trefoil = Return d /\
    Permutation L (map tuple_of d) /\
    length d = length (under_passes trefoil) /\
    p < length trefoil /\
    concat (map (@removelast Z) L) = skipn p trefoil ++ firstn p trefoil /\
    map (hd 0%Z) L = under_passes trefoil /\
    map (fun s => last s 0%Z) L = next_around (under_passes trefoil) /\
    Forall under_to_under L /\
    (forall v, In v trefoil ->
       count_occ Z.eq_dec (concat (map tuple_of d)) v = if (v <? 0)%Z then 2 else 1) /\
    under_starting d = keys d /\
    under_ending d = keys d.
Proof.
  apply (strands_cover_code insertion_order trefoil 14).
  - apply validb_valid. reflexivity.
  - simpl. lia.
  - intros l. apply Permutation_refl.
  - simpl. lia.
Defined.

(** C9 as stated fails. In the trefoil the under-pass -1 at position 0
    lies in two strands, the one it opens and the one it closes. In the
    code of one kink the over-pass at position 1 lies in no strand. A
    valid code of 27 crossings has no strands at all: the letters run
    out. *)
Lemma under_pass_in_two_strands :
  (valid trefoil /\
   find_strands insertion_order 10 trefoil
     = Return (labelled [[-1; 2; -3]; [-3; 1; -2]; [-2; 3; -1]]%Z) /\
   count_occ Z.eq_dec (concat [[-1; 2; -3]; [-3; 1; -2]; [-2; 3; -1]]%Z) (-1)%Z = 2) /\
  (valid one_kink /\
   find_strands insertion_order 10 one_kink = Return (labelled [[-1]%Z]) /\
   count_occ Z.eq_dec (concat [[-1]%Z]) 1%Z = 0) /\
  (valid (kinks 27) /\
   find_strands insertion_order 100 (kinks 27) = Raise IndexError).
Proof.
  split; [|split].
  - split; [apply validb_valid; reflexivity|]. split; reflexivity.
  - split; [apply validb_valid; reflexivity|]. split; reflexivity.
  - split; [apply validb_valid; vm_compute; reflexivity|]. vm_compute. reflexivity.
Qed.

(** ** Crossing resolution on a resolvable diagram *)

Lemma find_unders_finds (K : list label) (under : Z) (entries : knot_dict) :
  Forall (fun e => tuple_of e <> []) entries ->
  incl (keys entries) K ->
  forall u, bound1 K u -> bound2 K u ->
  exists u',
    find_unders under entries u = Return u' /\ bound1 K u' /\ bound2 K u' /\
    (found1 u = true \/
     (exists e, In e entries /\ hd 0%Z (tuple_of e) = (- under)%Z) ->
     found1 u' = true) /\
    (found2 u = true \/
     (exists e, In e entries /\ last (tuple_of e) 0%Z = (- under)%Z) ->
     found2 u' = true).
Proof.
  induction 1 as [|[k [t cs]] entries Ht _ IH]; intros Hincl u Hb1 Hb2; simpl.
  - exists u. split; [reflexivity|]. split; [exact Hb1|]. split; [exact Hb2|].
    split; (intros [H|[e0 [[] _]]]; exact H).
  - destruct (found1 u && found2 u) eqn:Hboth.
    + apply andb_prop in Hboth. destruct Hboth as [H1 H2].
      exists u. split; [reflexivity|]. split; [exact Hb1|]. split; [exact Hb2|].
      split; intros _; assumption.
    + unfold tuple_of in Ht. simpl in Ht.
      destruct t as [|first t']; [contradiction Ht; reflexivity|].
      assert (Hk : In k K) by (apply Hincl; left; reflexivity).
      set (u1 := if (first =? - under)%Z
                 then mk_unders true (found2 u) (Some k) (under2 u) else u).
      set (u2 := if (last (first :: t') 0%Z =? - under)%Z
                 then mk_unders (found1 u1) true (under1 u1) (Some k) else u1).
      assert (Hb11 : bound1 K u1 /\ bound2 K u1).
      { subst u1. destruct (first =? - under)%Z; [|split; assumption].
        split; [intros _; exists k; split; [reflexivity | exact Hk] | exact Hb2]. }
      assert (Hb22 : bound1 K u2 /\ bound2 K u2).
      { subst u2. destruct (last (first :: t') 0%Z =? - under)%Z; [|exact Hb11].
        split; [exact (proj1 Hb11) | intros _; exists k; split; [reflexivity | exact Hk]]. }
      destruct (IH (fun x Hx => Hincl x (or_intror Hx)) u2 (proj1 Hb22) (proj2 Hb22))
        as [u' [Hu' [Hb1' [Hb2' [Hf1 Hf2]]]]].
      exists u'. split; [exact Hu'|]. split; [exact Hb1'|]. split; [exact Hb2'|].
      split.
      * intros Hcase. apply Hf1.
        assert (Hstep : found1 u = true \/ first = (- under)%Z \/
                        exists e, In e entries /\ hd 0%Z (tuple_of e) = (- under)%Z).
        { destruct Hcase as [H|[e [[<-|He] Hhd]]]; [left; exact H | |].
          - right. left. exact Hhd.
          - right. right. exists e. split; assumption. }
        destruct Hstep as [H|[H|H]]; [| |right; exact H]; left; subst u2 u1.
        -- destruct (first =? - under)%Z;
             destruct (last (first :: t') 0%Z =? - under)%Z; simpl; auto.
        -- apply Z.eqb_eq in H. rewrite H.
           destruct (last (first :: t') 0%Z =? - under)%Z; reflexivity.
      * intros Hcase. apply Hf2.
        assert (Hstep : found2 u = true \/ last (first :: t') 0%Z = (- under)%Z \/
                        exists e, In e entries /\ last (tuple_of e) 0%Z = (- under)%Z).
        { destruct Hcase as [H|[e [[<-|He] Hl]]]; [left; exact H | |].
          - right. left. exact Hl.
          - right. right. exists e. split; assumption. }
        destruct Hstep as [H|[H|H]]; [| |right; exact H]; left; subst u2 u1.
        -- destruct (first =? - under)%Z;
             destruct (last (first :: t') 0%Z =? - under)%Z; simpl; auto.
        -- apply Z.eqb_eq in H. rewrite H. reflexivity.
Qed.

Lemma over_crossings_resolves (knot : knot_dict) (t : strand) :
  Forall (fun e => tuple_of e <> []) knot ->
  (forall v, In v t -> (0 < v)%Z ->
     (exists e1, In e1 knot /\ hd 0%Z (tuple_of e1) = (- v)%Z) /\
     (exists e2, In e2 knot /\ last (tuple_of e2) 0%Z = (- v)%Z)) ->
  forall cs u,
    names_in (keys knot) cs ->
    exists cs' u',
      over_crossings knot t cs u = Return (cs', u') /\ names_in (keys knot) cs'.
Proof.
  intros Hne. induction t as [|v t IH]; intros Hres cs u Hcs; simpl.
  - exists cs, u. split; [reflexivity | exact Hcs].
  - assert (Hres' : forall w, In w t -> (0 < w)%Z ->
              (exists e1, In e1 knot /\ hd 0%Z (tuple_of e1) = (- w)%Z) /\
              (exists e2, In e2 knot /\ last (tuple_of e2) 0%Z = (- w)%Z))
      by (intros w Hw; apply Hres; right; exact Hw).
    destruct (0 <? v)%Z eqn:Hv; [|apply IH; assumption].
    apply Z.ltb_lt in Hv. destruct (Hres v (or_introl eq_refl) Hv) as [He1 He2].
    destruct (find_unders_finds (keys knot) v knot Hne (incl_refl _)
                (mk_unders false false (under1 u) (under2 u)))
      as [u' [Hu' [Hb1 [Hb2 [Hf1 Hf2]]]]]; try (intros H; discriminate H).
    rewrite Hu'. simpl.
    destruct (Hb1 (Hf1 (or_intror He1))) as [a [Ha HaK]].
    destruct (Hb2 (Hf2 (or_intror He2))) as [b [Hb HbK]].
    rewrite Ha, Hb. apply IH; [exact Hres'|].
    intros c Hc. apply in_app_or in Hc. destruct Hc as [Hc|[<-|[]]].
    + apply Hcs. exact Hc.
    + split; assumption.
Qed.

Lemma find_crossings_from_resolves (knot : knot_dict) :
  Forall (fun e => tuple_of e <> []) knot ->
  forall todo u,
    (forall e v, In e todo -> In v (tuple_of e) -> (0 < v)%Z ->
       (exists e1, In e1 knot /\ hd 0%Z (tuple_of e1) = (- v)%Z) /\
       (exists e2, In e2 knot /\ last (tuple_of e2) 0%Z = (- v)%Z)) ->
    (forall e, In e todo -> names_in (keys knot) (crossings_of e)) ->
    exists done,
      find_crossings_from knot todo u = Return done /\
      keys done = keys todo /\ map tuple_of done = map tuple_of todo /\
      forall e, In e done -> names_in (keys knot) (crossings_of e).
Proof.
  intros Hne. induction todo as [|[k [t cs]] todo IH]; intros u Hres Hcs; simpl.
  - exists []. split; [reflexivity|]. split; [reflexivity|]. split; [reflexivity|].
    intros e0 [].
  - destruct (over_crossings_resolves knot t Hne) with (cs := cs) (u := u)
      as [cs' [u' [Ho Hn]]].
    + intros v Hv. apply (Hres (k, (t, cs)) v (or_introl eq_refl) Hv).
    + apply (Hcs (k, (t, cs)) (or_introl eq_refl)).
    + rewrite Ho. simpl.
      destruct (IH u') as [done [Hd [Hk [Ht Hall]]]].
      * intros e v He. apply Hres. right. exact He.
      * intros e He. apply Hcs. right. exact He.
      * rewrite Hd. simpl. eexists. split; [reflexivity|]. simpl.
        rewrite Hk, Ht. split; [reflexivity|]. split; [reflexivity|].
        intros e0 [<-|He]; [exact Hn | apply Hall; exact He].
Qed.

Lemma find_crossings_resolves (knot : knot_dict) :
  Forall (fun e => tuple_of e <> []) knot ->
  resolvable knot ->
  Forall (fun e => crossings_of e = []) knot ->
  exists knot',
    find_crossings knot = Return knot' /\
    keys knot' = keys knot /\ map tuple_of knot' = map tuple_of knot /\
    closed knot'.
Proof.
  intros Hne Hres Hempty. unfold find_crossings.
  destruct (find_crossings_from_resolves knot Hne knot unbound)
    as [knot' [Hf [Hk [Ht Hall]]]].
  - intros e v He Hv Hpos. apply (Hres e v He Hv Hpos).
  - intros e He c Hc. rewrite Forall_forall in Hempty.
    rewrite (Hempty e He) in Hc. contradiction.
  - exists knot'. split; [exact Hf|]. split; [exact Hk|]. split; [exact Ht|].
    intros c Hc. unfold all_crossings in Hc. apply in_concat in Hc.
    destruct Hc as [cs [Hcs Hc]]. apply in_map_iff in Hcs.
    destruct Hcs as [e [<- He]]. rewrite Hk. apply (Hall e He c Hc).
Qed.

Lemma create_knot_dictionary_valid (set_iter : list strand -> list strand)
  (g : list Z) (fuel : nat) :
  valid g -> 2 <= length (under_passes g) <= 26 ->
  (forall l, Permutation l (set_iter l)) ->
  2 * length g + 2 <= fuel ->
  exists knot,
    create_knot_dictionary set_iter fuel g = Return knot /\
    length knot = length (under_passes g) /\
    closed knot /\
    Permutation (cut_strands g) (map tuple_of knot).
Proof.
  intros Hv Hk Hperm Hfuel.
  destruct (find_strands_valid set_iter g fuel Hv Hk Hperm Hfuel) as [Hfind Hlen].
  destruct (cut_strands_spec g Hv (proj1 Hk)) as [_ [Hhd [Hlast [_ Hsub]]]].
  set (S := set_iter (cut_strands g)) in *.
  destruct (labelled_spec S) as [_ [Htup [Hl [Hempty _]]]]; [lia|].
  assert (Hin : forall e, In e (labelled S) -> In (tuple_of e) (cut_strands g)).
  { intros e He. apply (Permutation_in _ (Permutation_sym (Hperm _))).
    fold S. rewrite <- Htup. apply in_map. exact He. }
  assert (Hback : forall s, In s (cut_strands g) ->
                    exists e, In e (labelled S) /\ tuple_of e = s).
  { intros s Hs. apply (Permutation_in _ (Hperm _)) in Hs. fold S in Hs.
    rewrite <- Htup in Hs. apply in_map_iff in Hs.
    destruct Hs as [e [He1 He2]]. exists e. split; assumption. }
  destruct (find_crossings_resolves (labelled S)) as [knot [Hf [Hkeys [Ht Hclosed]]]].
  - apply Forall_forall. intros e He E.
    assert (Hneg : (hd 0%Z (tuple_of e) <? 0)%Z = true).
    { apply (under_passes_negative g). rewrite <- Hhd. apply in_map. apply Hin. exact He. }
    rewrite E in Hneg. discriminate.
  - intros e v He Hv' Hpos.
    destruct Hv as [_ Hv]. destruct (Hv v (Hsub _ v (Hin e He) Hv')) as [_ Hopp].
    assert (Hu : In (- v)%Z (under_passes g)).
    { unfold under_passes. apply filter_In. split; [exact Hopp|]. apply Z.ltb_lt. lia. }
    split.
    + rewrite <- Hhd in Hu. apply in_map_iff in Hu. destruct Hu as [s [Hs1 Hs2]].
      destruct (Hback s Hs2) as [e1 [He1 E]]. exists e1. split; [exact He1|].
      rewrite E. exact Hs1.
    + apply (Permutation_in _ (Permutation_sym Hlast)) in Hu.
      apply in_map_iff in Hu. destruct Hu as [s [Hs1 Hs2]].
      destruct (Hback s Hs2) as [e2 [He2 E]]. exists e2. split; [exact He2|].
      rewrite E. exact Hs1.
  - exact Hempty.
  - exists knot. unfold create_knot_dictionary. rewrite Hfind. simpl.
    split; [exact Hf|]. split; [|split; [exact Hclosed|]].
    + rewrite <- Hlen, <- Hl. rewrite <- (length_map fst knot), <- (length_map fst (labelled S)).
      fold (keys knot). fold (keys (labelled S)). rewrite Hkeys. reflexivity.
    + rewrite Ht, Htup. apply Hperm.
Qed.

(** ** The search *)

Lemma set_eqb_spec (a b : list label) :
  set_eqb a b = true <-> forall x, In x a <-> In x b.
Proof.
  unfold set_eqb. rewrite andb_true_iff, !forallb_forall. split.
  - intros [Hab Hba] x. split; intros Hx.
    + apply mem_true. apply Hab. exact Hx.
    + apply mem_true. apply Hba. exact Hx.
  - intros H. split; intros x Hx; apply mem_true; apply H; exact Hx.
Qed.

Lemma combinations_incl {A : Type} (l : list A) :
  forall k c, In c (combinations l k) -> incl c l.
Proof.
  induction l as [|x l IH]; intros [|k] c Hc; simpl in Hc.
  - destruct Hc as [<-|[]]. intros y [].
  - contradiction.
  - destruct Hc as [<-|[]]. intros y [].
  - apply in_app_or in Hc. destruct Hc as [Hc|Hc].
    + apply in_map_iff in Hc. destruct Hc as [c' [<- Hc']].
      intros y [<-|Hy]; [left; reflexivity | right; apply (IH k c' Hc'); exact Hy].
    + intros y Hy. right. apply (IH (S k) c Hc). exact Hy.
Qed.

Section Search.

Variable knot : knot_dict.
Variable fuel : nat.
Hypothesis knot_closed : closed knot.
Hypothesis enough_fuel : 2 * length knot + 2 <= fuel.

Lemma try_extensions_spec (seeds colored : list label) :
  incl seeds (keys knot) ->
  forall candidates,
    incl candidates (keys knot) ->
    (try_extensions fuel knot (keys knot) seeds colored candidates = Return true /\
     exists p d',
       In p candidates /\ ~ In p colored /\
       maximally_extend fuel (seeds ++ [p]) knot = Return d' /\
       forall x, In x (colored_set d') <-> In x (keys knot)) \/
    (try_extensions fuel knot (keys knot) seeds colored candidates = Return false /\
     forall p d',
       In p candidates -> ~ In p colored ->
       maximally_extend fuel (seeds ++ [p]) knot = Return d' ->
       ~ forall x, In x (colored_set d') <-> In x (keys knot)).
Proof.
  intros Hseeds. induction candidates as [|p rest IH]; intros Hcand; simpl.
  - right. split; [reflexivity|]. intros p d' [].
  - assert (Hrest : incl rest (keys knot))
      by (intros x Hx; apply Hcand; right; exact Hx).
    destruct (mem p colored) eqn:Hmem.
    + apply mem_true in Hmem. destruct (IH Hrest) as [[Ht [q [d' [Hq H]]]]|[Hf Hall]].
      * left. split; [exact Ht|]. exists q, d'. split; [right; exact Hq | exact H].
      * right. split; [exact Hf|]. intros q d' [<-|Hq] Hnot; [contradiction|].
        apply (Hall q d' Hq Hnot).
    + apply mem_false in Hmem.
      destruct (maximally_extend_reach knot (seeds ++ [p]) fuel knot_closed)
        as [d' [Hd' _]]; [|exact enough_fuel|].
      { intros x Hx. apply in_app_or in Hx. destruct Hx as [Hx|[<-|[]]].
        - apply Hseeds. exact Hx.
        - apply Hcand. left. reflexivity. }
      rewrite Hd'. simpl.
      destruct (set_eqb (colored_set d') (keys knot)) eqn:Heq.
      * left. split; [reflexivity|]. exists p, d'.
        split; [left; reflexivity|]. split; [exact Hmem|]. split; [exact Hd'|].
        apply set_eqb_spec. exact Heq.
      * destruct (IH Hrest) as [[Ht [q [d'' [Hq H]]]]|[Hf Hall]].
        -- left. split; [exact Ht|]. exists q, d''. split; [right; exact Hq | exact H].
        -- right. split; [exact Hf|]. intros q d'' [<-|Hq] Hnot Hd''.
           ++ rewrite Hd' in Hd''. injection Hd'' as <-. intros Hall'.
              apply set_eqb_spec in Hall'. congruence.
           ++ apply (Hall q d'' Hq Hnot Hd'').
Qed.

Lemma search_spec (seeds_set : list (list label)) :
  (forall seeds, In seeds seeds_set -> incl seeds (keys knot)) ->
  (search fuel knot (keys knot) seeds_set = Return "28" /\
   exists seeds, In seeds seeds_set /\ extends_to_all fuel knot seeds) \/
  (search fuel knot (keys knot) seeds_set = Return "32" /\
   forall seeds, In seeds seeds_set -> ~ extends_to_all fuel knot seeds).
Proof.
  induction seeds_set as [|seeds rest IH]; intros Hall; simpl.
  - right. split; [reflexivity|]. intros seeds [].
  - assert (Hseeds : incl seeds (keys knot)) by (apply Hall; left; reflexivity).
    assert (Hrest : forall s, In s rest -> incl s (keys knot))
      by (intros s Hs; apply Hall; right; exact Hs).
    destruct (maximally_extend_reach knot seeds fuel knot_closed Hseeds enough_fuel)
      as [d [Hd [Hk [Hnd [Hknown _]]]]].
    pose proof (count_conflicts d knot Hk Hnd Hknown) as Hcount.
    rewrite Hd. simpl. rewrite Hcount. simpl.
    assert (Hnext :
      (forall p d', In p (keys knot) -> ~ In p (colored_set d) ->
         maximally_extend fuel (seeds ++ [p]) knot = Return d' ->
         ~ forall x, In x (colored_set d') <-> In x (keys knot)) \/
      ~ 0 < conflicts_under_colored d knot ->
      ~ extends_to_all fuel knot seeds).
    { intros Hno [d2 [n [H1 [H2 [Hn [p [d' [Hp [Hout [Hext Hfull]]]]]]]]]].
      rewrite Hd in H1. injection H1 as <-.
      rewrite Hcount in H2. injection H2 as <-.
      destruct Hno as [Hno|Hno]; [exact (Hno p d' Hp Hout Hext Hfull) | exact (Hno Hn)]. }
    destruct (0 <? conflicts_under_colored d knot) eqn:Hpos.
    + apply Nat.ltb_lt in Hpos.
      destruct (try_extensions_spec seeds (colored_set d) Hseeds (keys knot)
                  (incl_refl _)) as [[Ht [p [d' [Hp [Hout [Hext Hfull]]]]]]|[Hf Hnone]].
      * rewrite Ht. simpl. left. split; [reflexivity|].
        exists seeds. split; [left; reflexivity|].
        exists d, (conflicts_under_colored d knot).
        split; [exact Hd|]. split; [exact Hcount|]. split; [exact Hpos|].
        exists p, d'. auto.
      * rewrite Hf. simpl. destruct (IH Hrest) as [[Hs [s [Hin He]]]|[Hs Hno]].
        -- left. split; [exact Hs|]. exists s. split; [right; exact Hin | exact He].
        -- right. split; [exact Hs|]. intros s [<-|Hin]; [|apply Hno; exact Hin].
           apply Hnext. left. exact Hnone.
    + apply Nat.ltb_ge in Hpos. destruct (IH Hrest) as [[Hs [s [Hin He]]]|[Hs Hno]].
      * left. split; [exact Hs|]. exists s. split; [right; exact Hin | exact He].
      * right. split; [exact Hs|]. intros s [<-|Hin]; [|apply Hno; exact Hin].
        apply Hnext. right. lia.
Qed.

End Search.

(** ** The search stops at the first success *)

Lemma search_miss (fuel : nat) (knot : knot_dict) (strands seeds : list label) :
  search fuel knot strands [seeds] = Return "32" ->
  forall rest, search fuel knot strands (seeds :: rest) = search fuel knot strands rest.
Proof.
  cbn [search]. intros H rest.
  destruct (maximally_extend fuel seeds knot) as [d| |]; try discriminate.
  cbn [bind] in *.
  destruct (count_multicolored_crossings d knot) as [n| |]; try discriminate.
  cbn [bind] in *. destruct (0 <? n); [|reflexivity].
  destruct (try_extensions fuel knot strands seeds (colored_set d) strands) as [[|]| |];
    try discriminate; reflexivity.
Qed.

Lemma search_hit (fuel : nat) (knot : knot_dict) (strands seeds : list label) :
  search fuel knot strands [seeds] = Return "28" ->
  forall rest, search fuel knot strands (seeds :: rest) = Return "28".
Proof.
  cbn [search]. intros H rest.
  destruct (maximally_extend fuel seeds knot) as [d| |]; try discriminate.
  cbn [bind] in *.
  destruct (count_multicolored_crossings d knot) as [n| |]; try discriminate.
  cbn [bind] in *. destruct (0 <? n); [|discriminate].
  destruct (try_extensions fuel knot strands seeds (colored_set d) strands) as [[|]| |];
    try discriminate; reflexivity.
Qed.

Section FirstSuccess.

Variable knot : knot_dict.
Variable fuel : nat.
Hypothesis knot_closed : closed knot.
Hypothesis enough_fuel : 2 * length knot + 2 <= fuel.

(** The triples after the first one that passes the test are not tried:
    whatever they are, the result is ["28"]. *)
Lemma search_first_success (seeds : list label) :
  incl seeds (keys knot) -> extends_to_all fuel knot seeds ->
  forall pre,
    (forall s, In s pre -> incl s (keys knot) /\ ~ extends_to_all fuel knot s) ->
    forall later,
      search fuel knot (keys knot) (pre ++ seeds :: later) = Return "28".
Proof.
  intros Hseeds Hext. induction pre as [|s pre IH]; intros Hpre later.
  - apply search_hit.
    destruct (search_spec knot fuel knot_closed enough_fuel [seeds]) as [[H _]|[_ H]].
    + intros s [<-|[]]. exact Hseeds.
    + exact H.
    + exfalso. apply (H seeds); [now left | exact Hext].
  - cbn [app]. rewrite search_miss.
    + apply IH. intros s' Hs'. apply Hpre. now right.
    + destruct (search_spec knot fuel knot_closed enough_fuel [s])
        as [[_ (s' & [<-|[]] & H)]|[H _]].
      * intros s' [<-|[]]. apply (Hpre s (or_introl eq_refl)).
      * exfalso. apply (proj2 (Hpre s (or_introl eq_refl))). exact H.
      * exact H.
Qed.

(** Within a triple, the strands after the first one that completes the
    colouring are not tried either. *)
Lemma try_extensions_first_success (seeds colored : list label) (p : label) :
  incl seeds (keys knot) ->
  ~ In p colored -> completes fuel knot seeds p ->
  forall pre,
    (forall q, In q pre ->
       In q (keys knot) /\ (In q colored \/ ~ completes fuel knot seeds q)) ->
    forall later,
      try_extensions fuel knot (keys knot) seeds colored (pre ++ p :: later)
        = Return true.
Proof.
  intros Hseeds Hp (d' & Hd' & Hall). induction pre as [|q pre IH]; intros Hpre later.
  - cbn [app try_extensions].
    rewrite (proj2 (mem_false p colored) Hp), Hd'. cbn [bind].
    rewrite (proj2 (set_eqb_spec _ _) Hall). reflexivity.
  - cbn [app try_extensions].
    assert (IH' := IH (fun q' Hq' => Hpre q' (or_intror Hq')) later).
    destruct (Hpre q (or_introl eq_refl)) as [Hq Hcase].
    destruct (mem q colored) eqn:Hmem; [exact IH'|].
    apply mem_false in Hmem. destruct Hcase as [Hc|Hc]; [contradiction|].
    destruct (maximally_extend_reach knot (seeds ++ [q]) fuel knot_closed)
      as [d'' [Hd'' _]]; [|exact enough_fuel|].
    { intros x Hx. apply in_app_or in Hx. destruct Hx as [Hx|[<-|[]]]; auto. }
    rewrite Hd''. cbn [bind].
    destruct (set_eqb (colored_set d'') (keys knot)) eqn:Heq; [|exact IH'].
    exfalso. apply Hc. exists d''. split; [exact Hd''|].
    apply set_eqb_spec. exact Heq.
Qed.

End FirstSuccess.

Lemma length_combinations_1 {A : Type} (l : list A) :
  length (combinations l 1) = length l.
Proof.
  induction l as [|x l IH]; [reflexivity|].
  cbn [combinations]. rewrite length_app, length_map, IH.
  destruct l; reflexivity.
Qed.

Lemma length_combinations_2 {A : Type} (l : list A) :
  2 * length (combinations l 2) = length l * (length l - 1).
Proof.
  induction l as [|x l IH]; [reflexivity|].
  change (combinations (x :: l) 2)
    with (map (cons x) (combinations l 1) ++ combinations l 2).
  rewrite length_app, length_map, length_combinations_1.
  cbn [length]. destruct (length l) as [|n]; [lia|].
  replace (S n - 1) with n in IH by lia.
  replace (S (S n) - 1) with (S n) by lia. nia.
Qed.

Lemma length_triples {A : Type} (l : list A) :
  6 * length (combinations l 3) = length l * (length l - 1) * (length l - 2).
Proof.
  induction l as [|x l IH]; [reflexivity|].
  change (combinations (x :: l) 3)
    with (map (cons x) (combinations l 2) ++ combinations l 3).
  rewrite length_app, length_map.
  pose proof (length_combinations_2 l) as H2.
  cbn [length].
  destruct (length l) as [|[|n]]; [lia | lia |].
  replace (S (S n) - 1) with (S n) in * by lia.
  replace (S (S n) - 2) with n in * by lia.
  replace (S (S (S n)) - 1) with (S (S n)) by lia.
  replace (S (S (S n)) - 2) with (S n) by lia. nia.
Qed.

(** C1, as the code has it: for a valid Gauss code with 3 to 26 strands
    the diagram is built and [calc] returns ["28"] or ["32"], nothing
    else. It returns ["28"] exactly when some seed triple ends its
    propagation with a positive count of [count_multicolored_crossings],
    which is the number of conflicts at the crossings under coloured
    strands, and, extended by one strand outside its coloured strands,
    colours every strand of the diagram; it returns ["32"] exactly when none of
    the [n (n - 1) (n - 2) / 6] triples does. The search stops at the
    first triple that passes, and within it at the first strand that
    completes the colouring: whatever comes after them is not tried and
    does not change the result. *)
Theorem calc_bound_by_search (set_iter : list strand -> list strand)
  (raw : list string) (g : list Z) (fuel : nat) :
  process_gauss_code raw = Return g ->
  valid g -> 3 <= length (under_passes g) <= 26 ->
  (forall l, Permutation l (set_iter l)) ->
  2 * length g + 2 <= fuel ->
  exists knot,
    create_knot_dictionary set_iter fuel g = Return knot /\
    length knot = length (under_passes g) /\
    6 * length (get_seeds (keys knot) 3)
      = length knot * (length knot - 1) * (length knot - 2) /\
    (forall seeds, In seeds (get_seeds (keys knot) 3) ->
       exists d,
         maximally_extend fuel seeds knot = Return d /\
         count_multicolored_crossings d knot
           = Return (conflicts_under_colored d knot)) /\
    (calc set_iter fuel raw = Return "28" \/ calc set_iter fuel raw = Return "32") /\
    (calc set_iter fuel raw = Return "28" <->
     exists seeds,
       In seeds (get_seeds (keys knot) 3) /\ extends_to_all fuel knot seeds) /\
    (calc set_iter fuel raw = Return "32" <->
     forall seeds,
       In seeds (get_seeds (keys knot) 3) -> ~ extends_to_all fuel knot seeds) /\
    (forall pre seeds post,
       get_seeds (keys knot) 3 = pre ++ seeds :: post ->
       (forall s, In s pre -> ~ extends_to_all fuel knot s) ->
       extends_to_all fuel knot seeds ->
       forall later,
         search fuel knot (keys knot) (pre ++ seeds :: later) = Return "28") /\
    (forall seeds d pre p post,
       In seeds (get_seeds (keys knot) 3) ->
       maximally_extend fuel seeds knot = Return d ->
       keys knot = pre ++ p :: post ->
       (forall q, In q pre -> In q (colored_set d) \/ ~ completes fuel knot seeds q) ->
       ~ In p (colored_set d) -> completes fuel knot seeds p ->
       forall later,
         try_extensions fuel knot (keys knot) seeds (colored_set d) (pre ++ p :: later)
           = Return true).
Proof.
  intros Hraw Hv [Hthree Hcap] Hperm Hfuel.
  destruct (create_knot_dictionary_valid set_iter g fuel Hv) as [knot [Hk [Hlen [Hclosed _]]]];
    [lia | exact Hperm | exact Hfuel |].
  exists knot. split; [exact Hk|]. split; [exact Hlen|].
  split. { unfold get_seeds. rewrite length_triples. unfold keys. now rewrite length_map. }
  assert (Hcalc : calc set_iter fuel raw
                  = search fuel knot (keys knot) (get_seeds (keys knot) 3)).
  { unfold calc. rewrite Hraw. simpl. rewrite Hk. reflexivity. }
  rewrite Hcalc.
  assert (Hknot : 2 * length knot + 2 <= fuel).
  { rewrite Hlen. unfold under_passes.
    pose proof (filter_length_le (fun v => (v <? 0)%Z) g). lia. }
  assert (Hin : forall seeds, In seeds (get_seeds (keys knot) 3) -> incl seeds (keys knot)).
  { intros seeds Hs. apply (combinations_incl _ _ _ Hs). }
  split.
  { intros seeds Hs.
    destruct (maximally_extend_reach knot seeds fuel Hclosed (Hin seeds Hs) Hknot)
      as [d [Hd [Hkeys [Hnd [Hknown _]]]]].
    exists d. split; [exact Hd|]. apply count_conflicts; assumption. }
  split; [|split; [|split; [|split]]].
  - destruct (search_spec knot fuel Hclosed Hknot (get_seeds (keys knot) 3) Hin)
      as [[Hs _]|[Hs _]]; auto.
  - destruct (search_spec knot fuel Hclosed Hknot (get_seeds (keys knot) 3) Hin)
      as [[Hs Hex]|[Hs Hno]].
    + split; [intros _; exact Hex | intros _; exact Hs].
    + rewrite Hs. split; [discriminate|].
      intros [seeds [Hs' He]]. contradiction (Hno seeds Hs' He).
  - destruct (search_spec knot fuel Hclosed Hknot (get_seeds (keys knot) 3) Hin)
      as [[Hs (seeds & Hs' & He)]|[Hs Hno]].
    + rewrite Hs. split; [discriminate|]. intros Hno. contradiction (Hno seeds Hs' He).
    + split; [intros _; exact Hno | intros _; exact Hs].
  - intros pre seeds post Hsplit Hpre Hext later.
    apply (search_first_success knot fuel Hclosed Hknot seeds); [|exact Hext|].
    + apply Hin. rewrite Hsplit. apply in_or_app. right. now left.
    + intros s Hs. split; [|apply Hpre; exact Hs].
      apply Hin. rewrite Hsplit. apply in_or_app. now left.
  - intros seeds d pre p post Hs Hd Hsplit Hpre Hp Hcomp later.
    apply (try_extensions_first_success knot fuel Hclosed Hknot seeds (colored_set d) p);
      [apply Hin; exact Hs | exact Hp | exact Hcomp |].
    intros q Hq. split; [|apply Hpre; exact Hq].
    rewrite Hsplit. apply in_or_app. now left.
Qed.

Lemma calc_bound_by_search_witness :
  exists knot,
    create_knot_dictionary insertion_order 22 five_crossings = Return knot /\
    length knot = length (under_passes five_crossings) /\
    6 * length (get_seeds (keys knot) 3)
      = length knot * (length knot - 1) * (length knot - 2) /\
    (forall seeds, In seeds (get_seeds (keys knot) 3) ->
       exists d,
         maximally_extend 22 seeds knot = Return d /\
         count_multicolored_crossings d knot
           = Return (conflicts_under_colored d knot)) /\
    (calc insertion_order 22 five_crossings_tokens = Return "28" \/
     calc insertion_order 22 five_crossings_tokens = Return "32") /\
    (calc insertion_order 22 five_crossings_tokens = Return "28" <->
     exists seeds,
       In seeds (get_seeds (keys knot) 3) /\ extends_to_all 22 knot seeds) /\
    (calc insertion_order 22 five_crossings_tokens = Return "32" <->
     forall seeds,
       In seeds (get_seeds (keys knot) 3) -> ~ extends_to_all 22 knot seeds) /\
    (forall pre seeds post,
       get_seeds (keys knot) 3 = pre ++ seeds :: post ->
       (forall s, In s pre -> ~ extends_to_all 22 knot s) ->
       extends_to_all 22 knot seeds ->
       forall later,
         search 22 knot (keys knot) (pre ++ seeds :: later) = Return "28") /\
    (forall seeds d pre p post,
       In seeds (get_seeds (keys knot) 3) ->
       maximally_extend 22 seeds knot = Return d ->
       keys knot = pre ++ p :: post ->
       (forall q, In q pre -> In q (colored_set d) \/ ~ completes 22 knot seeds q) ->
       ~ In p (colored_set d) -> completes 22 knot seeds p ->
       forall later,
         try_extensions 22 knot (keys knot) seeds (colored_set d) (pre ++ p :: later)
           = Return true).
Proof.
  apply (calc_bound_by_search insertion_order five_crossings_tokens five_crossings 22).
  - reflexivity.
  - apply validb_valid. reflexivity.
  - simpl. lia.
  - intros l. apply Permutation_refl.
  - simpl. lia.
Defined.

(** Both outcomes occur: the code of five crossings gives ["28"], the
    trefoil ["32"]. *)
Lemma calc_both_bounds :
  calc insertion_order 22 five_crossings_tokens = Return "28" /\
  calc insertion_order 22 trefoil_tokens = Return "32".
Proof. split; vm_compute; reflexivity. Qed.

(** C1 as stated fails: the count [calc] tests is the one of
    [count_multicolored_crossings], which leaves out the crossings under
    uncoloured strands. In the diagram of [-1, -2, -3, -4, 1, 2, 3, 4] the
    seeds A, B, C end with two crossings whose under-strands lie in
    different parts, and the fourth strand D completes the colouring; the
    code counts no conflict for them, and [calc] returns ["32"]. *)
Lemma calc_counts_under_coloured_strands_only :
  process_gauss_code four_overs_tokens = Return four_overs /\
  valid four_overs /\
  create_knot_dictionary insertion_order 20 four_overs = Return four_overs_knot /\
  3 <= length four_overs_knot /\
  In ["A"; "B"; "C"] (get_seeds (keys four_overs_knot) 3) /\
  extends_to_all_as_specified 20 four_overs_knot ["A"; "B"; "C"] /\
  calc insertion_order 20 four_overs_tokens = Return "32".
Proof.
  split; [reflexivity|]. split; [apply validb_valid; reflexivity|].
  split; [reflexivity|]. split; [cbn; lia|]. split; [cbn; auto|].
  split; [|reflexivity].
  exists three_seeds. split; [reflexivity|]. split; [cbn; lia|].
  exists "D". split; [cbn; auto|]. split; [cbn; intuition discriminate|].
  exists [("A", ["A"]); ("B", ["B"]); ("C", ["C"]); ("D", ["D"])].
  split; [reflexivity|]. intros x. cbn. tauto.
Qed.

(** No iteration order of the strand set and no larger budget changes the
    bound of that code. *)
Lemma calc_four_overs_every_order (set_iter : list strand -> list strand)
  (fuel : nat) :
  (forall l, Permutation l (set_iter l)) -> 20 <= fuel ->
  calc set_iter fuel four_overs_tokens = Return "32".
Proof.
  intros Hperm Hfuel.
  assert (Hscan : scan_strands fuel four_overs 0 []
                  = Return [[-1; -2]; [-2; -3]; [-3; -4]; [-4; 1; 2; 3; 4; -1]]%Z).
  { apply (stable_Return _ _ _ (scan_strands_stable four_overs 20 fuel Hfuel 0 [])).
    reflexivity. }
  assert (Hsearch : forall knot,
            search 20 knot (keys knot) (get_seeds (keys knot) 3) = Return "32" ->
            search fuel knot (keys knot) (get_seeds (keys knot) 3) = Return "32").
  { intros knot H.
    exact (stable_Return _ _ _ (search_stable knot (keys knot) 20 fuel Hfuel _) H). }
  pose proof (perms_complete _ _
                (Hperm [[-1; -2]; [-2; -3]; [-3; -4]; [-4; 1; 2; 3; 4; -1]]%Z)) as Hin.
  unfold calc, create_knot_dictionary, find_strands.
  change (process_gauss_code four_overs_tokens) with (Return four_overs).
  cbn [bind]. rewrite Hscan. cbn [bind].
  simpl in Hin.
  repeat (destruct Hin as [Hin|Hin]; [rewrite <- Hin; clear Hin|]);
    try contradiction;
    (apply Hsearch; vm_compute; reflexivity).
Qed.

(** The alphabet of strand names: a valid code of 27 crossings has 27
    strands, the letter list has 26 names, and [calc] ends in an
    [IndexError] without a bound. *)
Lemma calc_twenty_seven_strands :
  valid (kinks 27) /\
  length (under_passes (kinks 27)) = 27 /\
  process_gauss_code (kinks_tokens 27) = Return (kinks 27) /\
  calc insertion_order 100 (kinks_tokens 27) = Raise IndexError.
Proof.
  split; [apply validb_valid; vm_compute; reflexivity|].
  split; [reflexivity|]. split; vm_compute; reflexivity.
Qed.

(** No iteration order of the strand set and no larger budget changes
    that. *)
Lemma calc_twenty_seven_strands_always (set_iter : list strand -> list strand)
  (fuel : nat) :
  (forall l, Permutation l (set_iter l)) -> 100 <= fuel ->
  calc set_iter fuel (kinks_tokens 27) = Raise IndexError.
Proof.
  intros Hperm Hfuel. unfold calc, create_knot_dictionary, find_strands.
  change (process_gauss_code (kinks_tokens 27)) with (Return (kinks 27)).
  cbn [bind].
  destruct (scan_strands 100 (kinks 27) 0 []) as [ss| |] eqn:Hscan;
    try (vm_compute in Hscan; discriminate Hscan).
  assert (Hlen : length ss = 27).
  { vm_compute in Hscan. injection Hscan as <-. reflexivity. }
  rewrite (stable_Return _ _ _ (scan_strands_stable (kinks 27) 100 fuel Hfuel 0 []) Hscan).
  cbn [bind]. rewrite label_strands_exhausted; [reflexivity | lia |].
  rewrite <- (Permutation_length (Hperm ss)). simpl. lia.
Qed.

(** ** Every diagram the pipeline builds is closed

    The hypotheses of the propagation theorems hold for every diagram
    [create_knot_dictionary] returns and every seed tuple [calc] forms. *)

Lemma find_unders_known (K : list label) (under : Z) (entries : knot_dict) :
  incl (keys entries) K ->
  forall u u', known K u -> find_unders under entries u = Return u' -> known K u'.
Proof.
  induction entries as [|[k [t cs]] entries IH]; intros Hincl u u' Hu Hf; simpl in Hf.
  - injection Hf as <-. exact Hu.
  - destruct (found1 u && found2 u); [injection Hf as <-; exact Hu|].
    destruct t as [|first t']; [discriminate|].
    assert (Hk : In k K) by (apply Hincl; left; reflexivity).
    eapply IH; [intros x Hx; apply Hincl; right; exact Hx | | exact Hf].
    destruct Hu as [H1 H2].
    destruct (first =? - under)%Z; destruct (last (first :: t') 0%Z =? - under)%Z;
      split; simpl; intros k0 E; try (injection E as <-; exact Hk);
      try (apply H1; exact E); try (apply H2; exact E).
Qed.

Lemma over_crossings_known (knot : knot_dict) (t : strand) :
  forall cs u cs' u',
    known (keys knot) u -> names_in (keys knot) cs ->
    over_crossings knot t cs u = Return (cs', u') ->
    known (keys knot) u' /\ names_in (keys knot) cs'.
Proof.
  induction t as [|v t IH]; intros cs u cs' u' Hu Hcs Ho; simpl in Ho.
  - injection Ho as <- <-. split; assumption.
  - destruct (0 <? v)%Z; [|eapply IH; eassumption].
    apply bind_Return in Ho. destruct Ho as [u1 [Hf Ho]].
    assert (Hu1 : known (keys knot) u1).
    { apply (find_unders_known (keys knot) v knot (incl_refl _)
               (mk_unders false false (under1 u) (under2 u)) u1); [|exact Hf].
      destruct Hu as [H1 H2]. split; simpl; assumption. }
    destruct (under1 u1) as [a|] eqn:Ha; [|discriminate].
    destruct (under2 u1) as [b|] eqn:Hb; [|discriminate].
    apply (IH _ _ _ _ Hu1) in Ho; [exact Ho|].
    intros c Hc. apply in_app_or in Hc. destruct Hc as [Hc|[<-|[]]].
    + apply Hcs. exact Hc.
    + destruct Hu1 as [H1 H2]. split; [apply H1; exact Ha | apply H2; exact Hb].
Qed.

Lemma find_crossings_from_known (knot : knot_dict) :
  forall todo u done,
    known (keys knot) u ->
    (forall e, In e todo -> names_in (keys knot) (crossings_of e)) ->
    find_crossings_from knot todo u = Return done ->
    keys done = keys todo /\
    forall e, In e done -> names_in (keys knot) (crossings_of e).
Proof.
  induction todo as [|[k [t cs]] todo IH]; intros u done Hu Hcs Hf; simpl in Hf.
  - injection Hf as <-. split; [reflexivity | intros e0 []].
  - apply bind_Return in Hf. destruct Hf as [[cs' u'] [Ho Hf]].
    apply bind_Return in Hf. destruct Hf as [rest [Hr Hf]]. injection Hf as <-.
    destruct (over_crossings_known knot t cs u cs' u' Hu
                (Hcs (k, (t, cs)) (or_introl eq_refl)) Ho) as [Hu' Hn].
    destruct (IH u' rest Hu' (fun e He => Hcs e (or_intror He)) Hr) as [Hk Hall].
    split; [simpl; rewrite Hk; reflexivity|].
    intros e0 [<-|He]; [exact Hn | apply Hall; exact He].
Qed.

Lemma find_crossings_closed (knot knot' : knot_dict) :
  Forall (fun e => crossings_of e = []) knot ->
  find_crossings knot = Return knot' -> closed knot'.
Proof.
  intros Hempty Hf. unfold find_crossings in Hf.
  destruct (find_crossings_from_known knot knot unbound knot') as [Hk Hall].
  - split; intros k E; discriminate E.
  - intros e He c Hc. rewrite Forall_forall in Hempty.
    rewrite (Hempty e He) in Hc. contradiction.
  - exact Hf.
  - intros c Hc. unfold all_crossings in Hc. apply in_concat in Hc.
    destruct Hc as [cs [Hcs Hc]]. apply in_map_iff in Hcs.
    destruct Hcs as [e [<- He]]. rewrite Hk. apply (Hall e He c Hc).
Qed.

Lemma dict_set_no_crossings (k : label) (s : strand) (d : knot_dict) :
  Forall (fun e => crossings_of e = []) d ->
  Forall (fun e => crossings_of e = []) (dict_set k (s, []) d).
Proof.
  induction 1 as [|[k0 v0] d Hv Hd IH]; simpl.
  - constructor; [reflexivity | constructor].
  - destruct (string_dec k k0); constructor; auto.
Qed.

Lemma label_strands_no_crossings (strands : list strand) :
  forall i d d',
    Forall (fun e => crossings_of e = []) d ->
    label_strands i strands d = Return d' ->
    Forall (fun e => crossings_of e = []) d'.
Proof.
  induction strands as [|s rest IH]; intros i d d' Hd Hl; simpl in Hl.
  - injection Hl as <-. exact Hd.
  - destruct (nth_error letter_list i) as [l|]; [|discriminate].
    apply (IH _ _ _ (dict_set_no_crossings l s d Hd) Hl).
Qed.

Lemma create_knot_dictionary_closed (set_iter : list strand -> list strand)
  (fuel : nat) (g : list Z) (knot : knot_dict) :
  create_knot_dictionary set_iter fuel g = Return knot -> closed knot.
Proof.
  unfold create_knot_dictionary, find_strands. intros H.
  apply bind_Return in H. destruct H as [d [Hd Hf]].
  apply bind_Return in Hd. destruct Hd as [ss [_ Hl]].
  apply (find_crossings_closed d knot); [|exact Hf].
  apply (label_strands_no_crossings _ _ _ _ (Forall_nil _) Hl).
Qed.

(** Whenever the diagram is built, [calc] returns one of its two bounds,
    decided by the search over the seed triples. *)
Lemma calc_on_built_diagram (set_iter : list strand -> list strand)
  (raw : list string) (g : list Z) (knot : knot_dict) (fuel : nat) :
  process_gauss_code raw = Return g ->
  create_knot_dictionary set_iter fuel g = Return knot ->
  2 * length knot + 2 <= fuel ->
  (calc set_iter fuel raw = Return "28" /\
   exists seeds, In seeds (get_seeds (keys knot) 3) /\ extends_to_all fuel knot seeds) \/
  (calc set_iter fuel raw = Return "32" /\
   forall seeds, In seeds (get_seeds (keys knot) 3) -> ~ extends_to_all fuel knot seeds).
Proof.
  intros Hraw Hk Hfuel.
  assert (Hcalc : calc set_iter fuel raw
                  = search fuel knot (keys knot) (get_seeds (keys knot) 3)).
  { unfold calc. rewrite Hraw. simpl. rewrite Hk. reflexivity. }
  rewrite Hcalc.
  apply (search_spec knot fuel (create_knot_dictionary_closed _ _ _ _ Hk) Hfuel).
  intros seeds Hin. apply (combinations_incl _ _ _ Hin).
Qed.

(** ** Reading the tokens *)

Lemma process_gauss_code_cons (s : string) (rest : list string) :
  process_gauss_code (s :: rest)
    = (n <- py_int (remove_commas s) ;;
       ns <- process_gauss_code rest ;;
       Return (n :: ns)).
Proof. reflexivity. Qed.

Lemma py_int_outcome (s : string) :
  (exists n, py_int s = Return n) \/ py_int s = Raise ValueError.
Proof.
  assert (H : forall ds, (exists n, int_literal ds = Return n) \/
                         int_literal ds = Raise ValueError).
  { intros ds. unfold int_literal.
    destruct (int_digits 0 false ds); [|now right].
    destruct (max_str_digits <? _); eauto. }
  unfold py_int.
  destruct (decode_utf8 (list_ascii_of_string s)) as [cps|]; [|now right].
  destruct (transform cps) as [text|]; [|now right].
  unfold parse_int.
  destruct (strip text) as [|c ds]; [apply H|].
  destruct (H ds) as [[n Hn]|Hn], (H (c :: ds)) as [[m Hm]|Hm];
    destruct c as [[] [] [] [] [] [] [] []]; rewrite ?Hn; cbn [bind]; eauto.
Qed.

Lemma int_digits_cons (c : ascii) (l : list ascii) (acc : Z) (b : bool) :
  is_digit c = true ->
  int_digits acc b (c :: l) = int_digits (10 * acc + digit_val c) true l.
Proof. intros H. cbn [int_digits]. now rewrite H. Qed.

(** One digit of a numeral read by [int_digits]. *)
Ltac read_digit :=
  unfold digits_of;
  cbn [DecimalString.NilEmpty.string_of_uint list_ascii_of_string
       Pos.of_uint_acc Pos.of_uint];
  rewrite int_digits_cons by reflexivity;
  match goal with
  | |- context [digit_val ?c] =>
      let v := eval vm_compute in (digit_val c) in change (digit_val c) with v
  end.

Lemma int_digits_acc (d : Decimal.uint) :
  forall p : positive,
    int_digits (Z.pos p) true (digits_of d) = Some (Z.pos (Pos.of_uint_acc d p)).
Proof.
  induction d as [|d IH|d IH|d IH|d IH|d IH|d IH|d IH|d IH|d IH|d IH]; intros p;
    [reflexivity|..];
    read_digit; fold (digits_of d); rewrite <- IH; f_equal; lia.
Qed.

Lemma int_digits_uint (d : Decimal.uint) :
  forall b, d <> Decimal.Nil \/ b = true ->
    int_digits 0 b (digits_of d) = Some (Z.of_N (Pos.of_uint d)).
Proof.
  induction d as [|d IH|d IH|d IH|d IH|d IH|d IH|d IH|d IH|d IH|d IH]; intros b Hb;
    try (read_digit; fold (digits_of d); exact (int_digits_acc d _)).
  - destruct Hb as [Hb| ->]; [contradiction Hb; reflexivity | reflexivity].
  - read_digit. fold (digits_of d). apply (IH true). now right.
Qed.

Lemma digits_of_digits (d : Decimal.uint) :
  Forall (fun c => is_digit c = true) (digits_of d).
Proof.
  unfold digits_of.
  induction d; cbn [DecimalString.NilEmpty.string_of_uint list_ascii_of_string];
    constructor; auto.
Qed.

Lemma lstrip_no_blank (l : list ascii) :
  Forall (fun c => is_space c = false) l -> lstrip l = l.
Proof. destruct 1 as [|c l Hc _]; [reflexivity|]. cbn. now rewrite Hc. Qed.

Lemma strip_no_blank (l : list ascii) :
  Forall (fun c => is_space c = false) l -> strip l = l.
Proof.
  intros H. unfold strip. rewrite (lstrip_no_blank l H), lstrip_no_blank.
  - apply rev_involutive.
  - apply Forall_rev. exact H.
Qed.

Lemma digit_not_blank (c : ascii) : is_digit c = true -> is_space c = false.
Proof.
  unfold is_digit, is_space. intros H. apply andb_prop in H. destruct H as [H1 H2].
  apply Nat.leb_le in H1, H2.
  apply orb_false_intro; [|apply Nat.eqb_neq; lia].
  apply andb_false_intro2. apply Nat.leb_gt. lia.
Qed.

Lemma int_literal_digits (d : Decimal.uint) :
  d <> Decimal.Nil -> length (digits_of d) <= max_str_digits ->
  int_literal (digits_of d) = Return (Z.of_N (Pos.of_uint d)).
Proof.
  intros Hd Hlen. unfold int_literal.
  rewrite (int_digits_uint d false (or_introl Hd)).
  replace (max_str_digits <? _) with false; [reflexivity|].
  symmetry. apply Nat.ltb_ge.
  eapply Nat.le_trans; [apply filter_length_le | exact Hlen].
Qed.

Lemma length_list_ascii (s : string) :
  length (list_ascii_of_string s) = String.length s.
Proof. induction s as [|c s IH]; cbn; [reflexivity | now rewrite IH]. Qed.

Lemma to_uint_not_Nil (p : positive) : Pos.to_uint p <> Decimal.Nil.
Proof.
  intros E. pose proof (DecimalPos.Unsigned.of_to p) as H. rewrite E in H.
  discriminate H.
Qed.

(** Text below code point 127 is its own UTF-8 encoding, and [int] reads
    it as it stands. *)
Lemma decode_plain (l : list ascii) :
  Forall (fun c => (N_of_ascii c < 127)%N) l ->
  decode_utf8 l = Some (map N_of_ascii l) /\ transform (map N_of_ascii l) = Some l.
Proof.
  induction 1 as [|c l Hc _ [IH1 IH2]]; [split; reflexivity|].
  cbn [decode_utf8 map transform]. rewrite IH1, IH2. cbn [option_map].
  replace (N_of_ascii c <? 128)%N with true by (symmetry; apply N.ltb_lt; lia).
  split; [reflexivity|]. unfold to_ascii.
  replace (N_of_ascii c <? 127)%N with true by (symmetry; apply N.ltb_lt; lia).
  now rewrite ascii_N_embedding.
Qed.

Lemma py_int_plain (s : string) :
  Forall (fun c => (N_of_ascii c < 127)%N) (list_ascii_of_string s) ->
  py_int s = parse_int (list_ascii_of_string s).
Proof.
  intros H. unfold py_int. destruct (decode_plain _ H) as [-> ->]. reflexivity.
Qed.

Lemma digit_plain (c : ascii) : is_digit c = true -> (N_of_ascii c < 127)%N.
Proof.
  unfold is_digit, nat_of_ascii. intros H. apply andb_prop in H.
  destruct H as [_ H]. apply Nat.leb_le in H. lia.
Qed.

Lemma py_int_digits (d : Decimal.uint) :
  d <> Decimal.Nil -> length (digits_of d) <= max_str_digits ->
  py_int (DecimalString.NilEmpty.string_of_uint d) = Return (Z.of_N (Pos.of_uint d)) /\
  py_int (String "-" (DecimalString.NilEmpty.string_of_uint d))
    = Return (- Z.of_N (Pos.of_uint d))%Z.
Proof.
  intros Hd Hlen.
  pose proof (int_literal_digits d Hd Hlen) as Hlit.
  assert (Hnb : Forall (fun c => is_space c = false) (digits_of d)).
  { eapply Forall_impl; [|apply digits_of_digits]. apply digit_not_blank. }
  assert (Hplain : Forall (fun c => (N_of_ascii c < 127)%N) (digits_of d)).
  { eapply Forall_impl; [|apply digits_of_digits]. apply digit_plain. }
  split.
  - rewrite py_int_plain by exact Hplain. unfold parse_int.
    fold (digits_of d). rewrite (strip_no_blank _ Hnb).
    pose proof (digits_of_digits d) as Hdig.
    destruct (digits_of d) as [|c ds] eqn:E; [exact Hlit|].
    inversion Hdig as [|? ? Hc _]; subst.
    destruct c as [[] [] [] [] [] [] [] []]; try discriminate Hc; exact Hlit.
  - rewrite py_int_plain.
    + unfold parse_int. cbn [list_ascii_of_string]. fold (digits_of d).
      rewrite strip_no_blank by (constructor; [reflexivity | exact Hnb]).
      rewrite Hlit. reflexivity.
    + cbn [list_ascii_of_string]. constructor; [reflexivity | exact Hplain].
Qed.

Lemma py_int_token_of (z : Z) :
  String.length (token_of z) <= max_str_digits -> py_int (token_of z) = Return z.
Proof.
  unfold token_of. destruct z as [|p|p]; intros Hlen.
  - reflexivity.
  - cbn [Z.to_int DecimalString.NilZero.string_of_int] in *.
    pose proof (to_uint_not_Nil p) as Hn.
    assert (E : DecimalString.NilZero.string_of_uint (Pos.to_uint p)
                = DecimalString.NilEmpty.string_of_uint (Pos.to_uint p)).
    { destruct (Pos.to_uint p); [contradiction Hn|..]; reflexivity. }
    rewrite E in *.
    destruct (py_int_digits (Pos.to_uint p) Hn) as [H _].
    { unfold digits_of. rewrite length_list_ascii. exact Hlen. }
    rewrite H, DecimalPos.Unsigned.of_to. reflexivity.
  - cbn [Z.to_int DecimalString.NilZero.string_of_int] in *.
    pose proof (to_uint_not_Nil p) as Hn.
    assert (E : DecimalString.NilZero.string_of_uint (Pos.to_uint p)
                = DecimalString.NilEmpty.string_of_uint (Pos.to_uint p)).
    { destruct (Pos.to_uint p); [contradiction Hn|..]; reflexivity. }
    rewrite E in *.
    destruct (py_int_digits (Pos.to_uint p) Hn) as [_ H].
    { unfold digits_of. rewrite length_list_ascii.
      cbn [String.length] in Hlen. lia. }
    rewrite H, DecimalPos.Unsigned.of_to. reflexivity.
Qed.

Lemma remove_commas_digits (d : Decimal.uint) :
  remove_commas (DecimalString.NilEmpty.string_of_uint d)
    = DecimalString.NilEmpty.string_of_uint d.
Proof.
  induction d; cbn [DecimalString.NilEmpty.string_of_uint remove_commas];
    [reflexivity|..]; cbn [Ascii.eqb Bool.eqb]; now rewrite IHd.
Qed.

Lemma remove_commas_token_of (z : Z) : remove_commas (token_of z) = token_of z.
Proof.
  unfold token_of. destruct z as [|p|p]; [reflexivity|..];
    cbn [Z.to_int DecimalString.NilZero.string_of_int];
    unfold DecimalString.NilZero.string_of_uint;
    destruct (Pos.to_uint p) eqn:E; try reflexivity;
    rewrite <- E; cbn [remove_commas Ascii.eqb Bool.eqb];
    now rewrite remove_commas_digits.
Qed.

Lemma short_tokens (zs : list Z) :
  forallb (fun z => String.length (token_of z) <=? max_str_digits) zs = true ->
  Forall (fun z => String.length (token_of z) <= max_str_digits) zs.
Proof.
  intros H. apply Forall_forall. intros z Hz.
  rewrite forallb_forall in H. apply Nat.leb_le. exact (H z Hz).
Qed.

(** X1. Integers written in decimal are read back as they are: on the
    decimal spellings of any integers, each within the digit limit of
    [int], [process_gauss_code] returns these integers, in order. *)
Theorem process_gauss_code_reads_decimal (zs : list Z) :
  Forall (fun z => String.length (token_of z) <= max_str_digits) zs ->
  process_gauss_code (map token_of zs) = Return zs.
Proof.
  induction 1 as [|z zs Hz _ IH]; [reflexivity|].
  cbn [map]. rewrite process_gauss_code_cons, remove_commas_token_of.
  rewrite (py_int_token_of z Hz). cbn [bind]. rewrite IH. reflexivity.
Qed.

Lemma process_gauss_code_reads_decimal_witness :
  process_gauss_code (map token_of five_crossings) = Return five_crossings.
Proof.
  apply (process_gauss_code_reads_decimal five_crossings).
  apply short_tokens. vm_compute. reflexivity.
Defined.

Lemma remove_commas_app (a b : string) :
  remove_commas (a ++ b) = (remove_commas a ++ remove_commas b)%string.
Proof.
  induction a as [|c a IH]; cbn; [reflexivity|].
  destruct (Ascii.eqb c ","); cbn; now rewrite IH.
Qed.

Lemma process_gauss_code_app (pre post : list string) :
  process_gauss_code (pre ++ post)
    = (a <- process_gauss_code pre ;;
       b <- process_gauss_code post ;;
       Return (a ++ b)).
Proof.
  induction pre as [|s pre IH].
  - cbn. destruct (process_gauss_code post); reflexivity.
  - cbn [app]. rewrite !process_gauss_code_cons, IH.
    destruct (py_int (remove_commas s)); cbn [bind]; [|reflexivity..].
    destruct (process_gauss_code pre); cbn [bind]; [|reflexivity..].
    destruct (process_gauss_code post); reflexivity.
Qed.

(** X2. Commas carry no meaning: a comma put anywhere inside any token
    changes neither the integers read nor the error raised. *)
Theorem process_gauss_code_ignores_commas (pre post : list string) (a b : string) :
  process_gauss_code (pre ++ (a ++ "," ++ b)%string :: post)
    = process_gauss_code (pre ++ (a ++ b)%string :: post).
Proof.
  rewrite !process_gauss_code_app, !process_gauss_code_cons.
  now rewrite !remove_commas_app.
Qed.

(** ** The seed tuples *)

Lemma get_seeds_sublist {A : Type} (l : list A) :
  forall k c, In c (combinations l k) -> sublist c l /\ length c = k.
Proof.
  induction l as [|x l IH]; intros k c Hin.
  - destruct k; cbn in Hin; [|contradiction].
    destruct Hin as [<-|[]]. split; [constructor | reflexivity].
  - destruct k.
    + cbn in Hin. destruct Hin as [<-|[]]. split; [|reflexivity].
      constructor. clear. induction l; constructor; assumption.
    + cbn in Hin. apply in_app_or in Hin. destruct Hin as [Hin|Hin].
      * apply in_map_iff in Hin. destruct Hin as (c' & <- & Hin).
        apply IH in Hin. destruct Hin as [Hs Hl].
        split; [now constructor | cbn; now rewrite Hl].
      * apply IH in Hin. destruct Hin as [Hs Hl]. split; [now constructor | assumption].
Qed.

Lemma sublist_get_seeds {A : Type} (c l : list A) :
  sublist c l -> In c (combinations l (length c)).
Proof.
  induction 1 as [|x c l Hs IH|x c l Hs IH].
  - now left.
  - destruct c as [|y c].
    + cbn. now left.
    + cbn [length combinations]. apply in_or_app. right. exact IH.
  - cbn [length combinations]. apply in_or_app. left.
    apply in_map. exact IH.
Qed.

(** X3. The seed tuples [get_seeds] hands out are exactly the selections
    of [length] strands that keep the order of the strand list. *)
Theorem get_seeds_selections (strands : list label) (length0 : nat) (seeds : list label) :
  In seeds (get_seeds strands length0) <->
  sublist seeds strands /\ length seeds = length0.
Proof.
  unfold get_seeds. split.
  - apply get_seeds_sublist.
  - intros [Hs <-]. now apply sublist_get_seeds.
Qed.

(** X4. [calc] tries [n (n - 1) (n - 2) / 6] seed triples on a diagram
    of [n] strands. *)
Theorem get_seeds_triples_count (strands : list label) :
  6 * length (get_seeds strands 3)
    = length strands * (length strands - 1) * (length strands - 2).
Proof.
  unfold get_seeds.
  induction strands as [|x l IH]; [reflexivity|].
  change (combinations (x :: l) 3)
    with (map (cons x) (combinations l 2) ++ combinations l 3).
  rewrite length_app, length_map.
  pose proof (length_combinations_2 l) as H2.
  cbn [length]. plain_types.
  destruct (length l) as [|[|n]]; [lia | lia |].
  replace (S (S n) - 1) with (S n) in * by lia.
  replace (S (S n) - 2) with n in * by lia.
  replace (S (S (S n)) - 1) with (S (S n)) by lia.
  replace (S (S (S n)) - 2) with (S n) by lia. nia.
Qed.

Lemma sublist_In {A : Type} (c l : list A) (x : A) :
  sublist c l -> In x c -> In x l.
Proof.
  induction 1 as [|y c l Hs IH|y c l Hs IH]; intros Hin.
  - assumption.
  - right. auto.
  - destruct Hin as [<-|Hin]; [now left | right; auto].
Qed.

Lemma sublist_NoDup {A : Type} (c l : list A) :
  sublist c l -> NoDup l -> NoDup c.
Proof.
  induction 1 as [|y c l Hs IH|y c l Hs IH]; intros Hnd.
  - assumption.
  - inversion Hnd; auto.
  - inversion Hnd as [|? ? Hy Hl]; subst. constructor; [|auto].
    intros Hin. apply Hy. eapply sublist_In; eassumption.
Qed.

Lemma NoDup_combinations {A : Type} (l : list A) :
  NoDup l -> forall k, NoDup (combinations l k).
Proof.
  induction l as [|x l IH]; intros Hnd k.
  - destruct k; cbn; repeat constructor. intros [].
  - destruct k; [cbn; repeat constructor; intros []|].
    inversion Hnd as [|? ? Hx Hl]; subst.
    cbn [combinations]. apply NoDup_app; repeat split.
    + apply Finite.Injective_map_NoDup; [|auto]. intros a b Hab. now inversion Hab.
    + auto.
    + intros c Hc Hc'. apply in_map_iff in Hc. destruct Hc as (c' & <- & _).
      apply get_seeds_sublist in Hc'. destruct Hc' as [Hs _].
      apply Hx. eapply sublist_In; [exact Hs | now left].
Qed.

(** X5. On strand names that are pairwise different no seed tuple comes
    twice and no tuple names a strand twice. *)
Theorem get_seeds_no_repeat (strands : list label) (length0 : nat) :
  NoDup strands ->
  NoDup (get_seeds strands length0) /\
  forall seeds, In seeds (get_seeds strands length0) -> NoDup seeds.
Proof.
  intros Hnd. split.
  - now apply NoDup_combinations.
  - intros seeds Hin. apply get_seeds_sublist in Hin.
    eapply sublist_NoDup; [apply Hin | exact Hnd].
Qed.

Lemma get_seeds_no_repeat_witness :
  NoDup ["A"; "B"; "C"; "D"] /\
  NoDup (get_seeds ["A"; "B"; "C"; "D"] 3) /\
  forall seeds, In seeds (get_seeds ["A"; "B"; "C"; "D"] 3) -> NoDup seeds.
Proof.
  assert (H : NoDup ["A"; "B"; "C"; "D"]).
  { repeat constructor; cbn; intuition discriminate. }
  split; [exact H | exact (get_seeds_no_repeat ["A"; "B"; "C"; "D"] 3 H)].
Defined.

(** ** Colours of strands *)

Lemma find_color_uncolored (x : label) (d : color_dict) :
  is_colored x d = false -> find_color x d = "".
Proof.
  induction d as [|[k p] d IH]; cbn; [reflexivity|].
  destruct (mem x p); [discriminate | exact IH].
Qed.

Lemma find_color_key (x : label) (d : color_dict) :
  is_colored x d = true -> In (find_color x d) (keys d).
Proof.
  induction d as [|[k p] d IH]; cbn; [discriminate|].
  destruct (mem x p); [now left | right; auto].
Qed.

(** X6. In a dictionary of pairwise disjoint parts none of which is keyed
    by the empty string, [find_color] names the part a strand lies in,
    and it returns the empty string exactly for the strands [is_colored]
    rejects. *)
Theorem find_color_names_the_part (x : label) (d : color_dict) :
  NoDup (keys d) -> NoDup (colored_set d) -> ~ In "" (keys d) ->
  (forall k part, lookup k d = Some part -> (In x part <-> find_color x d = k)) /\
  (find_color x d = "" <-> is_colored x d = false).
Proof.
  intros Hk Hnd He. split.
  - intros k part Hl. split.
    + intros Hin. eapply part_find_color; eassumption.
    + intros <-. destruct (is_colored x d) eqn:Hc.
      * destruct (find_color_lookup x d Hk Hc) as (p & Hp & Hin). congruence.
      * rewrite (find_color_uncolored _ _ Hc) in Hl.
        exfalso. apply He. eapply lookup_In_keys. exact Hl.
  - split.
    + intros E. destruct (is_colored x d) eqn:Hc; [|reflexivity].
      exfalso. apply He. rewrite <- E. now apply find_color_key.
    + apply find_color_uncolored.
Qed.

Lemma find_color_names_the_part_witness :
  (forall k part, lookup k three_seeds = Some part ->
     (In "B" part <-> find_color "B" three_seeds = k)) /\
  (find_color "B" three_seeds = "" <-> is_colored "B" three_seeds = false).
Proof.
  apply (find_color_names_the_part "B" three_seeds).
  - repeat constructor; cbn; intuition discriminate.
  - repeat constructor; cbn; intuition discriminate.
  - cbn; intuition discriminate.
Defined.

(** ** Coloured strands outside the diagram *)

Lemma count_strands_unknown (d : color_dict) (knot : knot_dict) (x : label) :
  NoDup (keys d) -> NoDup (colored_set d) -> ~ In x (keys knot) ->
  forall part n, In x part -> count_strands d knot part n = Raise KeyError.
Proof.
  intros Hk Hnd Hx. induction part as [|s part IH]; intros n Hin; [contradiction|].
  cbn [count_strands]. destruct (lookup s knot) as [[t cs]|] eqn:Hl; [|reflexivity].
  rewrite (count_crossings_filter d cs Hk Hnd). cbn [bind].
  destruct Hin as [->|Hin]; [|now apply IH].
  exfalso. apply Hx. eapply lookup_In_keys. exact Hl.
Qed.

Lemma count_strands_outcome (d : color_dict) (knot : knot_dict) :
  NoDup (keys d) -> NoDup (colored_set d) ->
  forall part n,
    (exists n', count_strands d knot part n = Return n') \/
    count_strands d knot part n = Raise KeyError.
Proof.
  intros Hk Hnd. induction part as [|s part IH]; intros n; cbn [count_strands].
  - left. eauto.
  - destruct (lookup s knot) as [[t cs]|]; [|now right].
    rewrite (count_crossings_filter d cs Hk Hnd). cbn [bind]. apply IH.
Qed.

Lemma count_colors_unknown (d : color_dict) (knot : knot_dict) (x : label) :
  NoDup (keys d) -> NoDup (colored_set d) -> ~ In x (keys knot) ->
  forall parts n, In x (colored_set parts) ->
    count_colors d knot parts n = Raise KeyError.
Proof.
  intros Hk Hnd Hx. induction parts as [|[k p] parts IH]; intros n Hin; [contradiction|].
  cbn [count_colors].
  unfold colored_set in Hin. cbn [map concat snd] in Hin. apply in_app_or in Hin.
  destruct (count_strands_outcome d knot Hk Hnd p n) as [[n' Hn]|Hn].
  - destruct Hin as [Hin|Hin].
    + rewrite (count_strands_unknown d knot x Hk Hnd Hx p n Hin) in Hn. discriminate.
    + rewrite Hn. cbn [bind]. now apply IH.
  - rewrite Hn. reflexivity.
Qed.

(** X7. [count_multicolored_crossings] looks every coloured strand up in
    the diagram: if one of them is not a strand of the diagram, the call
    raises [KeyError], wherever the strand stands in the partition. *)
Theorem count_multicolored_crossings_unknown_strand (d : color_dict)
  (knot : knot_dict) (x : label) :
  NoDup (keys d) -> NoDup (colored_set d) ->
  In x (colored_set d) -> ~ In x (keys knot) ->
  count_multicolored_crossings d knot = Raise KeyError.
Proof.
  intros Hk Hnd Hin Hx. unfold count_multicolored_crossings.
  now apply (count_colors_unknown d knot x).
Qed.

Lemma count_multicolored_crossings_unknown_strand_witness :
  count_multicolored_crossings [("A", ["A"; "E"]); ("B", ["B"])] two_over_two_knot
    = Raise KeyError.
Proof.
  apply (count_multicolored_crossings_unknown_strand _ _ "E").
  - repeat constructor; cbn; intuition discriminate.
  - repeat constructor; cbn; intuition discriminate.
  - cbn. auto.
  - cbn. intuition discriminate.
Defined.

(** ** A trial on any diagram *)

Section Trial.

Variable knot : knot_dict.
Variable seeds : list label.

Lemma step_refl (st : coloring) : step st st.
Proof. split; [apply grows_refl|]. split; [auto | now left]. Qed.

Lemma step_trans (st1 st2 st3 : coloring) : step st1 st2 -> step st2 st3 -> step st1 st3.
Proof.
  intros (Hg1 & Hf1 & H1) (Hg2 & Hf2 & H2).
  split; [eapply grows_trans; eassumption|]. split; [auto|].
  destruct H2 as [->|H2]; [|now right]. exact H1.
Qed.

(** With the flag down at the end, nothing has changed on the way. *)
Lemma step_back (st st1 st2 : coloring) :
  step st st1 -> step st1 st2 -> new_coloring st2 = false -> st1 = st /\ st2 = st1.
Proof.
  intros (_ & _ & H1) (_ & Hf2 & H2) Hflag.
  destruct H2 as [->|H2]; [|congruence].
  destruct H1 as [->|H1]; [auto | congruence].
Qed.

Lemma coherent_mem (st : coloring) (x : label) :
  coherent knot seeds st ->
  mem x (colored_strands st) = true <-> In x (colored_set (strand_colors_dict st)).
Proof. intros Hc. rewrite mem_true. apply (coherent_colored _ _ _ Hc). Qed.

Lemma assign_coherent (st : coloring) (source x : label) :
  coherent knot seeds st ->
  In source (colored_set (strand_colors_dict st)) ->
  ~ In x (colored_set (strand_colors_dict st)) ->
  reach knot seeds x ->
  exists st',
    assign source x st = Return st' /\ coherent knot seeds st' /\
    grows (strand_colors_dict st) (strand_colors_dict st') /\
    new_coloring st' = true.
Proof.
  intros [Hk Hnd Hsame Hreached] Hsrc Hx Hreach.
  destruct (find_color_lookup source _ Hk (proj2 (is_colored_In _ _) Hsrc))
    as [p [Hl Hp]].
  destruct (dict_append_grows _ x _ p Hl) as [d' [Ha [Hg [Hl' Hperm]]]].
  unfold assign. rewrite Ha. eexists. split; [reflexivity|].
  split; [|split; [exact Hg | reflexivity]].
  constructor; simpl.
  - rewrite (grows_keys _ _ Hg). exact Hk.
  - eapply Permutation_NoDup; [exact Hperm|]. constructor; assumption.
  - intros y. rewrite in_app_iff. simpl. split.
    + intros [Hy|[<-|[]]]; apply (Permutation_in _ Hperm).
      * right. apply Hsame. exact Hy.
      * left. reflexivity.
    + intros Hy. apply (Permutation_in _ (Permutation_sym Hperm)) in Hy.
      destruct Hy as [<-|Hy]; [right; left; reflexivity|].
      left. apply Hsame. exact Hy.
  - intros y Hy. apply (Permutation_in _ (Permutation_sym Hperm)) in Hy.
    destruct Hy as [<-|Hy]; [exact Hreach | apply Hreached; exact Hy].
Qed.

Lemma color_crossing_coherent (st : coloring) (c : crossing) (s : label) :
  coherent knot seeds st ->
  In s (colored_set (strand_colors_dict st)) ->
  In c (crossings_under knot s) ->
  exists st',
    color_crossing c st = Return st' /\ coherent knot seeds st' /\ step st st' /\
    (new_coloring st' = false -> quiet (strand_colors_dict st) c).
Proof.
  intros Hc Hs Hin.
  pose proof (coherent_reached _ _ _ Hc) as Hreached.
  unfold color_crossing, quiet. destruct c as [c0 c1]. cbn [fst snd] in *.
  destruct (mem c0 (colored_strands st)) eqn:H0;
    destruct (mem c1 (colored_strands st)) eqn:H1; cbn [andb negb].
  - exists st. split; [reflexivity|]. split; [exact Hc|].
    split; [apply step_refl|]. intros _.
    apply (coherent_mem st _ Hc) in H0. apply (coherent_mem st _ Hc) in H1. tauto.
  - apply (coherent_mem st _ Hc) in H0.
    assert (Hn1 : ~ In c1 (colored_set (strand_colors_dict st))).
    { intros Hin1. apply (coherent_mem st _ Hc) in Hin1. congruence. }
    destruct (assign_coherent st c0 c1 Hc H0 Hn1) as [st' [Ha [Hc' [Hg Hf]]]].
    { apply (reach_snd knot seeds s (c0, c1)); auto. }
    exists st'. split; [exact Ha|]. split; [exact Hc'|]. split.
    + split; [exact Hg|]. split; [auto | now right].
    + congruence.
  - apply (coherent_mem st _ Hc) in H1.
    assert (Hn0 : ~ In c0 (colored_set (strand_colors_dict st))).
    { intros Hin0. apply (coherent_mem st _ Hc) in Hin0. congruence. }
    destruct (assign_coherent st c1 c0 Hc H1 Hn0) as [st' [Ha [Hc' [Hg Hf]]]].
    { apply (reach_fst knot seeds s (c0, c1)); auto. }
    exists st'. split; [exact Ha|]. split; [exact Hc'|]. split.
    + split; [exact Hg|]. split; [auto | now right].
    + congruence.
  - exists st. split; [reflexivity|]. split; [exact Hc|].
    split; [apply step_refl|]. intros _.
    split; intros Hin'; apply (coherent_mem st _ Hc) in Hin'; congruence.
Qed.

Lemma visit_crossings_coherent (s : label) (cs : list crossing) :
  incl cs (crossings_under knot s) ->
  forall st,
    coherent knot seeds st ->
    In s (colored_set (strand_colors_dict st)) ->
    exists st',
      visit_crossings cs st = Return st' /\ coherent knot seeds st' /\ step st st' /\
      (new_coloring st' = false ->
       forall c, In c cs -> quiet (strand_colors_dict st) c).
Proof.
  induction cs as [|c cs IH]; intros Hincl st Hc Hs; cbn [visit_crossings].
  - exists st. split; [reflexivity|]. split; [exact Hc|].
    split; [apply step_refl|]. intros _ c [].
  - destruct (color_crossing_coherent st c s Hc Hs (Hincl c (or_introl eq_refl)))
      as [st1 [H1 [Hc1 [Hp1 Hq1]]]].
    rewrite H1. cbn [bind].
    destruct (IH (fun x Hx => Hincl x (or_intror Hx)) st1 Hc1
                 (grows_In _ _ s (proj1 Hp1) Hs))
      as [st2 [H2 [Hc2 [Hp2 Hq2]]]].
    exists st2. split; [exact H2|]. split; [exact Hc2|].
    split; [eapply step_trans; eassumption|].
    intros Hflag. destruct (step_back st st1 st2 Hp1 Hp2 Hflag) as [E1 E2].
    subst st2 st1.
    intros c' [<-|Hc']; [apply Hq1; exact Hflag | apply Hq2; [exact Hflag | exact Hc']].
Qed.

Lemma visit_strands_coherent (seed : label) (fuel : nat) :
  forall j st st',
    coherent knot seeds st ->
    visit_strands fuel knot seed j st = Return st' ->
    coherent knot seeds st' /\ step st st' /\
    (new_coloring st' = false ->
     forall s, In s (skipn j (part_of seed (strand_colors_dict st))) ->
       In s (keys knot) /\
       forall c, In c (crossings_under knot s) -> quiet (strand_colors_dict st) c).
Proof.
  induction fuel as [|fuel IH]; intros j st st' Hc Hrun; [discriminate|].
  cbn [visit_strands] in Hrun. unfold part_of.
  destruct (lookup seed (strand_colors_dict st)) as [part|] eqn:Hl; [|discriminate].
  destruct (nth_error part j) as [strand|] eqn:Hj.
  - assert (Hcol : In strand (colored_set (strand_colors_dict st))).
    { eapply lookup_In_colored_set; [exact Hl|]. eapply nth_error_In. exact Hj. }
    destruct (lookup strand knot) as [[t cs]|] eqn:Hk; [|discriminate].
    assert (Hcs : crossings_under knot strand = cs)
      by (unfold crossings_under; rewrite Hk; reflexivity).
    destruct (visit_crossings_coherent strand cs) with (st := st)
      as [st1 [H1 [Hc1 [Hp1 Hq1]]]]; try assumption.
    { rewrite Hcs. apply incl_refl. }
    rewrite H1 in Hrun. cbn [bind] in Hrun.
    destruct (IH (S j) st1 st' Hc1 Hrun) as [Hc2 [Hp2 Hq2]].
    split; [exact Hc2|]. split; [eapply step_trans; eassumption|].
    intros Hflag. destruct (step_back st st1 st' Hp1 Hp2 Hflag) as [E1 E2].
    subst st' st1. unfold part_of in Hq2. rewrite Hl in Hq2.
    intros s Hs. rewrite (skipn_nth_error _ _ _ Hj) in Hs. destruct Hs as [<-|Hs].
    + split; [eapply lookup_In_keys; exact Hk|].
      intros c Hin. apply Hq1; [exact Hflag|]. rewrite <- Hcs. exact Hin.
    + apply (Hq2 Hflag s Hs).
  - injection Hrun as <-. split; [exact Hc|]. split; [apply step_refl|].
    intros _ s Hs.
    apply nth_error_None in Hj. rewrite skipn_all2 in Hs by exact Hj.
    contradiction.
Qed.

Lemma visit_seeds_coherent (fuel : nat) :
  forall todo st st',
    coherent knot seeds st ->
    visit_seeds fuel knot todo st = Return st' ->
    coherent knot seeds st' /\ step st st' /\
    (new_coloring st' = false ->
     forall seed s, In seed todo -> In s (part_of seed (strand_colors_dict st)) ->
       In s (keys knot) /\
       forall c, In c (crossings_under knot s) -> quiet (strand_colors_dict st) c).
Proof.
  induction todo as [|seed todo IH]; intros st st' Hc Hrun; cbn [visit_seeds] in Hrun.
  - injection Hrun as <-. split; [exact Hc|]. split; [apply step_refl|].
    intros _ seed s [].
  - destruct (visit_strands fuel knot seed 0 st) as [st1| |] eqn:H1; try discriminate.
    cbn [bind] in Hrun.
    destruct (visit_strands_coherent seed fuel 0 st st1 Hc H1) as [Hc1 [Hp1 Hq1]].
    destruct (IH st1 st' Hc1 Hrun) as [Hc2 [Hp2 Hq2]].
    split; [exact Hc2|]. split; [eapply step_trans; eassumption|].
    intros Hflag. destruct (step_back st st1 st' Hp1 Hp2 Hflag) as [E1 E2].
    subst st' st1.
    intros seed' s [<-|Hin] Hs.
    + apply (Hq1 Hflag s). exact Hs.
    + apply (Hq2 Hflag seed' s); assumption.
Qed.

Lemma one_pass_coherent (fuel : nat) (st st' : coloring) :
  coherent knot seeds st ->
  one_pass fuel knot st = Return st' ->
  coherent knot seeds st' /\
  grows (strand_colors_dict st) (strand_colors_dict st') /\
  (new_coloring st' = false ->
   incl (colored_set (strand_colors_dict st')) (keys knot) /\
   fixed knot (strand_colors_dict st')).
Proof.
  intros Hc Hrun. unfold one_pass in Hrun.
  set (st0 := mk_coloring (strand_colors_dict st) (colored_strands st) false) in *.
  assert (Hc0 : coherent knot seeds st0) by (destruct Hc; constructor; assumption).
  destruct (visit_seeds_coherent fuel _ st0 st' Hc0 Hrun) as [Hc' [[Hg [_ Hp]] Hq]].
  split; [exact Hc'|]. split; [exact Hg|].
  intros Hflag. destruct Hp as [E|Hp]; [|congruence].
  subst st'. cbn [strand_colors_dict st0] in *.
  assert (Hall : forall s, In s (colored_set (strand_colors_dict st)) ->
            In s (keys knot) /\
            forall c, In c (crossings_under knot s) -> quiet (strand_colors_dict st) c).
  { intros s Hs.
    destruct (In_colored_set_lookup s _ (coherent_keys _ _ _ Hc) Hs) as [k [p [Hl Hp]]].
    apply (Hq Hflag k s).
    - eapply lookup_In_keys. exact Hl.
    - unfold part_of. rewrite Hl. exact Hp. }
  split.
  - intros s Hs. apply (Hall s Hs).
  - intros s c Hs Hin. apply (proj2 (Hall s Hs) c Hin).
Qed.

Lemma extend_coherent (fuel : nat) :
  forall st st',
    coherent knot seeds st ->
    new_coloring st = true ->
    extend fuel knot st = Return st' ->
    coherent knot seeds st' /\
    grows (strand_colors_dict st) (strand_colors_dict st') /\
    incl (colored_set (strand_colors_dict st')) (keys knot) /\
    fixed knot (strand_colors_dict st').
Proof.
  induction fuel as [|fuel IH]; intros st st' Hc Hflag Hrun; [discriminate|].
  cbn [extend] in Hrun. rewrite Hflag in Hrun.
  destruct (one_pass fuel knot st) as [st1| |] eqn:H1; try discriminate.
  cbn [bind] in Hrun.
  destruct (one_pass_coherent fuel st st1 Hc H1) as [Hc1 [Hg1 Hq1]].
  destruct (new_coloring st1) eqn:Hflag1.
  - destruct (IH st1 st' Hc1 Hflag1 Hrun) as [Hc2 [Hg2 [Hk2 Hf2]]].
    split; [exact Hc2|]. split; [eapply grows_trans; eassumption|].
    split; assumption.
  - destruct fuel as [|fuel]; [discriminate|].
    cbn [extend] in Hrun. rewrite Hflag1 in Hrun. injection Hrun as <-.
    split; [exact Hc1|]. split; [exact Hg1|]. apply Hq1. reflexivity.
Qed.

End Trial.

Lemma seed_coloring_coherent (knot : knot_dict) (seeds : list label) :
  coherent knot seeds (seed_coloring seeds) /\
  forall k, In k (keys (strand_colors_dict (seed_coloring seeds))) <-> In k seeds.
Proof.
  destruct (empty_parts_spec seeds [] (NoDup_nil _) (Forall_nil _)) as [Hnd [Hv Hk]].
  destruct (singleton_parts _ Hv) as [Hkeys [Hset Hl]].
  split.
  - constructor; simpl.
    + rewrite Hkeys. exact Hnd.
    + rewrite Hset. exact Hnd.
    + intros x. rewrite Hset, Hk. simpl. tauto.
    + rewrite Hset. intros x Hx. apply reach_seed. apply Hk in Hx. simpl in Hx. tauto.
  - intros k. simpl. rewrite Hkeys, Hk. simpl. tauto.
Qed.

Lemma maximally_extend_reaches (knot : knot_dict) (seeds : list label)
  (fuel : nat) (d : color_dict) :
  maximally_extend fuel seeds knot = Return d ->
  incl (colored_set d) (keys knot) /\
  forall x, In x (colored_set d) <-> reach knot seeds x.
Proof.
  unfold maximally_extend. intros Hrun.
  apply bind_Return in Hrun. destruct Hrun as [st [He Hd]]. injection Hd as <-.
  destruct (seed_coloring_coherent knot seeds) as [Hc0 _].
  destruct (extend_coherent knot seeds fuel _ st Hc0 eq_refl He)
    as [Hc [Hg [Hknown Hfix]]].
  split; [exact Hknown|].
  intros x. split; [apply (coherent_reached _ _ _ Hc)|].
  apply fixed_reach; [exact Hfix|].
  intros s Hs. apply (grows_In _ _ s Hg).
  apply (coherent_colored _ _ _ Hc0). exact Hs.
Qed.

(** X8. On any diagram and any seeds: a partition [maximally_extend]
    returns has the seeds as its keys, pairwise disjoint parts, only
    strands of the diagram in them, and its coloured strands are exactly
    the strands the propagation rule reaches from the seeds; no crossing
    under a coloured strand can colour a further strand. *)
Theorem maximally_extend_returns (knot : knot_dict) (seeds : list label)
  (fuel : nat) (d : color_dict) :
  maximally_extend fuel seeds knot = Return d ->
  NoDup (keys d) /\ (forall k, In k (keys d) <-> In k seeds) /\
  NoDup (colored_set d) /\ incl (colored_set d) (keys knot) /\
  (forall x, In x (colored_set d) <-> reach knot seeds x) /\
  fixed knot d.
Proof.
  unfold maximally_extend. intros Hrun.
  destruct (extend fuel knot (seed_coloring seeds)) as [st| |] eqn:He; try discriminate.
  cbn [bind] in Hrun. injection Hrun as <-.
  destruct (seed_coloring_coherent knot seeds) as [Hc0 Hkeys].
  destruct (extend_coherent knot seeds fuel _ st Hc0 eq_refl He)
    as [Hc [Hg [Hknown Hfix]]].
  split; [apply (coherent_keys _ _ _ Hc)|].
  split; [intros k; rewrite (grows_keys _ _ Hg); apply Hkeys|].
  split; [apply (coherent_parts _ _ _ Hc)|].
  split; [exact Hknown|]. split; [|exact Hfix].
  intros x. split; [apply (coherent_reached _ _ _ Hc)|].
  apply fixed_reach; [exact Hfix|].
  intros s Hs. apply (grows_In _ _ s Hg).
  apply (coherent_colored _ _ _ Hc0). exact Hs.
Qed.

Lemma maximally_extend_returns_witness :
  let d := [("A", ["A"; "B"; "C"]); ("D", ["D"])] in
  maximally_extend 10 ["A"; "D"] two_over_two_knot = Return d /\
  NoDup (keys d) /\ (forall k, In k (keys d) <-> In k ["A"; "D"]) /\
  NoDup (colored_set d) /\ incl (colored_set d) (keys two_over_two_knot) /\
  (forall x, In x (colored_set d) <-> reach two_over_two_knot ["A"; "D"] x) /\
  fixed two_over_two_knot d.
Proof.
  split; [reflexivity|].
  apply (maximally_extend_returns two_over_two_knot ["A"; "D"] 10). reflexivity.
Defined.

(** X9. On a closed diagram, seeds that include other seeds colour at
    least the strands the others colour: adding a seed, or listing the
    seeds in another order, never loses a coloured strand. *)
Theorem maximally_extend_more_seeds (knot : knot_dict) (seeds seeds' : list label)
  (fuel : nat) :
  closed knot -> incl seeds seeds' -> incl seeds' (keys knot) ->
  2 * length knot + 2 <= fuel ->
  exists d d',
    maximally_extend fuel seeds knot = Return d /\
    maximally_extend fuel seeds' knot = Return d' /\
    incl (colored_set d) (colored_set d').
Proof.
  intros Hclosed Hincl Hkeys Hfuel.
  destruct (maximally_extend_reach knot seeds fuel Hclosed) as (d & Hd & _ & _ & _ & Hr);
    [eapply incl_tran; eassumption | exact Hfuel |].
  destruct (maximally_extend_reach knot seeds' fuel Hclosed Hkeys Hfuel)
    as (d' & Hd' & _ & _ & _ & Hr').
  exists d, d'. split; [exact Hd|]. split; [exact Hd'|].
  intros x Hx. apply Hr'. apply (reach_transfer knot knot seeds seeds' Hincl); [auto|].
  apply Hr. exact Hx.
Qed.

Lemma maximally_extend_more_seeds_witness :
  exists d d',
    maximally_extend 10 ["C"; "B"] two_over_two_knot = Return d /\
    maximally_extend 10 ["A"; "C"; "B"] two_over_two_knot = Return d' /\
    incl (colored_set d) (colored_set d').
Proof.
  apply (maximally_extend_more_seeds two_over_two_knot ["C"; "B"] ["A"; "C"; "B"] 10).
  - exact two_over_two_closed.
  - intros x Hx. right. exact Hx.
  - intros x Hx. cbn in Hx. cbn. intuition.
  - cbn. lia.
Defined.

(** ** The outcomes of [calc] *)

Lemma process_gauss_code_cases (raw : list string) :
  (exists g, process_gauss_code raw = Return g) \/
  process_gauss_code raw = Raise ValueError.
Proof.
  induction raw as [|s rest IH]; [left; now exists []|].
  rewrite process_gauss_code_cons.
  destruct (py_int_outcome (remove_commas s)) as [[n ->] | ->]; [|now right].
  cbn [bind]. destruct IH as [[g ->] | ->]; [left; now eexists | now right].
Qed.

Lemma skip_overs_raises (g : list Z) (fuel : nat) :
  forall i e, skip_overs fuel g i = Raise e -> e = IndexError.
Proof.
  induction fuel as [|fuel IH]; intros i e H; [discriminate|].
  cbn [skip_overs] in H. destruct (nth_error g i) as [v|]; [|congruence].
  destruct (0 <? v)%Z; [eauto | discriminate].
Qed.

Lemma scan_strands_raises (g : list Z) (fuel : nat) :
  forall i set e, scan_strands fuel g i set = Raise e -> e = IndexError.
Proof.
  induction fuel as [|fuel IH]; intros i set e H; [discriminate|].
  cbn [scan_strands] in H. destruct (nth_error g i) as [v|]; [|congruence].
  destruct (v <? 0)%Z; [|eauto].
  destruct (skip_overs fuel g (advance g i)) as [k|e'|] eqn:Hs; cbn [bind] in H.
  - destruct (in_dec strand_eq_dec (new_strand g i k) set); [discriminate | eauto].
  - injection H as <-. eapply skip_overs_raises. exact Hs.
  - discriminate.
Qed.

Lemma label_strands_raises (strands : list strand) :
  forall i d e, label_strands i strands d = Raise e -> e = IndexError.
Proof.
  induction strands as [|s rest IH]; intros i d e H; [discriminate|].
  cbn [label_strands] in H. destruct (nth_error letter_list i); [eauto | congruence].
Qed.

Lemma find_unders_raises (under : Z) (entries : knot_dict) :
  forall u e, find_unders under entries u = Raise e -> e = IndexError.
Proof.
  induction entries as [|[k [t cs]] rest IH]; intros u e H; [discriminate|].
  cbn [find_unders] in H. destruct (found1 u && found2 u); [discriminate|].
  destruct t as [|first t']; [congruence | eauto].
Qed.

Lemma over_crossings_raises (knot : knot_dict) (t : strand) :
  forall cs u e, over_crossings knot t cs u = Raise e ->
    e = IndexError \/ e = UnboundLocalError.
Proof.
  induction t as [|v t IH]; intros cs u e H; [discriminate|].
  cbn [over_crossings] in H. destruct (0 <? v)%Z; [|eauto].
  destruct (find_unders v knot _) as [u'|e'|] eqn:Hf; cbn [bind] in H.
  - destruct (under1 u'), (under2 u'); eauto; right; congruence.
  - injection H as <-. left. eapply find_unders_raises. exact Hf.
  - discriminate.
Qed.

Lemma find_crossings_from_raises (knot : knot_dict) :
  forall todo u e, find_crossings_from knot todo u = Raise e ->
    e = IndexError \/ e = UnboundLocalError.
Proof.
  induction todo as [|[k [t cs]] rest IH]; intros u e H; [discriminate|].
  cbn [find_crossings_from] in H.
  destruct (over_crossings knot t cs u) as [[cs' u']|e'|] eqn:Ho; cbn [bind] in H.
  - destruct (find_crossings_from knot rest u') as [done|e'|] eqn:Hr; cbn [bind] in H.
    + discriminate.
    + injection H as <-. eapply IH. exact Hr.
    + discriminate.
  - injection H as <-. eapply over_crossings_raises. exact Ho.
  - discriminate.
Qed.

Lemma create_knot_dictionary_raises (set_iter : list strand -> list strand)
  (fuel : nat) (g : list Z) (e : exn) :
  create_knot_dictionary set_iter fuel g = Raise e ->
  e = IndexError \/ e = UnboundLocalError.
Proof.
  unfold create_knot_dictionary, find_strands. intros H.
  destruct (scan_strands fuel g 0 []) as [set|e'|] eqn:Hs; cbn [bind] in H.
  - destruct (label_strands 0 (set_iter set) []) as [d|e'|] eqn:Hl; cbn [bind] in H.
    + eapply find_crossings_from_raises. exact H.
    + injection H as <-. left. eapply label_strands_raises. exact Hl.
    + discriminate.
  - injection H as <-. left. eapply scan_strands_raises. exact Hs.
  - discriminate.
Qed.

Lemma search_on_closed (knot : knot_dict) (fuel : nat) :
  closed knot ->
  search fuel knot (keys knot) (get_seeds (keys knot) 3) = OutOfFuel \/
  search fuel knot (keys knot) (get_seeds (keys knot) 3) = Return "28" \/
  search fuel knot (keys knot) (get_seeds (keys knot) 3) = Return "32".
Proof.
  intros Hclosed.
  set (F := Nat.max fuel (2 * length knot + 2)).
  assert (Hspec : search F knot (keys knot) (get_seeds (keys knot) 3) = Return "28" \/
                  search F knot (keys knot) (get_seeds (keys knot) 3) = Return "32").
  { destruct (search_spec knot F Hclosed ltac:(lia) (get_seeds (keys knot) 3))
      as [[H _]|[H _]]; [|now left | now right].
    intros seeds Hin. apply (combinations_incl _ _ _ Hin). }
  pose proof (search_stable knot (keys knot) fuel F ltac:(lia)
                (get_seeds (keys knot) 3)) as Hst.
  destruct (search fuel knot (keys knot) (get_seeds (keys knot) 3)) as [s|e|] eqn:Hs.
  - right. rewrite <- (Hst ltac:(discriminate)). exact Hspec.
  - exfalso. rewrite (Hst ltac:(discriminate)) in Hspec.
    destruct Hspec; discriminate.
  - now left.
Qed.

(** X10. Whatever the tokens, the order in which the strand set is
    iterated and the number of iterations allowed: [calc] returns no
    string but ["28"] and ["32"], and the only exceptions that leave it
    are the [ValueError] of a token that is not an integer, [IndexError]
    and [UnboundLocalError]; the lookups of strands in the search never
    fail with [KeyError]. *)
Theorem calc_outcomes (set_iter : list strand -> list strand) (fuel : nat)
  (raw : list string) :
  match calc set_iter fuel raw with
  | Return s => s = "28" \/ s = "32"
  | Raise e => e = ValueError \/ e = IndexError \/ e = UnboundLocalError
  | OutOfFuel => True
  end.
Proof.
  unfold calc.
  destruct (process_gauss_code_cases raw) as [[g ->] | ->]; cbn [bind]; [|now left].
  destruct (create_knot_dictionary set_iter fuel g) as [knot|e|] eqn:Hk; cbn [bind].
  - destruct (search_on_closed knot fuel (create_knot_dictionary_closed _ _ _ _ Hk))
      as [-> | [-> | ->]]; auto.
  - right. eapply create_knot_dictionary_raises. exact Hk.
  - exact I.
Qed.

(** X11. A code without an under-pass gets no bound: on the empty token
    list [calc] raises [IndexError], and on tokens that are all read as
    non-negative integers it runs for ever. *)
Theorem calc_without_under_pass (set_iter : list strand -> list strand)
  (raw : list string) (g : list Z) :
  process_gauss_code raw = Return g ->
  Forall (fun v => (0 <= v)%Z) g ->
  forall fuel,
    calc set_iter (S fuel) raw = if length raw =? 0 then Raise IndexError else OutOfFuel.
Proof.
  intros Hraw Hall fuel. unfold calc. rewrite Hraw. cbn [bind].
  unfold create_knot_dictionary, find_strands.
  destruct raw as [|s rest].
  - cbn in Hraw. injection Hraw as <-. reflexivity.
  - rewrite (scan_strands_no_under g Hall); [reflexivity|].
    rewrite process_gauss_code_cons in Hraw.
    destruct (py_int (remove_commas s)); cbn [bind] in Hraw; try discriminate.
    destruct (process_gauss_code rest); cbn [bind] in Hraw; try discriminate.
    injection Hraw as <-. cbn. lia.
Qed.

Lemma calc_without_under_pass_witness :
  calc insertion_order 8 ["1"; "2"; "3"] = OutOfFuel.
Proof.
  refine (calc_without_under_pass insertion_order ["1"; "2"; "3"] [1; 2; 3]%Z _ _ 7).
  - reflexivity.
  - repeat constructor; lia.
Defined.

(** ** The strands of any code *)

Lemma new_strand_incl (g : list Z) (b e : nat) : incl (new_strand g b e) g.
Proof.
  assert (Hs : forall n, incl (skipn n g) g).
  { intros n x Hx. rewrite <- (firstn_skipn n g). apply in_or_app. now right. }
  assert (Hf : forall n (l : list Z), incl (firstn n l) l).
  { intros n l x Hx. rewrite <- (firstn_skipn n l). apply in_or_app. now left. }
  unfold new_strand. destruct (e <? b).
  - apply incl_app; [apply Hs | apply Hf].
  - eapply incl_tran; [apply Hf | apply Hs].
Qed.

(** Where the inner loop stops when it starts behind an under-pass, and
    the strand that is cut. *)
Lemma strand_from_under (g pre rest : list Z) (v : Z) :
  g = pre ++ v :: rest -> (v < 0)%Z ->
  exists e,
    (forall fuel, length g < fuel ->
       skip_overs fuel g (advance g (length pre)) = Return e) /\
    strand_shaped (new_strand g (length pre) e).
Proof.
  intros Hg Hv.
  assert (Hvpos : (0 <? v)%Z = false) by (apply Z.ltb_ge; lia).
  assert (Hlen : length g = length pre + S (length rest)).
  { rewrite Hg, length_app. reflexivity. }
  assert (Hskip : skipn (length pre) g = v :: rest).
  { rewrite Hg. apply skipn_length_app. }
  destruct (first_failure (fun v => (0 <? v)%Z) rest)
    as [Hall|[mid [y [post [Hr [Hmid Hy]]]]]].
  - (* The walk passes the end of the code. *)
    destruct (first_failure (fun v => (0 <? v)%Z) (pre ++ [v]))
      as [Hall'|[head [y [tail [Hf [Hhead Hy]]]]]].
    { rewrite forallb_app in Hall'. cbn in Hall'. rewrite Hvpos in Hall'.
      rewrite andb_false_r in Hall'. discriminate. }
    assert (Hg' : g = head ++ y :: (tail ++ rest)).
    { rewrite Hg. change (v :: rest) with ([v] ++ rest).
      rewrite app_assoc, Hf, <- app_assoc. reflexivity. }
    assert (Hhl : length head <= length pre).
    { apply (f_equal (@length Z)) in Hf. rewrite !length_app in Hf. cbn in Hf. lia. }
    exists (length head). split.
    + intros fuel Hfuel. destruct rest as [|r rest'].
      * rewrite advance_wrap by (rewrite Hlen; cbn; lia).
        apply (skip_overs_run g head [] y (tail ++ [])); try assumption. lia.
      * rewrite advance_next by (rewrite Hlen; cbn; lia).
        replace (S (length pre)) with (length (pre ++ [v]))
          by (rewrite length_app; cbn; lia).
        apply (skip_overs_wrap g (r :: rest') (pre ++ [v]) head y (tail ++ r :: rest'));
          try assumption.
        -- rewrite Hg, <- app_assoc. reflexivity.
        -- discriminate.
        -- rewrite Hlen in Hfuel. cbn [length] in *. lia.
    + exists v. unfold new_strand.
      destruct (length head <? length pre) eqn:Hlt.
      * exists (rest ++ head). split; [exact Hv|]. split.
        -- rewrite forallb_app, Hall, Hhead. reflexivity.
        -- right. exists y. split; [apply Z.ltb_ge in Hy; lia|].
           rewrite Hskip.
           replace (S (length head)) with (length (head ++ [y]))
             by (rewrite length_app; cbn; lia).
           rewrite Hg'. change (y :: tail ++ rest) with ([y] ++ (tail ++ rest)).
           rewrite app_assoc, firstn_length_app, <- app_assoc. reflexivity.
      * exists []. split; [exact Hv|]. split; [reflexivity|]. left.
        apply Nat.ltb_ge in Hlt.
        replace (S (length head) - length pre) with 1 by lia.
        rewrite Hskip. reflexivity.
  - (* The walk stops before the end of the code. *)
    exists (length pre + S (length mid)). split.
    + intros fuel Hfuel.
      rewrite advance_next
        by (rewrite Hlen, Hr, length_app; cbn [length]; lia).
      replace (S (length pre)) with (length (pre ++ [v]))
        by (rewrite length_app; cbn; lia).
      replace (length pre + S (length mid)) with (length (pre ++ [v]) + length mid)
        by (rewrite length_app; cbn; lia).
      apply (skip_overs_run g mid (pre ++ [v]) y post); try assumption.
      * rewrite Hg, Hr, <- app_assoc. reflexivity.
      * rewrite Hlen, Hr, length_app in Hfuel. cbn [length] in Hfuel. lia.
    + exists v, mid. split; [exact Hv|]. split; [exact Hmid|]. right.
      exists y. split; [apply Z.ltb_ge in Hy; lia|].
      unfold new_strand.
      replace (length pre + S (length mid) <? length pre) with false
        by (symmetry; apply Nat.ltb_ge; lia).
      rewrite Hskip, Hr.
      replace (S (length pre + S (length mid)) - length pre)
        with (length (v :: mid ++ [y]))
        by (cbn [length]; rewrite length_app; cbn [length]; lia).
      change (v :: mid ++ y :: post) with ((v :: mid) ++ y :: post).
      change (y :: post) with ([y] ++ post).
      rewrite app_assoc. apply firstn_length_app.
Qed.

(** The strand cut at an under-pass, for any budget that lets the inner
    loop stop. *)
Lemma strand_cut (g : list Z) (b : nat) (v : Z) (fuel e : nat) :
  nth_error g b = Some v -> (v < 0)%Z ->
  skip_overs fuel g (advance g b) = Return e ->
  strand_shaped (new_strand g b e) /\ new_strand g b e = strand_at g b.
Proof.
  intros Hb Hv Hrun.
  destruct (nth_error_split g b Hb) as (pre & rest & Hg & Hlen). subst b.
  destruct (strand_from_under g pre rest v Hg Hv) as (e0 & He0 & Hshape).
  assert (E : e = e0).
  { pose proof (skip_overs_stable g fuel (Nat.max fuel (S (length g))) ltac:(lia)
                  (advance g (length pre))) as Hst.
    rewrite Hrun in Hst. specialize (Hst ltac:(discriminate)).
    rewrite (He0 (Nat.max fuel (S (length g))) ltac:(lia)) in Hst. congruence. }
  subst e0. split; [exact Hshape|].
  unfold strand_at. rewrite (He0 (S (length g)) ltac:(lia)). reflexivity.
Qed.

Lemma scan_strands_invariant (g : list Z) (P : strand -> Prop) :
  (forall b v, nth_error g b = Some v -> (v < 0)%Z ->
     strand_shaped (strand_at g b) -> P (strand_at g b)) ->
  forall fuel i set strand_set,
    Forall P set -> NoDup set ->
    scan_strands fuel g i set = Return strand_set ->
    Forall P strand_set /\ NoDup strand_set /\ strand_set <> [].
Proof.
  intros HP. induction fuel as [|fuel IH]; intros i set ss Hall Hnd Hrun;
    [discriminate|].
  cbn [scan_strands] in Hrun.
  destruct (nth_error g i) as [v|] eqn:Hi; [|discriminate].
  destruct (v <? 0)%Z eqn:Hv; [|eauto].
  apply Z.ltb_lt in Hv.
  destruct (skip_overs fuel g (advance g i)) as [e| |] eqn:He; try discriminate.
  cbn [bind] in Hrun.
  destruct (strand_cut g i v fuel e Hi Hv He) as [Hshape Heq].
  destruct (in_dec strand_eq_dec (new_strand g i e) set) as [Hin|Hnew].
  - injection Hrun as <-. split; [exact Hall|]. split; [exact Hnd|].
    intros ->. contradiction.
  - refine (IH _ _ _ _ _ Hrun).
    + apply Forall_app. split; [exact Hall|]. constructor; [|constructor].
      rewrite Heq in *. eapply HP; eassumption.
    + apply NoDup_app; repeat split; [exact Hnd | repeat constructor; intros [] |].
      intros s Hs [<-|[]]. contradiction.
Qed.

Lemma length_under_positions_from (f : Z -> bool) (g : list Z) :
  forall pre,
    length (filter (fun b => f (nth b (pre ++ g) 0%Z)) (seq (length pre) (length g)))
      = length (filter f g).
Proof.
  induction g as [|a g IH]; intros pre; [reflexivity|].
  cbn [length seq filter].
  rewrite app_nth2 by lia. rewrite Nat.sub_diag. cbn [nth].
  specialize (IH (pre ++ [a])). rewrite <- app_assoc in IH. cbn [app] in IH.
  rewrite length_app in IH. cbn [length] in IH. rewrite Nat.add_1_r in IH.
  destruct (f a); cbn [length]; rewrite IH; reflexivity.
Qed.

Lemma length_under_positions (g : list Z) :
  length (under_positions g) = length (under_passes g).
Proof. apply (length_under_positions_from (fun v => (v <? 0)%Z) g []). Qed.

Lemma label_strands_returns (strands : list strand) (d : knot_dict) :
  label_strands 0 strands [] = Return d ->
  d = labelled strands /\ length strands <= 26.
Proof.
  intros H. destruct (le_gt_dec (length strands) 26) as [Hle|Hgt].
  - destruct (labelled_spec strands Hle) as [Hl _]. split; [congruence | exact Hle].
  - rewrite (label_strands_exhausted strands 0 []) in H; [discriminate | lia | lia].
Qed.

(** X12. On any code, valid or not: a dictionary [find_strands] returns
    has between one strand and as many strands as the code has
    under-passes, and not more than 26; they are named by the first
    letters of the alphabet in order, have pairwise different tuples and
    no crossings yet; every tuple is made of entries of the code, starts
    with an under-pass followed by over-passes and ends with an entry
    that is not an over-pass, or holds the under-pass alone. *)
Theorem find_strands_invariants (set_iter : list strand -> list strand)
  (g : list Z) (fuel : nat) (d : knot_dict) :
  (forall l, Permutation l (set_iter l)) ->
  find_strands set_iter fuel g = Return d ->
  keys d = firstn (length d) letter_list /\
  1 <= length d <= Nat.min 26 (length (under_passes g)) /\
  NoDup (map tuple_of d) /\
  Forall (fun e => crossings_of e = [] /\ strand_shaped (tuple_of e) /\
                   incl (tuple_of e) g) d.
Proof.
  intros Hperm Hrun. unfold find_strands in Hrun.
  destruct (scan_strands fuel g 0 []) as [set| |] eqn:Hscan; try discriminate.
  cbn [bind] in Hrun.
  destruct (label_strands_returns _ _ Hrun) as [-> Hlen].
  destruct (labelled_spec _ Hlen) as (_ & Htuples & Hlength & Hempty & _).
  set (P := fun s : strand =>
              strand_shaped s /\ incl s g /\ In s (map (strand_at g) (under_positions g))).
  destruct (scan_strands_invariant g P) with (fuel := fuel) (i := 0) (set := @nil strand)
    (strand_set := set) as (Hall & Hnd & Hne); [|constructor|constructor|exact Hscan|].
  { intros b v Hb Hv Hshape. split; [exact Hshape|]. split.
    - unfold strand_at. destruct (skip_overs _ _ _); try (intros x []).
      apply new_strand_incl.
    - apply in_map. unfold under_positions. apply filter_In. split.
      + apply in_seq. split; [lia|]. cbn. apply nth_error_Some. congruence.
      + rewrite (nth_error_nth _ _ _ Hb). apply Z.ltb_lt. exact Hv. }
  pose proof (Permutation_length (Hperm set)) as Hpl.
  split; [|split; [|split]].
  - unfold labelled, keys. rewrite map_map.
    rewrite (map_ext _ fst) by (intros [l s]; reflexivity).
    rewrite map_fst_combine, length_map, length_combine, length_letter_list.
    f_equal. lia.
  - rewrite Hlength, <- Hpl. split.
    + destruct set; [contradiction | cbn; lia].
    + apply Nat.min_glb; [lia|].
      rewrite <- length_under_positions.
      rewrite <- (length_map (strand_at g)).
      apply NoDup_incl_length; [exact Hnd|].
      intros s Hs. rewrite Forall_forall in Hall. apply (Hall s Hs).
  - rewrite Htuples. eapply Permutation_NoDup; [apply Hperm | exact Hnd].
  - apply Forall_forall. intros e He.
    rewrite Forall_forall in Hempty. split; [apply Hempty; exact He|].
    assert (Hin : In (tuple_of e) set).
    { apply (Permutation_in _ (Permutation_sym (Hperm set))).
      rewrite <- Htuples. apply in_map. exact He. }
    rewrite Forall_forall in Hall. destruct (Hall _ Hin) as (H1 & H2 & _). auto.
Qed.

Lemma find_strands_invariants_witness :
  let d := labelled [[-1; 2; -3]; [-3; 1; -2]; [-2; 3; -1]]%Z in
  find_strands insertion_order 20 trefoil = Return d /\
  keys d = firstn (length d) letter_list /\
  1 <= length d <= Nat.min 26 (length (under_passes trefoil)) /\
  NoDup (map tuple_of d) /\
  Forall (fun e => crossings_of e = [] /\ strand_shaped (tuple_of e) /\
                   incl (tuple_of e) trefoil) d.
Proof.
  split; [reflexivity|].
  apply (find_strands_invariants insertion_order trefoil 20).
  - intros l. apply Permutation_refl.
  - reflexivity.
Defined.

(** ** The crossings of any diagram *)

(** The crossings found for a tuple do not depend on the list they are
    appended to. *)
Lemma over_crossings_shift (knot : knot_dict) (t : strand) :
  forall cs u,
    over_crossings knot t cs u
      = (' (new, u') <- over_crossings knot t [] u ;; Return (cs ++ new, u')).
Proof.
  induction t as [|v t IH]; intros cs u; cbn [over_crossings].
  - cbn [bind]. now rewrite app_nil_r.
  - destruct (0 <? v)%Z; [|apply IH].
    destruct (find_unders v knot _) as [u1| |]; cbn [bind]; try reflexivity.
    destruct (under1 u1) as [a|]; [|reflexivity].
    destruct (under2 u1) as [b|]; [|reflexivity].
    rewrite (IH (cs ++ [(a, b)])), (IH ([] ++ [(a, b)])).
    destruct (over_crossings knot t [] u1) as [[new u']| |]; cbn [bind];
      try reflexivity.
    now rewrite <- app_assoc.
Qed.

Lemma over_crossings_length (knot : knot_dict) (t : strand) :
  forall cs u cs' u',
    over_crossings knot t cs u = Return (cs', u') ->
    length cs' = length cs + length (over_passes t).
Proof.
  induction t as [|v t IH]; intros cs u cs' u' Ho; cbn [over_crossings] in Ho.
  - injection Ho as <- <-. cbn. lia.
  - unfold over_passes. cbn [filter]. destruct (0 <? v)%Z; [|eauto].
    destruct (find_unders v knot _) as [u1| |]; try discriminate.
    cbn [bind] in Ho.
    destruct (under1 u1) as [a|]; [|discriminate].
    destruct (under2 u1) as [b|]; [|discriminate].
    apply IH in Ho. rewrite length_app in Ho. cbn [length] in *.
    unfold over_passes in Ho. plain_types. lia.
Qed.

Lemma over_crossings_appends (knot : knot_dict) (t : strand) :
  forall cs u cs' u',
    known (keys knot) u ->
    over_crossings knot t cs u = Return (cs', u') ->
    known (keys knot) u' /\
    exists new,
      cs' = cs ++ new /\ length new = length (over_passes t) /\
      names_in (keys knot) new.
Proof.
  intros cs u cs' u' Hu Ho. rewrite over_crossings_shift in Ho.
  destruct (over_crossings knot t [] u) as [[new u1]| |] eqn:Hn; try discriminate.
  cbn [bind] in Ho. injection Ho as <- <-.
  destruct (over_crossings_known knot t [] u new u1 Hu) as [Hu1 Hnames];
    [intros c [] | exact Hn |].
  split; [exact Hu1|]. exists new. split; [reflexivity|]. split; [|exact Hnames].
  apply (over_crossings_length knot t [] u new u1 Hn).
Qed.

Lemma find_crossings_from_appends (knot : knot_dict) :
  forall todo u done,
    known (keys knot) u ->
    find_crossings_from knot todo u = Return done ->
    Forall2 (gains_crossings (keys knot)) todo done.
Proof.
  induction todo as [|[k [t cs]] todo IH]; intros u done Hu Hf;
    cbn [find_crossings_from] in Hf.
  - injection Hf as <-. constructor.
  - destruct (over_crossings knot t cs u) as [[cs' u']| |] eqn:Ho; try discriminate.
    cbn [bind] in Hf.
    destruct (find_crossings_from knot todo u') as [rest| |] eqn:Hr; try discriminate.
    cbn [bind] in Hf. injection Hf as <-.
    destruct (over_crossings_appends knot t cs u cs' u' Hu Ho) as [Hu' Hnew].
    constructor; [|eapply IH; eassumption].
    split; [reflexivity|]. split; [reflexivity|]. exact Hnew.
Qed.

(** X13. On any dictionary of strands: when [find_crossings] returns,
    every strand has kept its name, its tuple and the crossings it had,
    and has gained one crossing for every over-pass of its tuple; the two
    strands named in a new crossing are strands of the diagram. *)
Theorem find_crossings_one_per_over_pass (knot knot' : knot_dict) :
  find_crossings knot = Return knot' ->
  Forall2 (gains_crossings (keys knot)) knot knot'.
Proof.
  intros Hf. apply (find_crossings_from_appends knot knot unbound knot'); [|exact Hf].
  split; intros k E; discriminate E.
Qed.

Lemma find_crossings_one_per_over_pass_witness :
  let knot := labelled [[-1; 2; -3]; [-3; 1; -2]; [-2; 3; -1]]%Z in
  let knot' := [("A", ([-1; 2; -3]%Z, [("C", "B")]));
                ("B", ([-3; 1; -2]%Z, [("A", "C")]));
                ("C", ([-2; 3; -1]%Z, [("B", "A")]))] in
  find_crossings knot = Return knot' /\
  Forall2 (gains_crossings (keys knot)) knot knot'.
Proof.
  split; [reflexivity|].
  apply find_crossings_one_per_over_pass. reflexivity.
Defined.

(** ** The crossings of a diagram with distinct strand ends *)

Lemma NoDup_map_eq {A B : Type} (f : A -> B) (l : list A) (a b : A) :
  NoDup (map f l) -> In a l -> In b l -> f a = f b -> a = b.
Proof.
  induction l as [|x l IH]; intros Hnd Ha Hb E; [contradiction|].
  cbn [map] in Hnd. inversion Hnd as [|? ? Hx Hl]; subst.
  destruct Ha as [->|Ha], Hb as [->|Hb]; auto.
  - exfalso. apply Hx. rewrite E. now apply in_map.
  - exfalso. apply Hx. rewrite <- E. now apply in_map.
Qed.

Lemma find_unique {A : Type} (f : A -> bool) (key : A -> Z) (l : list A) (e : A) :
  NoDup (map key l) -> (forall a b, In a l -> f a = true -> In b l -> f b = true ->
                          key a = key b) ->
  In e l -> f e = true -> find f l = Some e.
Proof.
  intros Hnd Hkey He Hf.
  destruct (find f l) as [e0|] eqn:Hfind.
  - apply find_some in Hfind. destruct Hfind as [H0 Hf0].
    f_equal. apply (NoDup_map_eq key l); auto.
  - exfalso. pose proof (find_none f l Hfind e He). congruence.
Qed.

Lemma under_start_unique (knot : knot_dict) (v : Z)
  (e : label * (strand * list crossing)) :
  NoDup (map (fun e => hd 0%Z (tuple_of e)) knot) ->
  In e knot -> hd 0%Z (tuple_of e) = (- v)%Z -> under_start knot v = fst e.
Proof.
  intros Hnd He Hhd. unfold under_start.
  rewrite (find_unique _ (fun e => hd 0%Z (tuple_of e)) knot e Hnd); auto.
  - intros a b _ Ha _ Hb. apply Z.eqb_eq in Ha, Hb. congruence.
  - apply Z.eqb_eq. exact Hhd.
Qed.

Lemma under_end_unique (knot : knot_dict) (v : Z)
  (e : label * (strand * list crossing)) :
  NoDup (map (fun e => last (tuple_of e) 0%Z) knot) ->
  In e knot -> last (tuple_of e) 0%Z = (- v)%Z -> under_end knot v = fst e.
Proof.
  intros Hnd He Hhd. unfold under_end.
  rewrite (find_unique _ (fun e => last (tuple_of e) 0%Z) knot e Hnd); auto.
  - intros a b _ Ha _ Hb. apply Z.eqb_eq in Ha, Hb. congruence.
  - apply Z.eqb_eq. exact Hhd.
Qed.

(** Whatever the search stops on, a raised flag comes with the one strand
    that has the end looked for. *)
Lemma find_unders_matches (knot : knot_dict) (under : Z) :
  distinct_ends knot ->
  forall entries u u',
    incl entries knot ->
    (found1 u = true -> under1 u = Some (under_start knot under)) ->
    (found2 u = true -> under2 u = Some (under_end knot under)) ->
    find_unders under entries u = Return u' ->
    (found1 u' = true -> under1 u' = Some (under_start knot under)) /\
    (found2 u' = true -> under2 u' = Some (under_end knot under)).
Proof.
  intros [Hs He]. induction entries as [|[k [t cs]] entries IH];
    intros u u' Hincl H1 H2 Hf; cbn [find_unders] in Hf.
  - injection Hf as <-. auto.
  - destruct (found1 u && found2 u); [injection Hf as <-; auto|].
    destruct t as [|first t']; [discriminate|].
    assert (Hin : In (k, (first :: t', cs)) knot) by (apply Hincl; now left).
    refine (IH _ _ (fun x Hx => Hincl x (or_intror Hx)) _ _ Hf).
    + destruct (first =? - under)%Z eqn:E1;
        destruct (last (first :: t') 0%Z =? - under)%Z eqn:E2; cbn; auto;
        intros _; f_equal; symmetry;
        apply (under_start_unique knot under _ Hs Hin); apply Z.eqb_eq; exact E1.
    + destruct (first =? - under)%Z eqn:E1;
        destruct (last (first :: t') 0%Z =? - under)%Z eqn:E2; cbn; auto;
        intros _; f_equal; symmetry;
        apply (under_end_unique knot under _ He Hin); apply Z.eqb_eq; exact E2.
Qed.

Lemma over_crossings_along (knot : knot_dict) (t : strand) :
  Forall (fun e => tuple_of e <> []) knot -> distinct_ends knot ->
  (forall v, In v t -> (0 < v)%Z ->
     (exists e1, In e1 knot /\ hd 0%Z (tuple_of e1) = (- v)%Z) /\
     (exists e2, In e2 knot /\ last (tuple_of e2) 0%Z = (- v)%Z)) ->
  forall cs u, exists u',
    over_crossings knot t cs u = Return (cs ++ crossings_along knot t, u').
Proof.
  intros Hne Hd. induction t as [|v t IH]; intros Hres cs u; cbn [over_crossings].
  - exists u. unfold crossings_along. cbn. now rewrite app_nil_r.
  - unfold crossings_along, over_passes. cbn [filter].
    destruct (0 <? v)%Z eqn:Hv.
    + apply Z.ltb_lt in Hv.
      destruct (Hres v (or_introl eq_refl) Hv) as [Hex1 Hex2].
      set (u0 := mk_unders false false (under1 u) (under2 u)).
      destruct (find_unders_finds (keys knot) v knot Hne (incl_refl _) u0)
        as (u1 & Hf & _ & _ & Hf1 & Hf2); try (intros E; discriminate E).
      rewrite Hf. cbn [bind].
      destruct (find_unders_matches knot v Hd knot u0 u1 (incl_refl _)) as [M1 M2];
        try (intros E; discriminate E); [exact Hf|].
      rewrite (M1 (Hf1 (or_intror Hex1))), (M2 (Hf2 (or_intror Hex2))).
      destruct (IH (fun w Hw => Hres w (or_intror Hw))
                   (cs ++ [(under_start knot v, under_end knot v)]) u1) as [u' Hu'].
      exists u'. rewrite Hu'. unfold crossings_along, over_passes.
      cbn [map]. now rewrite <- app_assoc.
    + apply (IH (fun w Hw => Hres w (or_intror Hw))).
Qed.

Lemma find_crossings_from_along (knot : knot_dict) :
  Forall (fun e => tuple_of e <> []) knot -> distinct_ends knot ->
  forall todo u,
    (forall e v, In e todo -> In v (tuple_of e) -> (0 < v)%Z ->
       (exists e1, In e1 knot /\ hd 0%Z (tuple_of e1) = (- v)%Z) /\
       (exists e2, In e2 knot /\ last (tuple_of e2) 0%Z = (- v)%Z)) ->
    find_crossings_from knot todo u
      = Return (map (fun e => (fst e, (tuple_of e,
                       crossings_of e ++ crossings_along knot (tuple_of e)))) todo).
Proof.
  intros Hne Hd. induction todo as [|[k [t cs]] todo IH]; intros u Hres;
    cbn [find_crossings_from]; [reflexivity|].
  destruct (over_crossings_along knot t Hne Hd) with (cs := cs) (u := u) as [u' Ho].
  { intros v Hv. apply (Hres (k, (t, cs)) v); [now left | exact Hv]. }
  rewrite Ho. cbn [bind].
  rewrite (IH u' (fun e v He => Hres e v (or_intror He))). reflexivity.
Qed.

(** X14. In a diagram where no two strands start with the same entry, no
    two end with the same entry, and every over-pass has its under-pass at
    the start of a strand and at the end of a strand, [find_crossings]
    gives every strand, for each over-pass [v] of its tuple in order, the
    pair of the strand that starts with [-v] and the strand that ends
    with [-v]. *)
Theorem find_crossings_pairs (knot : knot_dict) :
  Forall (fun e => tuple_of e <> []) knot -> distinct_ends knot ->
  resolvable knot ->
  find_crossings knot = Return (with_crossings knot).
Proof.
  intros Hne Hd Hres. unfold find_crossings, with_crossings.
  apply (find_crossings_from_along knot Hne Hd). exact Hres.
Qed.

Lemma find_crossings_pairs_witness :
  let knot := labelled [[-1; 2; -3]; [-3; 1; -2]; [-2; 3; -1]]%Z in
  find_crossings knot
    = Return [("A", ([-1; 2; -3]%Z, [("C", "B")]));
              ("B", ([-3; 1; -2]%Z, [("A", "C")]));
              ("C", ([-2; 3; -1]%Z, [("B", "A")]))].
Proof.
  intros knot.
  change (find_crossings knot = Return (with_crossings knot)).
  apply (find_crossings_pairs knot).
  - repeat constructor; discriminate.
  - split; repeat constructor; cbn; intuition discriminate.
  - intros e v He Hv Hpos.
    cbn in He. destruct He as [<-|[<-|[<-|[]]]];
      cbn in Hv; destruct Hv as [<-|[<-|[<-|[]]]]; try lia;
      (split;
       (eexists; split;
        [ (left; reflexivity) + (right; left; reflexivity)
          + (right; right; left; reflexivity) | ]; reflexivity)).
Defined.

(** ** The diagram of a valid code *)

Lemma length_with_crossings (knot : knot_dict) :
  forall todo : knot_dict,
    Forall (fun e => crossings_of e = []) todo ->
    length (concat (map crossings_of
              (map (fun e => (fst e, (tuple_of e,
                      crossings_of e ++ crossings_along knot (tuple_of e)))) todo)))
      = length (flat_map over_passes (map tuple_of todo)).
Proof.
  induction 1 as [|e todo He Hall IH]; [reflexivity|].
  cbn [map concat flat_map]. rewrite !length_app, IH.
  unfold crossings_of at 1. cbn [snd]. rewrite He. cbn [app].
  unfold crossings_along. now rewrite length_map.
Qed.

Lemma over_passes_app (a b : list Z) :
  over_passes (a ++ b) = over_passes a ++ over_passes b.
Proof. apply filter_app. Qed.

Lemma over_passes_removelast (strands : list strand) :
  Forall (fun s => s <> [] /\ (last s 0 <? 0)%Z = true) strands ->
  flat_map over_passes strands = over_passes (concat (map (@removelast Z) strands)).
Proof.
  induction 1 as [|s strands [Hne Hlast] Hall IH]; [reflexivity|].
  cbn [flat_map map concat]. rewrite over_passes_app, <- IH. f_equal.
  rewrite (app_removelast_last 0%Z Hne) at 1.
  rewrite over_passes_app. unfold over_passes at 2. cbn [filter].
  apply Z.ltb_lt in Hlast.
  replace (0 <? last s 0)%Z with false by (symmetry; apply Z.ltb_ge; lia).
  apply app_nil_r.
Qed.

(** A valid code has as many over-passes as under-passes. *)
Lemma valid_balanced (g : list Z) :
  valid g -> length (over_passes g) = length (under_passes g).
Proof.
  intros [Hnd Hv].
  assert (Hinj : forall l : list Z, NoDup l -> NoDup (map Z.opp l)).
  { intros l Hl. apply Finite.Injective_map_NoDup; [|exact Hl].
    intros a b E. lia. }
  apply Nat.le_antisymm.
  - rewrite <- (length_map Z.opp). apply NoDup_incl_length.
    + apply Hinj. apply NoDup_filter. exact Hnd.
    + intros x Hx. apply in_map_iff in Hx. destruct Hx as (v & <- & Hin).
      apply filter_In in Hin. destruct Hin as [Hin Hpos]. apply Z.ltb_lt in Hpos.
      apply filter_In. split; [apply (Hv v Hin) | apply Z.ltb_lt; lia].
  - rewrite <- (length_map Z.opp (under_passes g)). apply NoDup_incl_length.
    + apply Hinj. apply NoDup_filter. exact Hnd.
    + intros x Hx. apply in_map_iff in Hx. destruct Hx as (v & <- & Hin).
      apply filter_In in Hin. destruct Hin as [Hin Hneg]. apply Z.ltb_lt in Hneg.
      apply filter_In. split; [apply (Hv v Hin) | apply Z.ltb_lt; lia].
Qed.

(** X15. The diagram of a valid code with 2 to 26 crossings, for every
    iteration order of the strand set: each strand records, for every
    over-pass [v] of its tuple in order, the strand that starts with
    [-v] and the strand that ends with [-v]; the diagram holds exactly
    one crossing for every crossing of the code. *)
Theorem diagram_of_valid_code (set_iter : list strand -> list strand) (g : list Z)
  (fuel : nat) :
  valid g -> 2 <= length (under_passes g) <= 26 ->
  (forall l, Permutation l (set_iter l)) ->
  2 * length g + 2 <= fuel ->
  let d := labelled (set_iter (cut_strands g)) in
  create_knot_dictionary set_iter fuel g = Return (with_crossings d) /\
  length (all_crossings (with_crossings d)) = length (under_passes g).
Proof.
  intros Hv Hk Hperm Hfuel d.
  destruct (find_strands_valid set_iter g fuel Hv Hk Hperm Hfuel) as [Hfind Hlen].
  destruct (cut_strands_spec g Hv (proj1 Hk))
    as [_ [Hhd [Hlast [[p [Hp Hcover]] Hsub]]]].
  set (S := set_iter (cut_strands g)) in *.
  destruct (labelled_spec S) as [_ [Htup [Hl [Hempty _]]]]; [lia|].
  fold d in Htup, Hl, Hempty, Hfind.
  assert (Hnd : NoDup (under_passes g)) by (apply NoDup_filter; apply Hv).
  assert (Hin : forall e, In e d -> In (tuple_of e) (cut_strands g)).
  { intros e He. apply (Permutation_in _ (Permutation_sym (Hperm _))).
    fold S. rewrite <- Htup. apply in_map. exact He. }
  assert (Hback : forall s, In s (cut_strands g) -> exists e, In e d /\ tuple_of e = s).
  { intros s Hs. apply (Permutation_in _ (Hperm _)) in Hs. fold S in Hs.
    rewrite <- Htup in Hs. apply in_map_iff in Hs.
    destruct Hs as [e [He1 He2]]. exists e. split; assumption. }
  assert (Hne : Forall (fun s => s <> [] /\ (last s 0 <? 0)%Z = true) (cut_strands g)).
  { apply Forall_forall. intros s Hs. split.
    - intros E. assert (Hneg : (hd 0%Z s <? 0)%Z = true).
      { apply (under_passes_negative g). rewrite <- Hhd. now apply in_map. }
      rewrite E in Hneg. discriminate.
    - apply (under_passes_negative g). apply (Permutation_in _ Hlast).
      now apply (in_map (fun s => last s 0%Z)). }
  split.
  - unfold create_knot_dictionary. rewrite Hfind. cbn [bind].
    unfold find_crossings, with_crossings.
    apply find_crossings_from_along.
    + apply Forall_forall. intros e He. rewrite Forall_forall in Hne.
      apply (Hne _ (Hin e He)).
    + split.
      * rewrite <- (map_map tuple_of (hd 0%Z)), Htup.
        apply (Permutation_NoDup (Permutation_map (hd 0%Z) (Hperm (cut_strands g)))).
        rewrite Hhd. exact Hnd.
      * rewrite <- (map_map tuple_of (fun s => last s 0%Z)), Htup.
        apply (Permutation_NoDup
                 (Permutation_map (fun s => last s 0%Z) (Hperm (cut_strands g)))).
        eapply Permutation_NoDup; [apply Permutation_sym; exact Hlast | exact Hnd].
    + intros e v He Hv' Hpos.
      destruct Hv as [_ Hv]. destruct (Hv v (Hsub _ v (Hin e He) Hv')) as [_ Hopp].
      assert (Hu : In (- v)%Z (under_passes g)).
      { unfold under_passes. apply filter_In. split; [exact Hopp|]. apply Z.ltb_lt. lia. }
      split.
      * rewrite <- Hhd in Hu. apply in_map_iff in Hu. destruct Hu as [s [Hs1 Hs2]].
        destruct (Hback s Hs2) as [e1 [He1 E]]. exists e1. split; [exact He1|].
        rewrite E. exact Hs1.
      * apply (Permutation_in _ (Permutation_sym Hlast)) in Hu.
        apply in_map_iff in Hu. destruct Hu as [s [Hs1 Hs2]].
        destruct (Hback s Hs2) as [e2 [He2 E]]. exists e2. split; [exact He2|].
        rewrite E. exact Hs1.
  - unfold all_crossings, with_crossings.
    rewrite (length_with_crossings d d Hempty), Htup.
    change S with (set_iter (cut_strands g)).
    rewrite <- (Permutation_length
                 (Permutation_flat_map over_passes (Hperm (cut_strands g)))).
    rewrite (over_passes_removelast _ Hne), Hcover, over_passes_app, length_app.
    rewrite Nat.add_comm, <- length_app, <- over_passes_app, firstn_skipn.
    apply valid_balanced. exact Hv.
Qed.

Lemma diagram_of_valid_code_witness :
  let d := labelled (insertion_order (cut_strands five_crossings)) in
  create_knot_dictionary insertion_order 22 five_crossings = Return (with_crossings d) /\
  length (all_crossings (with_crossings d)) = length (under_passes five_crossings).
Proof.
  apply (diagram_of_valid_code insertion_order five_crossings 22).
  - apply validb_valid. reflexivity.
  - cbn. lia.
  - intros l. apply Permutation_refl.
  - cbn. lia.
Defined.

(** ** The exceptions of a trial *)

Lemma visit_crossings_raises (cs : list crossing) :
  forall st e, visit_crossings cs st = Raise e -> e = KeyError.
Proof.
  induction cs as [|[c0 c1] cs IH]; intros st e H; [discriminate|].
  cbn [visit_crossings] in H.
  destruct (color_crossing (c0, c1) st) as [st'|e'|] eqn:Hc; cbn [bind] in H.
  - eauto.
  - injection H as <-. unfold color_crossing, assign in Hc.
    repeat match type of Hc with
           | context [if ?b then _ else _] => destruct b
           | context [match ?x with _ => _ end] => destruct x
           end; congruence.
  - discriminate.
Qed.

Lemma visit_strands_raises (knot : knot_dict) (seed : label) (fuel : nat) :
  forall j st e, visit_strands fuel knot seed j st = Raise e -> e = KeyError.
Proof.
  induction fuel as [|fuel IH]; intros j st e H; [discriminate|].
  cbn [visit_strands] in H.
  destruct (lookup seed (strand_colors_dict st)) as [part|]; [|congruence].
  destruct (nth_error part j) as [strand|]; [|discriminate].
  destruct (lookup strand knot) as [[t cs]|]; [|congruence].
  destruct (visit_crossings cs st) as [st'|e'|] eqn:Hc; cbn [bind] in H.
  - eauto.
  - injection H as <-. eapply visit_crossings_raises. exact Hc.
  - discriminate.
Qed.

Lemma visit_seeds_raises (knot : knot_dict) (fuel : nat) :
  forall todo st e, visit_seeds fuel knot todo st = Raise e -> e = KeyError.
Proof.
  induction todo as [|seed todo IH]; intros st e H; [discriminate|].
  cbn [visit_seeds] in H.
  destruct (visit_strands fuel knot seed 0 st) as [st'|e'|] eqn:Hc; cbn [bind] in H.
  - eauto.
  - injection H as <-. eapply visit_strands_raises. exact Hc.
  - discriminate.
Qed.

Lemma extend_raises (knot : knot_dict) (fuel : nat) :
  forall st e, extend fuel knot st = Raise e -> e = KeyError.
Proof.
  induction fuel as [|fuel IH]; intros st e H; [discriminate|].
  cbn [extend] in H. destruct (new_coloring st); [|discriminate].
  destruct (one_pass fuel knot st) as [st'|e'|] eqn:Hc; cbn [bind] in H.
  - eauto.
  - injection H as <-. eapply visit_seeds_raises. exact Hc.
  - discriminate.
Qed.

(** X16. [maximally_extend] leaves with no exception but [KeyError], and
    it returns no partition when one of the seeds is not a strand of the
    diagram. *)
Theorem maximally_extend_failure (knot : knot_dict) (seeds : list label) (fuel : nat) :
  (forall e, maximally_extend fuel seeds knot = Raise e -> e = KeyError) /\
  ((exists s, In s seeds /\ ~ In s (keys knot)) ->
   forall d, maximally_extend fuel seeds knot <> Return d).
Proof.
  split.
  - unfold maximally_extend. intros e H.
    destruct (extend fuel knot (seed_coloring seeds)) as [st|e'|] eqn:He;
      cbn [bind] in H; try discriminate.
    injection H as <-. eapply extend_raises. exact He.
  - intros (s & Hs & Hnot) d Hrun. apply Hnot.
    destruct (maximally_extend_reaches knot seeds fuel d Hrun) as [Hknown Hreach].
    apply Hknown, Hreach, reach_seed, Hs.
Qed.

(** ** The names of the strands of a built diagram *)

Lemma gains_crossings_keys (K : list label) (knot knot' : knot_dict) :
  Forall2 (gains_crossings K) knot knot' -> keys knot' = keys knot.
Proof.
  induction 1 as [|e e' knot knot' (Hk & _) _ IH]; [reflexivity|].
  unfold keys in *. cbn [map]. now rewrite Hk, IH.
Qed.

Lemma create_knot_dictionary_keys (set_iter : list strand -> list strand)
  (fuel : nat) (g : list Z) (knot : knot_dict) :
  create_knot_dictionary set_iter fuel g = Return knot -> NoDup (keys knot).
Proof.
  unfold create_knot_dictionary, find_strands. intros H.
  apply bind_Return in H. destruct H as [d [Hd Hf]].
  apply bind_Return in Hd. destruct Hd as [ss [_ Hl]].
  destruct (label_strands_returns _ _ Hl) as [-> Hlen].
  destruct (labelled_spec _ Hlen) as (_ & _ & _ & _ & Hnd).
  rewrite (gains_crossings_keys (keys (labelled (set_iter ss)))
             (labelled (set_iter ss)) knot); [exact Hnd|].
  apply (find_crossings_from_appends _ _ unbound); [|exact Hf].
  split; intros k E; discriminate E.
Qed.

(** ** What the bound ["28"] stands for *)

(** X17. When [calc] returns ["28"], the diagram it built has four
    different strands from which the propagation rule reaches every
    strand: three seeds chosen in the order of the strand list and one
    more strand. *)
Theorem calc_28_four_generators (set_iter : list strand -> list strand)
  (fuel : nat) (raw : list string) :
  calc set_iter fuel raw = Return "28" ->
  exists g knot seeds p,
    process_gauss_code raw = Return g /\
    create_knot_dictionary set_iter fuel g = Return knot /\
    sublist seeds (keys knot) /\ length seeds = 3 /\
    In p (keys knot) /\ NoDup (seeds ++ [p]) /\
    forall x, In x (keys knot) -> reach knot (seeds ++ [p]) x.
Proof.
  unfold calc. intros Hrun.
  destruct (process_gauss_code raw) as [g| |]; try discriminate.
  cbn [bind] in Hrun.
  destruct (create_knot_dictionary set_iter fuel g) as [knot| |] eqn:Hk;
    try discriminate.
  cbn [bind] in Hrun.
  pose proof (create_knot_dictionary_closed _ _ _ _ Hk) as Hclosed.
  set (F := Nat.max fuel (2 * length knot + 2)).
  pose proof (search_stable knot (keys knot) fuel F ltac:(lia)
                (get_seeds (keys knot) 3)) as Hst.
  rewrite Hrun in Hst. specialize (Hst ltac:(discriminate)).
  destruct (search_spec knot F Hclosed ltac:(lia) (get_seeds (keys knot) 3))
    as [[_ (seeds & Hin & Hext)]|[H32 _]].
  { intros seeds Hin. apply (combinations_incl _ _ _ Hin). }
  - destruct Hext as (d & n & Hd & _ & _ & p & d' & Hp & Hnot & Hd' & Hall).
    destruct (get_seeds_sublist _ _ _ Hin) as [Hsub Hlen].
    exists g, knot, seeds, p.
    split; [reflexivity|]. split; [exact Hk|]. split; [exact Hsub|].
    split; [exact Hlen|]. split; [exact Hp|]. split.
    + apply NoDup_app; repeat split.
      * eapply sublist_NoDup; [exact Hsub|].
        eapply create_knot_dictionary_keys. exact Hk.
      * repeat constructor. intros [].
      * intros s Hs [<-|[]]. apply Hnot.
        destruct (maximally_extend_reaches knot seeds F d Hd) as [_ Hreach].
        apply Hreach, reach_seed, Hs.
    + intros x Hx.
      destruct (maximally_extend_reaches knot (seeds ++ [p]) F d' Hd') as [_ Hreach].
      apply Hreach, Hall, Hx.
  - rewrite Hst in H32. discriminate.
Qed.

Lemma calc_28_four_generators_witness :
  exists g knot seeds p,
    process_gauss_code five_crossings_tokens = Return g /\
    create_knot_dictionary insertion_order 22 g = Return knot /\
    sublist seeds (keys knot) /\ length seeds = 3 /\
    In p (keys knot) /\ NoDup (seeds ++ [p]) /\
    forall x, In x (keys knot) -> reach knot (seeds ++ [p]) x.
Proof.
  apply (calc_28_four_generators insertion_order 22 five_crossings_tokens).
  vm_compute. reflexivity.
Defined.
